(** * mavity graph layout: a shallow embedding of the per-tick GPGPU pipeline

    The engine of [src/graph] is a sequence of WebGL2 kernels over 2D
    textures that double as arrays.  This development embeds the kernels
    as Rocq functions and proves the properties the specification states
    about them.

    Modelling conventions, used throughout:
    - a texture is the array of its texels in row-major order; a kernel
      that renders a full-screen quad over a [W x H] viewport computes one
      texel per fragment, whose linear index is [y * W + x];
    - the kernels address a texel of linear index [i] as
      [ivec2(i % W, i / W)]; [texelFetch] below takes exactly that pair;
    - channels that hold integers in 32-bit floats (PID, edge pointers,
      edge targets, coarse map, identity map) are modelled by the
      integer held, in [Z]; the shaders' float arithmetic on them rounds
      to 24 significant bits ([Gl.round24]), and a conversion of a
      negative float to [uint], which GLSL ES 3.00 leaves undefined,
      yields what the platform gives ([undefinedUint]);
    - real-valued channels (positions, velocities, masses) are real
      numbers [R]: rounding, overflow, infinities and NaN are not
      modelled, and the properties of the physics kernel assume
      [eps > 0], where the shader divides by no zero;
    - JavaScript numbers of the constructor options are rationals, with
      [NaN] apart. *)

From Stdlib Require Import ZArith List Lia Bool Permutation FinFun QArith Reals Lra.
Import ListNotations.

Set Implicit Arguments.

(* ================================================================= *)
(** ** The orchestrator's constructor ([layout.js], lines 34-76)      *)
(* ================================================================= *)

Module Layout.

(** A JavaScript number. *)
Inductive number : Type :=
| NaN : number
| Num : Q -> number.

(** A destructured option: [None] is [undefined] (the property is
    absent, or present with the value [undefined]). *)
Definition jsopt := option number.

(** JavaScript truthiness of a number-or-undefined: [undefined], [NaN],
    [0] and [-0] are falsy. *)
Definition truthy (v : jsopt) : bool :=
  match v with
  | None => false
  | Some NaN => false
  | Some (Num q) => negb (Qeq_bool q 0)
  end.

(** [v || d] *)
Definition js_or (v : jsopt) (d : number) : number :=
  match v with
  | Some x => if truthy v then x else d
  | None => d
  end.

(** [v !== undefined ? v : d] *)
Definition js_defined_or (v : jsopt) (d : number) : number :=
  match v with
  | Some x => x
  | None => d
  end.

(** The options object a caller hands to [new GraphLayout({...})].  A
    JavaScript caller may put any property in it; the ones of the
    specification's construction parameters are listed here.  The five
    textures are abstracted to whether each was supplied, the WebGL
    context to whether [EXT_color_buffer_float] is available. *)
Record options : Type := {
  ext_color_buffer_float : bool;
  particleCount : Z;
  edgeCount : Z;
  texPosition : bool;
  texVelocity : bool;
  texIdMassTint : bool;
  texEdgePtr : bool;
  texEdgeStore : bool;
  edgeCoarseMapStride : jsopt;
  gravityWindow : jsopt;
  dt : jsopt;
  G : jsopt;
  springK : jsopt;
  eps : jsopt;
  damping : jsopt;
  sfcResolution : jsopt
}.

(** The simulation parameters held by a constructed engine. *)
Record engine : Type := {
  this_particleCount : Z;
  this_edgeCount : Z;
  this_edgeCoarseMapStride : number;
  this_gravityWindow : number;
  this_dt : number;
  this_G : number;
  this_springK : number;
  this_eps : number;
  this_damping : number;
  this_sfcResolution : number;
  this_sortSpanSize : Z;
  this_passCounter : Z;
  this_renderCount : Z
}.

Inductive thrown : Type :=
| ExtNotSupported
| MissingTextures.

Definition default_edgeCoarseMapStride : number := Num 128.
Definition default_gravityWindow : number := Num 16.
Definition default_dt : number := Num 0.016.
Definition default_G : number := Num (-0.0001).
Definition default_springK : number := Num 1.0.
Definition default_eps : number := Num 0.1.
Definition default_damping : number := Num 0.002.
Definition default_sfcResolution : number := Num 64.0.

(** The body of the constructor, up to the simulation parameters and
    counters it assigns.  The destructuring pattern names
    [edgeCoarseMapStride, gravityWindow, dt, G, springK, eps,
    sfcResolution]; a [damping] property of the argument is not read.
    The constructor goes on to build the kernels, which throws when a
    shader does not compile (the gravity window is pasted into the
    physics shader as the bound of an [int] loop, so a window that is
    no integer fails there); that step is not modelled, and [inr e]
    gives the fields of an engine whose kernels compile. *)
Definition GraphLayout (o : options) : thrown + engine :=
  if negb (ext_color_buffer_float o) then inl ExtNotSupported
  else if negb (texPosition o) || negb (texVelocity o) || negb (texIdMassTint o)
          || negb (texEdgePtr o) || negb (texEdgeStore o)
  then inl MissingTextures
  else inr {|
    this_particleCount := particleCount o;
    this_edgeCount := edgeCount o;
    this_edgeCoarseMapStride := js_or (edgeCoarseMapStride o) (Num 128);
    this_gravityWindow := js_or (gravityWindow o) (Num 16);
    this_dt := js_or (dt o) (Num 0.016);
    this_G := js_defined_or (G o) (Num (-0.0001));
    this_springK := js_defined_or (springK o) (Num 1.0);
    this_eps := js_defined_or (eps o) (Num 0.1);
    this_damping := Num 0.002;
    this_sfcResolution := js_or (sfcResolution o) (Num 64.0);
    this_sortSpanSize := 128;
    this_passCounter := 0;
    this_renderCount := 0
  |}.

(** An options object with the context and the five textures in place
    and every optional parameter omitted. *)
Definition bare (n e : Z) : options := {|
  ext_color_buffer_float := true;
  particleCount := n; edgeCount := e;
  texPosition := true; texVelocity := true; texIdMassTint := true;
  texEdgePtr := true; texEdgeStore := true;
  edgeCoarseMapStride := None; gravityWindow := None; dt := None;
  G := None; springK := None; eps := None; damping := None;
  sfcResolution := None
|}.

(** Whether the constructor's two guards let the options through. *)
Definition accepted (o : options) : bool :=
  ext_color_buffer_float o && texPosition o && texVelocity o
  && texIdMassTint o && texEdgePtr o && texEdgeStore o.

End Layout.

(** Options with every optional parameter supplied as [v], on top of
    [bare n e]. *)
Definition all_supplied (n e : Z) (v : Layout.number) : Layout.options := {|
  Layout.ext_color_buffer_float := true;
  Layout.particleCount := n; Layout.edgeCount := e;
  Layout.texPosition := true; Layout.texVelocity := true;
  Layout.texIdMassTint := true;
  Layout.texEdgePtr := true; Layout.texEdgeStore := true;
  Layout.edgeCoarseMapStride := Some v; Layout.gravityWindow := Some v;
  Layout.dt := Some v;
  Layout.G := Some v; Layout.springK := Some v; Layout.eps := Some v;
  Layout.damping := Some v;
  Layout.sfcResolution := Some v
|}.

(* ================================================================= *)
(** ** WebGL2 / GLSL ES 3.0 primitives                                *)
(* ================================================================= *)

Module Gl.
Local Open Scope Z_scope.

(** Conversion to a 32-bit [uint], and [uint] arithmetic. *)
Definition uint (x : Z) : Z := x mod 4294967296.
Definition uadd (a b : Z) : Z := uint (a + b).
Definition usub (a b : Z) : Z := uint (a - b).

(** GLSL integer [/] and [%] (truncating). *)
Definition idiv (a b : Z) : Z := Z.quot a b.
Definition imod (a b : Z) : Z := Z.rem a b.

(** *** 32-bit floats that hold integers

    An R32F channel (edge pointers, edge targets, coarse map, identity
    map) and the PID channel hold integers in 32-bit floats; such a
    value is modelled by the integer it holds.  A [highp float] has a
    significand of 24 bits: not every integer from [2^24] on is a
    float, and the shaders' arithmetic rounds.  Rounding is to nearest,
    ties to even, and division is taken correctly rounded (IEEE 754).
    Overflow to infinity (from [2^128] on) is not modelled; no value
    of the pipeline comes near it. *)

(** [n / d] rounded to the nearest integer, ties to even ([d > 0]). *)
Definition roundEven (n d : Z) : Z :=
  let q := n / d in
  let r := n mod d in
  if 2 * r <? d then q
  else if d <? 2 * r then q + 1
  else if Z.even q then q else q + 1.

(** The integer [x] rounded to 24 significant bits.  Rounding to 24
    significant bits commutes with scaling by a power of two, so the
    float nearest to [x / 2^k] is [round24 x / 2^k]. *)
Definition round24 (x : Z) : Z :=
  let e := Z.log2 (Z.abs x) in
  if e <? 24 then x
  else
    let u := 2 ^ (e - 23) in
    roundEven x u * u.

(** [float(i)] of an [int] or [uint], and [a + b], [a - b], [a * b]
    on floats holding integers. *)
Definition float (i : Z) : Z := round24 i.
Definition fadd (a b : Z) : Z := round24 (a + b).
Definition fsub (a b : Z) : Z := round24 (a - b).
Definition fmul (a b : Z) : Z := round24 (a * b).

(** [floor(x + 0.5)]: the sum [x + 0.5 = (2 x + 1) / 2] is rounded to a
    float, then floored. *)
Definition floorHalf (x : Z) : Z := round24 (2 * x + 1) / 2.

(** [floor(n / d)] for [d > 0]: the quotient is rounded to a float,
    then floored.  The quotient is taken with [K + 1] binary places,
    the last one a sticky bit that records an inexact quotient; [K] is
    large enough for the rounding to fall at least two places above
    the sticky bit, where it rounds as the exact quotient does. *)
Definition floorDiv (n d : Z) : Z :=
  let K := Z.log2 d + 26 in
  let t := n * 2 ^ K / d in
  let sticky := if (n * 2 ^ K) mod d =? 0 then 0 else 1 in
  round24 (2 * t + sticky) / 2 ^ (K + 1).

(** [mod(x, y)], which GLSL defines as [x - y * floor(x / y)]. *)
Definition fmod (x y : Z) : Z := fsub x (fmul y (floorDiv x y)).

(** [uint(x)] of a float holding the integer [x].  GLSL ES 3.00 leaves
    the conversion undefined for a negative value and for one that does
    not fit 32 bits; [undefinedUint] is what the platform returns
    there. *)
Definition floatToUint (undefinedUint : Z -> Z) (x : Z) : Z :=
  if (0 <=? x) && (x <? 4294967296) then x else uint (undefinedUint x).

Definition ivec2 (x y : Z) : Z * Z := (x, y).

(** [texelFetch(t, ivec2(x, y), 0)] on a texture of width [W] stored
    row-major.  A fetch outside the texture yields [zero]. *)
Definition texelFetch {A : Type} (zero : A) (W : Z) (t : list A) (c : Z * Z) : A :=
  let (x, y) := c in
  if (0 <=? x) && (x <? W) && (0 <=? y)
  then nth (Z.to_nat (y * W + x)) t zero
  else zero.

(** In-place array write [l[i] = v] (no effect out of range). *)
Fixpoint upd {A : Type} (l : list A) (i : nat) (v : A) : list A :=
  match l, i with
  | [], _ => []
  | _ :: t, O => v :: t
  | h :: t, S k => h :: upd t k v
  end.

(** The fragment coordinates of a [W x H] viewport, row by row. *)
Definition fragments (W H : Z) : list (Z * Z) :=
  map (fun k => let i := Z.of_nat k in (i mod W, i / W))
      (seq 0 (Z.to_nat (W * H))).

(** A full-screen quad drawn over a [W x H] viewport: one invocation of
    the fragment shader [main] per texel, given [gl_FragCoord]. *)
Definition drawQuad {A : Type} (W H : Z) (main : Z * Z -> A) : list A :=
  map main (fragments W H).

(** The same when the shader may [discard]: a discarded fragment leaves
    the texel of the bound target [old] as it was. *)
Definition drawQuadOver {A : Type} (zero : A) (old : list A) (W H : Z)
    (main : Z * Z -> option A) : list A :=
  map (fun c => match main c with
                | Some v => v
                | None => texelFetch zero W old c
                end) (fragments W H).

(** [gl.drawArrays(gl.POINTS, 0, n)] with point size 1 on a [W x H]
    target [fb]: vertex [gl_VertexID] lands on the texel [fst (vs id)]
    when that lies in the viewport, and its fragment writes the value
    [snd (vs id)] there unless the fragment shader discards ([None]);
    outside the viewport the point is clipped.  Points are written in
    vertex order. *)
Definition drawPoints {A : Type} (fb : list A) (W H : Z) (n : Z)
    (vs : Z -> (Z * Z) * option A) : list A :=
  fold_left (fun fb k =>
               match vs (Z.of_nat k) with
               | ((x, y), Some v) =>
                   if (0 <=? x) && (x <? W) && (0 <=? y) && (y <? H)
                   then upd fb (Z.to_nat (y * W + x)) v
                   else fb
               | (_, None) => fb
               end)
            (seq 0 (Z.to_nat n)) fb.

(** [gl.clearBufferfv]: every texel of a [W x H] target set to [v]. *)
Definition clear {A : Type} (W H : Z) (v : A) : list A :=
  repeat v (Z.to_nat (W * H)).

End Gl.

(* ================================================================= *)
(** ** Particle texels                                                *)
(* ================================================================= *)

Module Particle.

(** The three RGBA32F particle textures, over a scalar type [F]:
    position+SFC [(x, y, z, sfc)], velocity [(vx, vy, vz, w)] and
    id/mass [(pid, mass, tint, unused)].  The PID channel holds an
    integer. *)
Record vec3 (F : Type) : Type := Vec3 { vx : F; vy : F; vz : F }.

Record positionAndSFC (F : Type) : Type :=
  PosSFC { xyz : vec3 F; sfc : F }.

Record velocity (F : Type) : Type :=
  Vel { vel : vec3 F; vel_w : F }.

Record idMassTint (F : Type) : Type :=
  IdMass { pid : Z; mass : F; tint : F; unused : F }.

End Particle.

(** The span sorted by one invocation of the sort encoder
    ([sortSpanSize] in the orchestrator, hard-wired as 128 in the atlas
    decoders). *)
Definition CHUNK : Z := 128.

(** [0, 1, ..., n-1] *)
Definition range (n : Z) : list Z := map Z.of_nat (seq 0 (Z.to_nat n)).

(* ================================================================= *)
(** ** KSortEncoder: chunked bitonic sort into the packed atlas       *)
(* ================================================================= *)

Module KSortEncoder.
Import Gl Particle.
Local Open Scope Z_scope.

Section Kernel.
Variable F : Type.
(** [a > b] on SFC keys, the key [1.0e37] of a slot out of range, and
    the texel an out-of-range fetch yields. *)
Variable gt : F -> F -> bool.
Variable sentinel : F.
Variable zeroPos : positionAndSFC F.

(** [#define]s of the shader and its uniforms. *)
Variable DATA_W ENC_W N_COUNT : Z.
Variable u_texParticlePositionAndSFC : list (positionAndSFC F).
Variable u_sortOffset : Z.

Definition fetchSFC (i : Z) : F :=
  let ii := imod (i + N_COUNT) N_COUNT in
  sfc (texelFetch zeroPos DATA_W u_texParticlePositionAndSFC
         (ivec2 (imod ii DATA_W) (idiv ii DATA_W))).

(** The local arrays [keys[CHUNK]] and [ids[CHUNK]]. *)
Definition arrays : Type := (list F * list Z)%type.

Definition key (a : arrays) (i : Z) : F := nth (Z.to_nat i) (fst a) sentinel.
Definition id (a : arrays) (i : Z) : Z := nth (Z.to_nat i) (snd a) 0.

(** First loop: load the keys of the chunk starting at [base]. *)
Definition load (base : Z) : arrays :=
  (map (fun i => let gIdx := base + i in
                 if (gIdx >=? 0) && (gIdx <? N_COUNT) then fetchSFC gIdx
                 else sentinel) (range CHUNK),
   range CHUNK).

(** Body of the innermost loop, for one [i]. *)
Definition compareExchange (k j : Z) (a : arrays) (i : Z) : arrays :=
  let l := Z.lxor i j in
  if l >? i then
    let dir := Z.land i k =? 0 in
    if Bool.eqb (gt (key a i) (key a l)) dir then
      let tk := key a i in
      let ti := id a i in
      (upd (upd (fst a) (Z.to_nat i) (key a l)) (Z.to_nat l) tk,
       upd (upd (snd a) (Z.to_nat i) (id a l)) (Z.to_nat l) ti)
    else a
  else a.

(** [for (int i = 0; i < CHUNK; i++)] *)
Definition iLoop (k j : Z) (a : arrays) : arrays :=
  fold_left (compareExchange k j) (range CHUNK) a.

(** [for (int j = k >> 1; j > 0; j >>= 1)] *)
Fixpoint jLoop (fuel : nat) (k j : Z) (a : arrays) : arrays :=
  match fuel with
  | O => a
  | S fuel' =>
      if j >? 0 then jLoop fuel' k (Z.shiftr j 1) (iLoop k j a) else a
  end.

(** [for (int k = 2; k <= CHUNK; k <<= 1)] *)
Fixpoint kLoop (fuel : nat) (k : Z) (a : arrays) : arrays :=
  match fuel with
  | O => a
  | S fuel' =>
      if k <=? CHUNK
      then kLoop fuel' (Z.shiftl k 1) (jLoop 8 k (Z.shiftr k 1) a)
      else a
  end.

Definition bitonic (a : arrays) : arrays := kLoop 8 2 a.

(** [packed[i] = a | (b << 8) | (c << 16) | (d << 24)] *)
Definition pack4 (ids : list Z) (i : Z) : Z :=
  let a := Z.land (uint (nth (Z.to_nat (i * 4 + 0)) ids 0)) 255 in
  let b := Z.land (uint (nth (Z.to_nat (i * 4 + 1)) ids 0)) 255 in
  let c := Z.land (uint (nth (Z.to_nat (i * 4 + 2)) ids 0)) 255 in
  let d := Z.land (uint (nth (Z.to_nat (i * 4 + 3)) ids 0)) 255 in
  Z.lor (Z.lor (Z.lor a (uint (Z.shiftl b 8))) (uint (Z.shiftl c 16)))
        (uint (Z.shiftl d 24)).

(** The sorted local indices of chunk [chunkIndex]. *)
Definition sortedIds (chunkIndex : Z) : list Z :=
  let base := chunkIndex * CHUNK + u_sortOffset in
  snd (bitonic (load base)).

(** The fragment shader.  Its eight [uvec4] outputs [o0 .. o7] are the
    32 words [packed[0 .. 31]] in order: attachment [t], component [c]
    is word [4 t + c]. *)
Definition main (pix : Z * Z) : list Z :=
  let chunkIndex := snd pix * ENC_W + fst pix in
  map (pack4 (sortedIds chunkIndex)) (range 32).

End Kernel.

(** [run]: one draw over the [encodedSortOrderWidth x Height] viewport;
    the result is the atlas, one 32-word texel per chunk. *)
Definition run (F : Type) (gt : F -> F -> bool) (sentinel : F)
    (zeroPos : positionAndSFC F)
    (particleCount particleDataWidth encodedSortOrderWidth
       encodedSortOrderHeight : Z)
    (texParticlePositionAndSFC : list (positionAndSFC F))
    (sortOffset : Z) : list (list Z) :=
  drawQuad encodedSortOrderWidth encodedSortOrderHeight
    (main gt sentinel zeroPos particleDataWidth encodedSortOrderWidth
       particleCount texParticlePositionAndSFC sortOffset).

End KSortEncoder.

(* ================================================================= *)
(** ** The sorting network, step by step                              *)
(* ================================================================= *)

(** The innermost loop of the encoder runs the compare-exchanges of one
    step [(k, j)] one after the other; no two of them share an index, so
    the step acts on every index [p] at once, through its partner
    [p xor j].  This module states the step in that form, on arrays seen
    as functions of the index; [BitonicFacts] proves it is what the
    loops compute. *)

Module Network.
Local Open Scope Z_scope.

(** The steps [(k, j)] in the order the two outer loops visit them. *)
Definition steps : list (Z * Z) :=
  [ (2, 1);
    (4, 2); (4, 1);
    (8, 4); (8, 2); (8, 1);
    (16, 8); (16, 4); (16, 2); (16, 1);
    (32, 16); (32, 8); (32, 4); (32, 2); (32, 1);
    (64, 32); (64, 16); (64, 8); (64, 4); (64, 2); (64, 1);
    (128, 64); (128, 32); (128, 16); (128, 8); (128, 4); (128, 2); (128, 1) ].

(** An array of [CHUNK] cells holding [f 0 .. f 127]. *)
Definition tab {A : Type} (f : Z -> A) : list A :=
  map (fun n => f (Z.of_nat n)) (seq 0 128).

(** The lower index of the pair [p] belongs to. *)
Definition lower (j p : Z) : Z :=
  if Z.lxor p j >? p then p else Z.lxor p j.

Section Step.
Variable F : Type.
Variable gt : F -> F -> bool.

(** Whether the pair of lower index [lo] is exchanged. *)
Definition swapAt (k j : Z) (x : Z -> F) (lo : Z) : bool :=
  Bool.eqb (gt (x lo) (x (Z.lxor lo j))) (Z.land lo k =? 0).

(** Where the content of cell [p] comes from. *)
Definition source (k j : Z) (x : Z -> F) (p : Z) : Z :=
  if swapAt k j x (lower j p) then Z.lxor p j else p.

(** One step on the keys [x] and on any array [y] carried along. *)
Definition step {A : Type} (k j : Z) (x : Z -> F) (y : Z -> A) : Z -> A :=
  fun p => if swapAt k j x (lower j p) then y (Z.lxor p j) else y p.

(** The steps [l] in turn, on keys and identifiers. *)
Fixpoint run {A : Type} (l : list (Z * Z)) (x : Z -> F) (y : Z -> A)
  : (Z -> F) * (Z -> A) :=
  match l with
  | [] => (x, y)
  | (k, j) :: l' => run l' (step k j x x) (step k j x y)
  end.

End Step.

(** [a > b] on booleans: [true > false]. *)
Definition gtb01 (a b : bool) : bool := a && negb b.

(** One step on a whole array at once.  The cells come in groups of
    [2 j]: [j] lower cells, then their [j] partners; the pairs of one
    group share their direction, which [asc] gives for the index of the
    group's first cell. *)
Section Sweep.
Variable F : Type.
Variable gt : F -> F -> bool.

Fixpoint zipWith (f : F -> F -> F) (l l' : list F) : list F :=
  match l, l' with
  | a :: t, b :: t' => f a b :: zipWith f t t'
  | _, _ => []
  end.

Fixpoint sweepGroups (groups : nat) (j : nat) (asc : Z -> bool) (at_ : Z)
    (l : list F) : list F :=
  match groups with
  | O => l
  | S groups' =>
      let lo := firstn j l in
      let hi := firstn j (skipn j l) in
      let rest := skipn (j + j) l in
      let dir := asc at_ in
      zipWith (fun a b => if Bool.eqb (gt a b) dir then b else a) lo hi
      ++ zipWith (fun a b => if Bool.eqb (gt a b) dir then a else b) lo hi
      ++ sweepGroups groups' j asc (at_ + 2 * Z.of_nat j) rest
  end.

Definition sweep (k j : Z) (l : list F) : list F :=
  sweepGroups (Z.to_nat (128 / (2 * j))) (Z.to_nat j)
    (fun lo => Z.land lo k =? 0) 0 l.

Definition sweeps (l : list (Z * Z)) (a : list F) : list F :=
  fold_left (fun a kj => sweep (fst kj) (snd kj) a) l a.

End Sweep.

(** A block of [m] cells starting at [m * c] that holds [z] ones, sorted
    ascending when [c] is even and descending when [c] is odd: the shape
    of every block of size [m] after the stage [k = m]; zero outside the
    block. *)
Definition sortedBlock (m c z : Z) (p : Z) : bool :=
  let i := p - m * c in
  if (i <? 0) || (i >=? m) then false
  else if Z.even c then m - z <=? i else i <? z.

(** The two halves of the block [b] of size [2 m], holding [z1] and
    [z2] ones; zero elsewhere. *)
Definition twoHalves (m b z1 z2 : Z) (p : Z) : bool :=
  sortedBlock m (2 * b) z1 p || sortedBlock m (2 * b + 1) z2 p.

(** The steps of the stage [k]: [j = k/2, k/4, ..., 1]. *)
Definition stage (k : Z) : list (Z * Z) :=
  filter (fun kj => fst kj =? k) steps.

Fixpoint eqbList (l l' : list bool) : bool :=
  match l, l' with
  | [], [] => true
  | a :: t, b :: t' => Bool.eqb a b && eqbList t t'
  | _, _ => false
  end.

(** The check run for every stage, block and pair of counts: the stage
    [k = 2 m] turns two sorted halves into a sorted block. *)
Definition mergesTo (m b z1 z2 : Z) : bool :=
  eqbList (sweeps gtb01 (stage (2 * m)) (tab (twoHalves m b z1 z2)))
          (tab (sortedBlock (2 * m) b (z1 + z2))).

Definition stageChecked (m : Z) : bool :=
  forallb (fun b =>
    forallb (fun z1 =>
      forallb (fun z2 => mergesTo m b z1 z2) (range (m + 1)))
      (range (m + 1)))
    (range (128 / (2 * m))).

End Network.

(* ================================================================= *)
(** ** Decoding the atlas                                             *)
(* ================================================================= *)

Module Atlas.
Import Gl.
Local Open Scope Z_scope.

Section Decode.
Variable encodedSortOrderWidth particleCount : Z.
Variable u_order : list (list Z).
Variable u_sortOffset : Z.

(** [fetchPackedFromOrder(texIdx, coord, comp)]: component [comp] of
    attachment [texIdx] at [coord]. *)
Definition fetchPackedFromOrder (texIdx : Z) (coord : Z * Z) (comp : Z) : Z :=
  nth (Z.to_nat (texIdx * 4 + comp))
      (texelFetch [] encodedSortOrderWidth u_order coord) 0.

(** [getOldID], as it stands in the prefix-sum and relocation shaders. *)
Definition getOldID (pNew : Z) : Z :=
  let idx := pNew in
  let offset := u_sortOffset in
  let relIdx := idx - offset in
  if (relIdx <? 0) || (relIdx >=? idiv (particleCount - offset) 128 * 128)
  then uint idx
  else
    let chunkIdx := idiv relIdx 128 in
    let sub := imod relIdx 128 in
    let texIdx := idiv sub 16 in
    let rem := imod sub 16 in
    let comp := idiv rem 4 in
    let byteIdx := imod rem 4 in
    let coord := ivec2 (imod chunkIdx encodedSortOrderWidth)
                       (idiv chunkIdx encodedSortOrderWidth) in
    let val := fetchPackedFromOrder texIdx coord comp in
    let rel := Z.land (Z.shiftr val (uint byteIdx * 8)) 255 in
    uadd (uint (chunkIdx * 128 + offset)) rel.

End Decode.
End Atlas.

(* ================================================================= *)
(** ** KParticleReshuffle: gather through the atlas                   *)
(* ================================================================= *)

Module KParticleReshuffle.
Import Gl Particle.
Local Open Scope Z_scope.

Section Kernel.
Variable F : Type.
Variable zeroPos : positionAndSFC F.
Variable zeroVel : velocity F.
Variable zeroId : idMassTint F.

(** [#define]s and uniforms. *)
Variable sortSpanSize encodedSortOrderWidth particleDataWidth particleCount : Z.
Variable u_inParticlePositionAndSFC : list (positionAndSFC F).
Variable u_inParticleVelocity : list (velocity F).
Variable u_inIdMassTintEdgePtr : list (idMassTint F).
Variable u_inEncodedSortOrder : list (list Z).
Variable u_sortOffset : Z.

Definition fetchPositionAndSFC (i : Z) : positionAndSFC F :=
  texelFetch zeroPos particleDataWidth u_inParticlePositionAndSFC
    (ivec2 (imod i particleDataWidth) (idiv i particleDataWidth)).

Definition fetchVel (i : Z) : velocity F :=
  texelFetch zeroVel particleDataWidth u_inParticleVelocity
    (ivec2 (imod i particleDataWidth) (idiv i particleDataWidth)).

Definition fetchIdMassTintEdgePtr (i : Z) : idMassTint F :=
  texelFetch zeroId particleDataWidth u_inIdMassTintEdgePtr
    (ivec2 (imod i particleDataWidth) (idiv i particleDataWidth)).

Definition fetchPackedFromOrder : Z -> Z * Z -> Z -> Z :=
  Atlas.fetchPackedFromOrder encodedSortOrderWidth u_inEncodedSortOrder.

(** The three MRT outputs of one fragment. *)
Definition outputs : Type :=
  (positionAndSFC F * velocity F * idMassTint F)%type.

(** The fragment shader; [None] is [discard]. *)
Definition main (gl_FragCoord : Z * Z) : option outputs :=
  let idx := snd gl_FragCoord * particleDataWidth + fst gl_FragCoord in
  if idx >=? particleCount then None
  else
    let offset := u_sortOffset in
    let relIdx := idx - offset in
    if (relIdx <? 0)
       || (relIdx >=? idiv (particleCount - offset) sortSpanSize * sortSpanSize)
    then Some (fetchPositionAndSFC idx, fetchVel idx, fetchIdMassTintEdgePtr idx)
    else
      let chunkIndex := idiv relIdx sortSpanSize in
      let localIdx := imod relIdx sortSpanSize in
      let coord := ivec2 (imod chunkIndex encodedSortOrderWidth)
                         (idiv chunkIndex encodedSortOrderWidth) in
      let packedIndex := Z.shiftr localIdx 2 in
      let texIdx := Z.shiftr packedIndex 2 in
      let comp := Z.land packedIndex 3 in
      let packedVal := fetchPackedFromOrder texIdx coord comp in
      let byteShift := uint (Z.land localIdx 3) * 8 in
      let srcLocal := Z.land (Z.shiftr packedVal byteShift) 255 in
      let srcGlobal := (chunkIndex * sortSpanSize + offset) + srcLocal in
      let srcGlobal :=
        if (srcGlobal <? 0) || (srcGlobal >=? particleCount) then idx
        else srcGlobal in
      Some (fetchPositionAndSFC srcGlobal, fetchVel srcGlobal,
            fetchIdMassTintEdgePtr srcGlobal).

End Kernel.

(** The textures a reshuffle pass leaves in its three targets. *)
Record targets (F : Type) : Type := {
  outParticlePositionAndSFC : list (positionAndSFC F);
  outParticleVelocity : list (velocity F);
  outIdMassTintEdgePtr : list (idMassTint F)
}.

(** [run]: one draw over the particle viewport with the three targets
    bound; a discarded fragment leaves all three as they were. *)
Definition run (F : Type) (zeroPos : positionAndSFC F) (zeroVel : velocity F)
    (zeroId : idMassTint F)
    (particleCount particleDataWidth particleDataHeight
       encodedSortOrderWidth sortSpanSize : Z)
    (out : targets F)
    (inParticlePositionAndSFC : list (positionAndSFC F))
    (inParticleVelocity : list (velocity F))
    (inIdMassTintEdgePtr : list (idMassTint F))
    (inEncodedSortOrder : list (list Z)) (sortOffset : Z) : targets F :=
  let shade :=
    main zeroPos zeroVel zeroId sortSpanSize encodedSortOrderWidth
      particleDataWidth particleCount inParticlePositionAndSFC
      inParticleVelocity inIdMassTintEdgePtr inEncodedSortOrder sortOffset in
  {| outParticlePositionAndSFC :=
       drawQuadOver zeroPos (outParticlePositionAndSFC out)
         particleDataWidth particleDataHeight
         (fun c => option_map (fun o => fst (fst o)) (shade c));
     outParticleVelocity :=
       drawQuadOver zeroVel (outParticleVelocity out)
         particleDataWidth particleDataHeight
         (fun c => option_map (fun o => snd (fst o)) (shade c));
     outIdMassTintEdgePtr :=
       drawQuadOver zeroId (outIdMassTintEdgePtr out)
         particleDataWidth particleDataHeight
         (fun c => option_map (fun o => snd o) (shade c)) |}.

End KParticleReshuffle.

(* ================================================================= *)
(** ** KIdentityMirror: the map PID -> physical slot                  *)
(* ================================================================= *)

Module KIdentityMirror.
Import Gl Particle.
Local Open Scope Z_scope.

Section Kernel.
Variable F : Type.
Variable zeroId : idMassTint F.
Variable particleCount textureWidth textureHeight : Z.
Variable u_texIdMassTintEdgePtr : list (idMassTint F).

(** The vertex shader, for [gl_VertexID = pIndex]: the texel the point
    lands on, [(x, y) = (mod(pid, u_res.x), floor(pid / u_res.x))]
    computed in floats (the position
    [((x + 0.5) / u_res.x * 2 - 1, (y + 0.5) / u_res.y * 2 - 1)] is the
    centre of that texel), and the value [v_physID = float(pIndex)] the
    fragment shader writes there (it never discards). *)
Definition vertex (pIndex : Z) : (Z * Z) * option Z :=
  let tx := imod pIndex textureWidth in
  let ty := idiv pIndex textureWidth in
  let idMassTintEdgePtr :=
    texelFetch zeroId textureWidth u_texIdMassTintEdgePtr (ivec2 tx ty) in
  let pid := floorHalf (pid idMassTintEdgePtr) in
  let v_physID := float pIndex in
  let x := fmod pid textureWidth in
  let y := floorDiv pid textureWidth in
  ((x, y), Some v_physID).

(** [run]: clear the identity texture to [-1], then draw one point per
    particle slot. *)
Definition run : list Z :=
  drawPoints (clear textureWidth textureHeight (-1))
    textureWidth textureHeight particleCount vertex.

End Kernel.
End KIdentityMirror.

(* ================================================================= *)
(** ** KEdgePrefixSum: new CSR offsets by a Hillis-Steele scan        *)
(* ================================================================= *)

Module KEdgePrefixSum.
Import Gl.
Local Open Scope Z_scope.

Section Kernel.
(** [#define]s; the uniform [u_dimensions] is [(width, height)]. *)
Variable encodedSortOrderWidth particleCount : Z.
Variable width : Z.
Variable u_texEdgePtrOld : list Z.
Variable u_order : list (list Z).
Variable u_sortOffset : Z.

Definition getOldID : Z -> Z :=
  Atlas.getOldID encodedSortOrderWidth particleCount u_order u_sortOffset.

(** [Start[pOld + 1] - Start[pOld]], as both [progInit] and [progFinal]
    derive it: each start read with [floor(x + 0.5)], the difference
    taken in floats. *)
Definition countOf (flatIdx : Z) : Z :=
  let pOld := getOldID (uint flatIdx) in
  let coordOld := ivec2 (imod pOld (uint width)) (idiv pOld (uint width)) in
  let startCurrent := floorHalf (texelFetch 0 width u_texEdgePtrOld coordOld) in
  let pNextIdx := uadd pOld 1 in
  let coordNext := ivec2 (imod pNextIdx (uint width)) (idiv pNextIdx (uint width)) in
  let startNext := floorHalf (texelFetch 0 width u_texEdgePtrOld coordNext) in
  fsub startNext startCurrent.

(** [progInit] *)
Definition mainInit (coord : Z * Z) : Z :=
  let flatIdx := snd coord * width + fst coord in
  if flatIdx >=? particleCount then 0
  else countOf flatIdx.

(** [progScan], reading [u_texSum] with offset [u_offset] *)
Definition mainScan (u_texSum : list Z) (u_offset : Z) (coord : Z * Z) : Z :=
  let flatIdx := snd coord * width + fst coord in
  let self := texelFetch 0 width u_texSum coord in
  if flatIdx >=? u_offset then
    let neighborIdx := flatIdx - u_offset in
    let neighborCoord := ivec2 (imod neighborIdx width) (idiv neighborIdx width) in
    let other := texelFetch 0 width u_texSum neighborCoord in
    fadd self other
  else self.

(** [progFinal], reading the inclusive sums [u_texSum] *)
Definition mainFinal (u_texSum : list Z) (coord : Z * Z) : Z :=
  let flatIdx := snd coord * width + fst coord in
  let inclusiveSum := texelFetch 0 width u_texSum coord in
  let count := if flatIdx <? particleCount then countOf flatIdx else 0 in
  let start := fsub (floorHalf inclusiveSum) count in
  start.

End Kernel.

(** The scan loop of [run]: [for (let i = 0; i < steps; i++)] with
    [offset = 1 << i], ping-ponging between the two sum textures; the
    result is the texture last written. *)
Fixpoint scanLoop (width height : Z) (todo : nat) (i : Z) (texSum : list Z)
  : list Z :=
  match todo with
  | O => texSum
  | S todo' =>
      let offset := Z.shiftl 1 i in
      scanLoop width height todo' (i + 1)
        (drawQuad width height (mainScan width texSum offset))
  end.

(** [run]; [steps = Math.ceil(Math.log2(w * h))]. *)
Definition run (width height encodedSortOrderWidth particleCount : Z)
    (texEdgePtrOld : list Z) (texSortOrder : list (list Z)) (sortOffset : Z)
  : list Z :=
  let w := width in
  let h := height in
  let N := w * h in
  let sum0 :=
    drawQuad w h (mainInit encodedSortOrderWidth particleCount w
                    texEdgePtrOld texSortOrder sortOffset) in
  let steps := Z.log2_up N in
  let inclusive := scanLoop w h (Z.to_nat steps) 0 sum0 in
  drawQuad w h (mainFinal encodedSortOrderWidth particleCount w
                  texEdgePtrOld texSortOrder sortOffset inclusive).

End KEdgePrefixSum.

(* ================================================================= *)
(** ** KEdgeCoarseMap: edge index / stride -> owner, by bisection     *)
(* ================================================================= *)

Module KEdgeCoarseMap.
Import Gl.
Local Open Scope Z_scope.

Section Kernel.
(** Uniforms; [u_particleDims.x] is [particleDataWidth]. *)
Variable u_texEdgePtr : list Z.
Variable particleDataWidth : Z.
Variable u_stride u_particleCount u_coarseWidth : Z.

(** The literal [1.0e15] standing for infinity: as a float it is
    999999986991104. *)
Definition infinity : Z := round24 1000000000000000.

Definition getStart (idx : Z) : Z :=
  if idx >=? u_particleCount then infinity
  else texelFetch 0 particleDataWidth u_texEdgePtr
         (ivec2 (imod idx particleDataWidth) (idiv idx particleDataWidth)).

(** [for (int i = 0; i < 17; i++)], with its [break]. *)
Fixpoint search (todo : nat) (targetIndex low high : Z) : Z :=
  match todo with
  | O => low
  | S todo' =>
      let mid := idiv (low + high) 2 in
      if mid =? low then low
      else
        let val := getStart mid in
        if val <=? targetIndex
        then search todo' targetIndex mid high
        else search todo' targetIndex low mid
  end.

Definition main (coord : Z * Z) : Z :=
  let coarseIdx := snd coord * u_coarseWidth + fst coord in
  let targetIndex := fmul (float coarseIdx) (float u_stride) in
  let low := 0 in
  let high := u_particleCount in
  float (search 17 targetIndex low high).

End Kernel.

Definition run (coarseWidth coarseHeight particleDataWidth edgeCoarseMapStride
                  particleCount : Z) (texEdgePtr : list Z) : list Z :=
  drawQuad coarseWidth coarseHeight
    (main texEdgePtr particleDataWidth edgeCoarseMapStride particleCount
       coarseWidth).

End KEdgeCoarseMap.

(* ================================================================= *)
(** ** KEdgeRelocation: the edge store in its new layout              *)
(* ================================================================= *)

Module KEdgeRelocation.
Import Gl Particle.
Local Open Scope Z_scope.

Section Kernel.
Variable F : Type.
Variable zeroId : idMassTint F.

(** [#define]s *)
Variable encodedSortOrderWidth edgeStoreWidth edgeCount particleCount
         particleDataWidth : Z.
(** uniforms; [u_slotsRes.x] is [slotsResX] *)
Variable u_texEdgeStoreOld u_texCoarseMap u_texEdgePtrNew u_texEdgePtrOld : list Z.
Variable u_order : list (list Z).
Variable u_texIdMassTintEdgePtrOld : list (idMassTint F).
Variable u_texIdentityNew : list Z.
Variable slotsResX : Z.
Variable u_stride u_coarseWidth u_sortOffset : Z.
(** The platform's [uint(x)] where GLSL leaves it undefined. *)
Variable undefinedUint : Z -> Z.

Definition getOldID : Z -> Z :=
  Atlas.getOldID encodedSortOrderWidth particleCount u_order u_sortOffset.

(** [uint(floor(x + 0.5))] *)
Definition toUint (x : Z) : Z := floatToUint undefinedUint (floorHalf x).

Definition fetchPtrNew (p : Z) : Z :=
  toUint (texelFetch 0 particleDataWidth u_texEdgePtrNew
            (ivec2 (imod p (uint particleDataWidth))
                   (idiv p (uint particleDataWidth)))).

(** [for (int k = 0; k < 256; k++)]: refine [p_new] by walking
    forward. *)
Fixpoint refine (todo : nat) (e_new p_new : Z) : Z :=
  match todo with
  | O => p_new
  | S todo' =>
      if p_new >=? uint particleCount then p_new
      else
        let start := fetchPtrNew p_new in
        let startNext := fetchPtrNew (uadd p_new 1) in
        let count := usub startNext start in
        if (e_new >=? start) && (e_new <? uadd start count) then p_new
        else refine todo' e_new (uadd p_new 1)
  end.

Definition main (coord : Z * Z) : Z :=
  let flatIdx := snd coord * edgeStoreWidth + fst coord in
  let e_new := uint flatIdx in
  if e_new >=? uint edgeCount then -1
  else
    (* 1. find p_new using the coarse map *)
    let coarseIdx := idiv flatIdx u_stride in
    let coarseCoord := ivec2 (imod coarseIdx u_coarseWidth)
                             (idiv coarseIdx u_coarseWidth) in
    let p_new := toUint (texelFetch 0 u_coarseWidth u_texCoarseMap coarseCoord) in
    (* 2. refine p_new *)
    let p_new := refine 256 e_new p_new in
    (* 3. local index *)
    let start_new := fetchPtrNew p_new in
    let offset := usub e_new start_new in
    (* 4. find p_old *)
    let p_old := getOldID p_new in
    (* 5. start_old *)
    let pOldCoord := ivec2 (imod p_old (uint particleDataWidth))
                           (idiv p_old (uint particleDataWidth)) in
    let start_old := toUint (texelFetch 0 particleDataWidth u_texEdgePtrOld pOldCoord) in
    (* 6. e_old *)
    let e_old := uadd start_old offset in
    (* 7. old target physical index *)
    let eOldCoord := ivec2 (imod e_old (uint edgeStoreWidth))
                           (idiv e_old (uint edgeStoreWidth)) in
    let oldTargetPhys :=
      toUint (texelFetch 0 edgeStoreWidth u_texEdgeStoreOld eOldCoord) in
    if oldTargetPhys =? 4294967295 then -1
    else
      (* 8. translate old physical index -> PID -> new physical index *)
      let oldTargetCoord :=
        ivec2 (imod oldTargetPhys (uint particleDataWidth))
              (idiv oldTargetPhys (uint particleDataWidth)) in
      let pidFloat :=
        pid (texelFetch zeroId particleDataWidth u_texIdMassTintEdgePtrOld
               oldTargetCoord) in
      let pid := toUint pidFloat in
      let identityCoord := ivec2 (imod pid (uint slotsResX))
                                 (idiv pid (uint slotsResX)) in
      let newTargetPhys :=
        texelFetch 0 slotsResX u_texIdentityNew identityCoord in
      newTargetPhys.

End Kernel.

Definition run (F : Type) (zeroId : idMassTint F) (undefinedUint : Z -> Z)
    (edgeStoreWidth edgeStoreHeight coarseWidth particleDataWidth
       encodedSortOrderWidth startStride edgeCount particleCount : Z)
    (texEdgeStoreOld texCoarseMap texEdgePtrNew texEdgePtrOld : list Z)
    (texIdMassTintEdgePtrOld : list (idMassTint F))
    (texIdentityNew : list Z) (slotsResX : Z)
    (texSortOrder : list (list Z)) (sortOffset : Z) : list Z :=
  (* the constructor's [this.stride = startStride || 128] *)
  let stride := if startStride =? 0 then 128 else startStride in
  drawQuad edgeStoreWidth edgeStoreHeight
    (main zeroId encodedSortOrderWidth edgeStoreWidth edgeCount particleCount
       particleDataWidth texEdgeStoreOld texCoarseMap texEdgePtrNew
       texEdgePtrOld texSortOrder texIdMassTintEdgePtrOld texIdentityNew
       slotsResX stride coarseWidth sortOffset undefinedUint).

End KEdgeRelocation.

(* ================================================================= *)
(** ** GraphLayout: the orchestrator's textures and its [run]         *)
(* ================================================================= *)

Module GraphLayout.
Import Gl Particle.
Local Open Scope Z_scope.

(** [Math.pow(2, Math.ceil(Math.log2(Math.sqrt(c))))]: the smallest
    power of two that is at least the square root of [c]; for [c = 0]
    JavaScript yields [2 ^ -Infinity = 0]. *)
Definition pow2CeilSqrt (c : Z) : Z :=
  if c <=? 0 then 0 else 2 ^ Z.log2_up (Z.sqrt_up c).

(** [Math.ceil(a / b)] for integers, a division by zero giving an empty
    dimension. *)
Definition ceilDiv (a b : Z) : Z :=
  if b <=? 0 then 0 else (a + b - 1) / b.

(** The engine: construction constants, counters and every texture the
    orchestrator owns ([texIdentity] is the identity kernel's). *)
Record engine (F : Type) : Type := {
  particleCount : Z;
  edgeCount : Z;
  edgeCoarseMapStride : Z;
  sortSpanSize : Z;
  encodedSortOrderWidth : Z;
  encodedSortOrderHeight : Z;
  edgeStoreWidth : Z;
  edgeStoreHeight : Z;
  coarseWidth : Z;
  coarseHeight : Z;
  particleDataWidth : Z;
  particleDataHeight : Z;
  passCounter : Z;
  frameCounter : Z;
  renderCount : Z;
  texPositionAndSFC : list (positionAndSFC F);
  texScratchPositionAndSFC : list (positionAndSFC F);
  texVelocity : list (velocity F);
  texScratchVelocity : list (velocity F);
  texIdMassTint : list (idMassTint F);
  texScratchIdMassTint : list (idMassTint F);
  texEncodedSortOrder : list (list Z);
  texEdgePtr : list Z;
  texScratchEdgePtr : list Z;
  texEdgeStore : list Z;
  texScratchEdgeStore : list Z;
  texCoarseMap : list Z;
  texIdentity : list Z
}.

Section Run.
Variable F : Type.
(** [a > b] on SFC keys, the sort's out-of-range key [1.0e37], and the
    texels an out-of-range fetch yields. *)
Variable gt : F -> F -> bool.
Variable sentinelKey : F.
Variable zeroPos : positionAndSFC F.
Variable zeroVel : velocity F.
Variable zeroId : idMassTint F.
(** The platform's [uint(x)] where GLSL leaves it undefined (the
    relocation kernel converts edge targets, the sentinel [-1] among
    them). *)
Variable undefinedUint : Z -> Z.

(** The construction of the derived constants and textures, given the
    caller's five seeded textures. *)
Definition construct (particleCount edgeCount edgeCoarseMapStride : Z)
    (texPosition : list (positionAndSFC F)) (texVelocity : list (velocity F))
    (texIdMassTint : list (idMassTint F)) (texEdgePtr texEdgeStore : list Z)
  : engine F :=
  let sortSpanSize := 128 in
  let encodedSortOrderWidth := pow2CeilSqrt (ceilDiv particleCount sortSpanSize) in
  (* [Math.ceil((particleCount / sortSpanSize) / encodedSortOrderWidth)] *)
  let encodedSortOrderHeight :=
    ceilDiv particleCount (sortSpanSize * encodedSortOrderWidth) in
  let edgeStoreWidth := pow2CeilSqrt edgeCount in
  let edgeStoreHeight := ceilDiv edgeCount edgeStoreWidth in
  let coarseWidth := pow2CeilSqrt (ceilDiv edgeCount edgeCoarseMapStride) in
  let coarseHeight :=
    ceilDiv (ceilDiv edgeCount edgeCoarseMapStride) coarseWidth in
  let particleDataWidth := pow2CeilSqrt (particleCount + 1) in
  let particleDataHeight := ceilDiv (particleCount + 1) particleDataWidth in
  {| particleCount := particleCount;
     edgeCount := edgeCount;
     edgeCoarseMapStride := edgeCoarseMapStride;
     sortSpanSize := sortSpanSize;
     encodedSortOrderWidth := encodedSortOrderWidth;
     encodedSortOrderHeight := encodedSortOrderHeight;
     edgeStoreWidth := edgeStoreWidth;
     edgeStoreHeight := edgeStoreHeight;
     coarseWidth := coarseWidth;
     coarseHeight := coarseHeight;
     particleDataWidth := particleDataWidth;
     particleDataHeight := particleDataHeight;
     passCounter := 0;
     frameCounter := 0;
     renderCount := 0;
     texPositionAndSFC := texPosition;
     texScratchPositionAndSFC :=
       clear particleDataWidth particleDataHeight zeroPos;
     texVelocity := texVelocity;
     texScratchVelocity := clear particleDataWidth particleDataHeight zeroVel;
     texIdMassTint := texIdMassTint;
     texScratchIdMassTint := clear particleDataWidth particleDataHeight zeroId;
     texEncodedSortOrder :=
       clear encodedSortOrderWidth encodedSortOrderHeight (repeat 0 32);
     texEdgePtr := texEdgePtr;
     texScratchEdgePtr := clear particleDataWidth particleDataHeight 0;
     texEdgeStore := texEdgeStore;
     texScratchEdgeStore := clear edgeStoreWidth edgeStoreHeight 0;
     texCoarseMap := clear coarseWidth coarseHeight 0;
     texIdentity := clear particleDataWidth particleDataHeight 0 |}.

(** The passes of [run] that follow the physics pass: sort, reshuffle,
    identity, prefix sum, coarse map, relocation, then the two swaps and
    the counters.  The scratch particle textures hold the physics
    output. *)
Definition relayout (g : engine F) : engine F :=
  let sortOffset := (passCounter g mod 2) * (sortSpanSize g / 2) in
  (* kSort.run *)
  let atlas :=
    KSortEncoder.run gt sentinelKey zeroPos (particleCount g)
      (particleDataWidth g) (encodedSortOrderWidth g)
      (encodedSortOrderHeight g) (texScratchPositionAndSFC g) sortOffset in
  (* kParticleReshuffle.run, scratch -> current *)
  let cur :=
    KParticleReshuffle.run zeroPos zeroVel zeroId (particleCount g)
      (particleDataWidth g) (particleDataHeight g) (encodedSortOrderWidth g)
      (sortSpanSize g)
      {| KParticleReshuffle.outParticlePositionAndSFC := texPositionAndSFC g;
         KParticleReshuffle.outParticleVelocity := texVelocity g;
         KParticleReshuffle.outIdMassTintEdgePtr := texIdMassTint g |}
      (texScratchPositionAndSFC g) (texScratchVelocity g)
      (texScratchIdMassTint g) atlas sortOffset in
  let idMass' := KParticleReshuffle.outIdMassTintEdgePtr cur in
  (* kIdentity.run *)
  let identity :=
    KIdentityMirror.run zeroId (particleCount g) (particleDataWidth g)
      (particleDataHeight g) idMass' in
  (* kEdgePrefixSum.run, writing the scratch pointers *)
  let ptrNew :=
    KEdgePrefixSum.run (particleDataWidth g) (particleDataHeight g)
      (encodedSortOrderWidth g) (particleCount g) (texEdgePtr g) atlas
      sortOffset in
  (* kEdgeCoarseMap.run *)
  let coarse :=
    KEdgeCoarseMap.run (coarseWidth g) (coarseHeight g) (particleDataWidth g)
      (edgeCoarseMapStride g) (particleCount g) ptrNew in
  (* kEdgeRelocation.run, writing the scratch store *)
  let storeNew :=
    KEdgeRelocation.run zeroId undefinedUint (edgeStoreWidth g)
      (edgeStoreHeight g)
      (coarseWidth g) (particleDataWidth g) (encodedSortOrderWidth g)
      (edgeCoarseMapStride g) (edgeCount g) (particleCount g)
      (texEdgeStore g) coarse ptrNew (texEdgePtr g) (texScratchIdMassTint g)
      identity (particleDataWidth g) atlas sortOffset in
  {| particleCount := particleCount g;
     edgeCount := edgeCount g;
     edgeCoarseMapStride := edgeCoarseMapStride g;
     sortSpanSize := sortSpanSize g;
     encodedSortOrderWidth := encodedSortOrderWidth g;
     encodedSortOrderHeight := encodedSortOrderHeight g;
     edgeStoreWidth := edgeStoreWidth g;
     edgeStoreHeight := edgeStoreHeight g;
     coarseWidth := coarseWidth g;
     coarseHeight := coarseHeight g;
     particleDataWidth := particleDataWidth g;
     particleDataHeight := particleDataHeight g;
     passCounter := passCounter g + 1;
     frameCounter := frameCounter g + 1;
     renderCount := renderCount g + 1;
     texPositionAndSFC := KParticleReshuffle.outParticlePositionAndSFC cur;
     texScratchPositionAndSFC := texScratchPositionAndSFC g;
     texVelocity := KParticleReshuffle.outParticleVelocity cur;
     texScratchVelocity := texScratchVelocity g;
     texIdMassTint := idMass';
     texScratchIdMassTint := texScratchIdMassTint g;
     texEncodedSortOrder := atlas;
     (* the two swaps *)
     texEdgePtr := ptrNew;
     texScratchEdgePtr := texEdgePtr g;
     texEdgeStore := storeNew;
     texScratchEdgeStore := texEdgeStore g;
     texCoarseMap := coarse;
     texIdentity := identity |}.

(** The logical edges of an engine: for every edge index [e] below the
    edge count whose entry is not negative, the pair (PID of the slot
    owning [e] by the CSR pointers, PID of the target slot). *)
Definition ownerOf (g : engine F) (e : Z) : Z :=
  let below := filter (fun p => nth (Z.to_nat (p + 1)) (texEdgePtr g) 0 <=? e)
                      (range (particleCount g)) in
  Z.of_nat (length below).

Definition pidAt (g : engine F) (slot : Z) : Z :=
  pid (nth (Z.to_nat slot) (texIdMassTint g) zeroId).

Definition logicalEdges (g : engine F) : list (Z * Z) :=
  flat_map (fun e =>
              let t := nth (Z.to_nat e) (texEdgeStore g) 0 in
              if t <? 0 then []
              else [(pidAt g (ownerOf g e), pidAt g t)])
           (range (edgeCount g)).

End Run.
End GraphLayout.

(* ================================================================= *)
(** ** KPhysicsSimulation: one semi-implicit Euler step               *)
(* ================================================================= *)

Module KPhysicsSimulation.
Import Gl Particle.
Local Open Scope R_scope.

(** The kernel's floats are real numbers here.  The reals have no
    infinity and no NaN: where the shader divides by zero
    ([1.0 / sqrt(d2)] with [d2 <= 0], which takes [u_eps <= 0]) its
    outputs are not numbers and the functions below say nothing about
    them.  The properties of this kernel assume [0 < u_eps]. *)

(** [vec3] arithmetic. *)
Definition vadd (a b : vec3 R) : vec3 R :=
  Vec3 (vx a + vx b) (vy a + vy b) (vz a + vz b).
Definition vsub (a b : vec3 R) : vec3 R :=
  Vec3 (vx a - vx b) (vy a - vy b) (vz a - vz b).
Definition vscale (a : vec3 R) (s : R) : vec3 R :=
  Vec3 (vx a * s) (vy a * s) (vz a * s).
Definition dot (a b : vec3 R) : R := vx a * vx b + vy a * vy b + vz a * vz b.
Definition vzero : vec3 R := Vec3 0 0 0.

Definition zeroPos : positionAndSFC R := PosSFC vzero 0.
Definition zeroVel : velocity R := Vel vzero 0.
Definition zeroId : idMassTint R := IdMass 0%Z 0 0 0.

Definition ge0 (x : R) : bool := if Rge_dec x 0 then true else false.
Definition lt0 (x : R) : bool := if Rlt_dec x 0 then true else false.

(** [getSFCKey] *)
Definition getSFCKey (p : vec3 R) : R :=
  let l1 := Rabs (vx p) + Rabs (vy p) + Rabs (vz p) + 1e-20 in
  let ux := vx p / l1 in
  let uy := vy p / l1 in
  let '(ux, uy) :=
    if lt0 (vz p)
    then ((1 - Rabs uy) * (if ge0 ux then 1 else -1),
          (1 - Rabs ux) * (if ge0 uy then 1 else -1))
    else (ux, uy) in
  ux + uy * 2.0.

Section Kernel.
(** [#define]s and the constructor's parameters. *)
Variable WINDOW DATA_W PARTICLE_COUNT EDGE_STORE_W : Z.
(** uniforms *)
Variable uPos : list (positionAndSFC R).
Variable uVel : list (velocity R).
Variable uMass : list (idMassTint R).
Variable uEdgePtr uEdgeStore : list Z.
Variable u_dt u_G u_springK u_eps u_damping : R.

Definition fetchPos (i : Z) : positionAndSFC R :=
  texelFetch zeroPos DATA_W uPos (ivec2 (imod i DATA_W) (idiv i DATA_W)).

Definition fetchMass (i : Z) : R :=
  mass (texelFetch zeroId DATA_W uMass (ivec2 (imod i DATA_W) (idiv i DATA_W))).

Definition fetchNextEdgePtr (idx : Z) : Z :=
  let nextIdx := (idx + 1)%Z in
  texelFetch 0%Z DATA_W uEdgePtr
    (ivec2 (imod nextIdx DATA_W) (idiv nextIdx DATA_W)).

(** Body of the near-field loop, for one [i] in [-WINDOW .. WINDOW]. *)
Definition gravityStep (idx : Z) (p : vec3 R) (acc : vec3 R) (i : Z) : vec3 R :=
  if (i =? 0)%Z then acc
  else
    let t := (idx + i)%Z in
    if ((t <? 0) || (t >=? PARTICLE_COUNT))%Z then acc
    else
      let otherA := fetchPos t in
      let dp := vsub (xyz otherA) p in
      let d2 := dot dp dp + u_eps in
      let inv := 1.0 / sqrt d2 in
      let inv3 := inv * inv * inv in
      let GM := u_G * fetchMass t in
      vadd acc (vscale dp (GM * inv3)).

(** Body of the edge loop, for one edge index [e]. *)
Definition springStep (p : vec3 R) (acc : vec3 R) (e : Z) : vec3 R :=
  let storeCoord := ivec2 (imod e EDGE_STORE_W) (idiv e EDGE_STORE_W) in
  let targetPhys := texelFetch 0%Z EDGE_STORE_W uEdgeStore storeCoord in
  if (targetPhys >=? 0)%Z then
    let targetA := fetchPos targetPhys in
    vadd acc (vscale (vsub (xyz targetA) p) u_springK)
  else acc.

(** The three MRT outputs of one fragment. *)
Definition outputs : Type :=
  (positionAndSFC R * velocity R * idMassTint R)%type.

(** The fragment shader, for the point of index [vIdx]; [None] is
    [discard]. *)
Definition main (vIdx : Z) : option outputs :=
  let idx := vIdx in
  if (idx >=? PARTICLE_COUNT)%Z then None
  else
    let coord := ivec2 (imod idx DATA_W) (idiv idx DATA_W) in
    let posSFC := texelFetch zeroPos DATA_W uPos coord in
    let vel := texelFetch zeroVel DATA_W uVel coord in
    let idMass := texelFetch zeroId DATA_W uMass coord in
    let p := xyz posSFC in
    let v := Particle.vel vel in
    let acc := vzero in
    (* near-field gravity *)
    let acc :=
      fold_left (gravityStep idx p)
        (map (fun k => (k - WINDOW)%Z) (range (2 * WINDOW + 1))) acc in
    (* Laplacian edge pull *)
    let edgeStart := texelFetch 0%Z DATA_W uEdgePtr coord in
    let edgeEnd := fetchNextEdgePtr idx in
    let acc :=
      fold_left (springStep p)
        (map (fun k => (edgeStart + k)%Z) (range (edgeEnd - edgeStart))) acc in
    (* integration *)
    let v_next := vscale (vadd v (vscale acc u_dt)) (1.0 - u_damping) in
    let p_next := vadd p (vscale v_next u_dt) in
    Some (PosSFC p_next (getSFCKey p_next), Vel v_next (vel_w vel), idMass).

(** The vertex shader places point [a_idx] on the texel
    [(a_idx % DATA_W, a_idx / DATA_W)]. *)
Definition vertex {A : Type} (sel : outputs -> A) (a_idx : Z)
  : (Z * Z) * option A :=
  ((imod a_idx DATA_W, idiv a_idx DATA_W), option_map sel (main a_idx)).

End Kernel.

(** [run]: one point per particle, drawn into the three bound
    targets. *)
Definition run (particleCount particleDataWidth particleDataHeight
                  edgeStoreWidth gravityWindow : Z)
    (G springK eps damping : R)
    (out : KParticleReshuffle.targets R)
    (inParticlePositionAndSFC : list (positionAndSFC R))
    (inParticleVelocity : list (velocity R))
    (inIdMassTintEdgePtr : list (idMassTint R))
    (inTexEdgePtr inTexEdgeStore : list Z) (dt : R)
  : KParticleReshuffle.targets R :=
  let shade (A : Type) (sel : outputs -> A) :=
    vertex gravityWindow particleDataWidth particleCount edgeStoreWidth
      inParticlePositionAndSFC inParticleVelocity inIdMassTintEdgePtr
      inTexEdgePtr inTexEdgeStore dt G springK eps damping sel in
  {| KParticleReshuffle.outParticlePositionAndSFC :=
       drawPoints (KParticleReshuffle.outParticlePositionAndSFC out)
         particleDataWidth particleDataHeight particleCount
         (shade _ (fun o => fst (fst o)));
     KParticleReshuffle.outParticleVelocity :=
       drawPoints (KParticleReshuffle.outParticleVelocity out)
         particleDataWidth particleDataHeight particleCount
         (shade _ (fun o => snd (fst o)));
     KParticleReshuffle.outIdMassTintEdgePtr :=
       drawPoints (KParticleReshuffle.outIdMassTintEdgePtr out)
         particleDataWidth particleDataHeight particleCount
         (shade _ (fun o => snd o)) |}.

End KPhysicsSimulation.

(* ================================================================= *)
(** ** One tick: [GraphLayout.run]                                    *)
(* ================================================================= *)

Module Tick.
Import Gl Particle GraphLayout.
Local Open Scope R_scope.

(** The simulation parameters the orchestrator holds. *)
Record parameters : Type := {
  gravityWindow : Z;
  dt : R;
  G : R;
  springK : R;
  eps : R;
  damping : R
}.

(** [a > b] on SFC keys. *)
Definition gt (a b : R) : bool := if Rgt_dec a b then true else false.

Definition withScratch {F : Type} (g : engine F)
    (s : KParticleReshuffle.targets F) : engine F :=
  {| particleCount := particleCount g;
     edgeCount := edgeCount g;
     edgeCoarseMapStride := edgeCoarseMapStride g;
     sortSpanSize := sortSpanSize g;
     encodedSortOrderWidth := encodedSortOrderWidth g;
     encodedSortOrderHeight := encodedSortOrderHeight g;
     edgeStoreWidth := edgeStoreWidth g;
     edgeStoreHeight := edgeStoreHeight g;
     coarseWidth := coarseWidth g;
     coarseHeight := coarseHeight g;
     particleDataWidth := particleDataWidth g;
     particleDataHeight := particleDataHeight g;
     passCounter := passCounter g;
     frameCounter := frameCounter g;
     renderCount := renderCount g;
     texPositionAndSFC := texPositionAndSFC g;
     texScratchPositionAndSFC := KParticleReshuffle.outParticlePositionAndSFC s;
     texVelocity := texVelocity g;
     texScratchVelocity := KParticleReshuffle.outParticleVelocity s;
     texIdMassTint := texIdMassTint g;
     texScratchIdMassTint := KParticleReshuffle.outIdMassTintEdgePtr s;
     texEncodedSortOrder := texEncodedSortOrder g;
     texEdgePtr := texEdgePtr g;
     texScratchEdgePtr := texScratchEdgePtr g;
     texEdgeStore := texEdgeStore g;
     texScratchEdgeStore := texScratchEdgeStore g;
     texCoarseMap := texCoarseMap g;
     texIdentity := texIdentity g |}.

(** [kSentinel.run]: distinctive values in every scratch texel. *)
Definition sentinelPass (g : engine R) : KParticleReshuffle.targets R :=
  {| KParticleReshuffle.outParticlePositionAndSFC :=
       drawQuad (particleDataWidth g) (particleDataHeight g)
         (fun _ => PosSFC (Vec3 1001.0 1002.0 1003.0) 1004.0);
     KParticleReshuffle.outParticleVelocity :=
       drawQuad (particleDataWidth g) (particleDataHeight g)
         (fun _ => Vel (Vec3 2001.0 2002.0 2003.0) 2004.0);
     KParticleReshuffle.outIdMassTintEdgePtr :=
       drawQuad (particleDataWidth g) (particleDataHeight g)
         (fun _ => IdMass 3001%Z 3002.0 3003.0 4001.0) |}.

(** [kPhysics.run]: current state in, scratch out. *)
Definition physicsPass (q : parameters) (g : engine R)
  : KParticleReshuffle.targets R :=
  KPhysicsSimulation.run (particleCount g) (particleDataWidth g)
    (particleDataHeight g) (edgeStoreWidth g) (gravityWindow q)
    (G q) (springK q) (eps q) (damping q)
    (sentinelPass g)
    (texPositionAndSFC g) (texVelocity g) (texIdMassTint g)
    (texEdgePtr g) (texEdgeStore g) (dt q).

(** [run()], on a platform whose undefined [uint] conversions give
    [undefinedUint]. *)
Definition run (undefinedUint : Z -> Z) (q : parameters) (g : engine R)
  : engine R :=
  relayout gt 1.0e37 KPhysicsSimulation.zeroPos KPhysicsSimulation.zeroVel
    KPhysicsSimulation.zeroId undefinedUint (withScratch g (physicsPass q g)).

End Tick.

(* ================================================================= *)
(** * Properties                                                      *)
(* ================================================================= *)

Module LayoutFacts.
Import Layout.

Lemma GraphLayout_accepted (o : options) (e : engine) :
  GraphLayout o = inr e -> accepted o = true.
Proof.
  unfold GraphLayout, accepted.
  destruct (ext_color_buffer_float o), (texPosition o), (texVelocity o),
    (texIdMassTint o), (texEdgePtr o), (texEdgeStore o); simpl; congruence.
Qed.

Lemma GraphLayout_fields (o : options) (e : engine) :
  GraphLayout o = inr e ->
  this_edgeCoarseMapStride e = js_or (edgeCoarseMapStride o) (Num 128)
  /\ this_gravityWindow e = js_or (gravityWindow o) (Num 16)
  /\ this_dt e = js_or (dt o) (Num 0.016)
  /\ this_G e = js_defined_or (G o) (Num (-0.0001))
  /\ this_springK e = js_defined_or (springK o) (Num 1.0)
  /\ this_eps e = js_defined_or (eps o) (Num 0.1)
  /\ this_damping e = Num 0.002
  /\ this_sfcResolution e = js_or (sfcResolution o) (Num 64.0).
Proof.
  unfold GraphLayout.
  destruct (negb (ext_color_buffer_float o)); [discriminate|].
  destruct (_ || _); [discriminate|].
  intros H; injection H as <-; simpl; repeat split.
Qed.

Lemma js_or_zero (q : Q) (d : number) : (q == 0)%Q -> js_or (Some (Num q)) d = d.
Proof.
  intros Hq. unfold js_or, truthy.
  apply Qeq_bool_iff in Hq. now rewrite Hq.
Qed.

Lemma js_or_truthy (x d : number) : truthy (Some x) = true -> js_or (Some x) d = x.
Proof. intros H. unfold js_or. now rewrite H. Qed.

(** C10.  The constructor defaults [dt], [gravityWindow],
    [edgeCoarseMapStride] and [sfcResolution] with [||]: passing a zero
    for any of them yields the default (a [dt] of 0 gives 0.016).  [G],
    [springK] and [eps] are compared against [undefined]: whatever is
    passed for them, zero included, is kept. *)
Theorem C10_or_defaults_swallow_zero (o : options) (e : engine) :
  GraphLayout o = inr e ->
  (forall q, dt o = Some (Num q) -> (q == 0)%Q -> this_dt e = Num 0.016)
  /\ (forall q, gravityWindow o = Some (Num q) -> (q == 0)%Q ->
        this_gravityWindow e = Num 16)
  /\ (forall q, edgeCoarseMapStride o = Some (Num q) -> (q == 0)%Q ->
        this_edgeCoarseMapStride e = Num 128)
  /\ (forall q, sfcResolution o = Some (Num q) -> (q == 0)%Q ->
        this_sfcResolution e = Num 64.0)
  /\ (forall x, G o = Some x -> this_G e = x)
  /\ (forall x, springK o = Some x -> this_springK e = x)
  /\ (forall x, eps o = Some x -> this_eps e = x).
Proof.
  intros H.
  destruct (GraphLayout_fields o H) as (Hs & Hw & Hd & HG & Hk & He & _ & Hr).
  rewrite Hs, Hw, Hd, HG, Hk, He, Hr.
  repeat split; intros x Hx; try intros Hz; rewrite Hx;
    solve [ now apply js_or_zero | reflexivity ].
Qed.

Lemma C10_witness :
  exists e, GraphLayout (all_supplied 3 0 (Num 0)) = inr e
    /\ this_dt e = Num 0.016 /\ this_gravityWindow e = Num 16
    /\ this_edgeCoarseMapStride e = Num 128 /\ this_sfcResolution e = Num 64.0
    /\ this_G e = Num 0 /\ this_springK e = Num 0 /\ this_eps e = Num 0.
Proof.
  eexists; split; [reflexivity|].
  destruct (@C10_or_defaults_swallow_zero (all_supplied 3 0 (Num 0)) _ eq_refl)
    as (Hd & Hw & Hs & Hr & HG & Hk & He).
  refine (conj (Hd 0%Q _ _) (conj (Hw 0%Q _ _) (conj (Hs 0%Q _ _)
            (conj (Hr 0%Q _ _) (conj (HG _ _) (conj (Hk _ _) (He _ _)))))));
    reflexivity.
Defined.

(** Options as an application passes them: every optional parameter
    supplied with a value the kernels accept (the gravity window is
    pasted into the physics shader as the bound of an [int] loop, so it
    is an integer), and a [damping] on top. *)
Definition tuned (n e : Z) : options := {|
  ext_color_buffer_float := true;
  particleCount := n; edgeCount := e;
  texPosition := true; texVelocity := true; texIdMassTint := true;
  texEdgePtr := true; texEdgeStore := true;
  edgeCoarseMapStride := Some (Num 64); gravityWindow := Some (Num 8);
  dt := Some (Num 0.01);
  G := Some (Num (-0.001)); springK := Some (Num 2); eps := Some (Num 0.05);
  damping := Some (Num 0.5);
  sfcResolution := Some (Num 32)
|}.

(** C9 as stated fails for [damping]: a supplied damping of 0.5 does not
    reach the engine, which holds 0.002. *)
Lemma C9_supplied_damping_ignored :
  exists e, GraphLayout (tuned 3 2) = inr e
    /\ damping (tuned 3 2) = Some (Num 0.5)
    /\ this_damping e = Num 0.002
    /\ this_damping e <> Num 0.5.
Proof.
  eexists; split; [reflexivity|]. simpl. repeat split. discriminate.
Qed.

(** C9, amended.  The constructor reads the optional parameters
    [edgeCoarseMapStride], [gravityWindow], [dt], [G], [springK], [eps]
    and [sfcResolution] and applies the defaults 128, 16, 0.016, -0.0001,
    1.0, 0.1 and 64.0 when one is omitted.  [damping] is not read: the
    engine's damping is 0.002 whatever is supplied.  A supplied [G],
    [springK] or [eps] always overrides; a supplied [edgeCoarseMapStride],
    [gravityWindow], [dt] or [sfcResolution] overrides when it is truthy. *)
Theorem C9_defaults_and_overrides (o : options) (e : engine) :
  GraphLayout o = inr e ->
  ((edgeCoarseMapStride o = None -> this_edgeCoarseMapStride e = Num 128)
   /\ (gravityWindow o = None -> this_gravityWindow e = Num 16)
   /\ (dt o = None -> this_dt e = Num 0.016)
   /\ (G o = None -> this_G e = Num (-0.0001))
   /\ (springK o = None -> this_springK e = Num 1.0)
   /\ (eps o = None -> this_eps e = Num 0.1)
   /\ (sfcResolution o = None -> this_sfcResolution e = Num 64.0))
  /\ this_damping e = Num 0.002
  /\ ((forall x, G o = Some x -> this_G e = x)
      /\ (forall x, springK o = Some x -> this_springK e = x)
      /\ (forall x, eps o = Some x -> this_eps e = x))
  /\ ((forall x, edgeCoarseMapStride o = Some x -> truthy (Some x) = true ->
         this_edgeCoarseMapStride e = x)
      /\ (forall x, gravityWindow o = Some x -> truthy (Some x) = true ->
         this_gravityWindow e = x)
      /\ (forall x, dt o = Some x -> truthy (Some x) = true -> this_dt e = x)
      /\ (forall x, sfcResolution o = Some x -> truthy (Some x) = true ->
         this_sfcResolution e = x)).
Proof.
  intros H.
  destruct (GraphLayout_fields o H) as (Hs & Hw & Hd & HG & Hk & He & Hdamp & Hr).
  rewrite Hs, Hw, Hd, HG, Hk, He, Hr.
  repeat split; try assumption;
    try (intros Hx; rewrite Hx; reflexivity);
    try (intros x Hx; rewrite Hx; try reflexivity; intros Ht;
         now apply js_or_truthy).
Qed.

Lemma C9_witness :
  exists e, GraphLayout (tuned 3 2) = inr e
    /\ this_damping e = Num 0.002
    /\ this_G e = Num (-0.001) /\ this_dt e = Num 0.01
    /\ this_gravityWindow e = Num 8.
Proof.
  eexists; split; [reflexivity|].
  destruct (@C9_defaults_and_overrides (tuned 3 2) _ eq_refl)
    as (_ & Hdamp & (HG & _) & (_ & Hw & Hd & _)).
  refine (conj Hdamp (conj (HG _ _) (conj (Hd _ _ _) (Hw _ _ _))));
    reflexivity.
Defined.

End LayoutFacts.

(* ================================================================= *)
(** ** Arrays, ranges and draws                                       *)
(* ================================================================= *)

Module GlFacts.
Import Gl.
Local Open Scope Z_scope.

Lemma nth_map_in {A B} (f : A -> B) (l : list A) (k : nat) (d : B) (d0 : A) :
  (k < length l)%nat -> nth k (map f l) d = f (nth k l d0).
Proof.
  intros Hk. rewrite nth_indep with (d' := f d0) by (now rewrite length_map).
  apply map_nth.
Qed.

Lemma length_range (n : Z) : length (range n) = Z.to_nat n.
Proof. unfold range. now rewrite length_map, length_seq. Qed.

Lemma nth_range (n i d : Z) : 0 <= i < n -> nth (Z.to_nat i) (range n) d = i.
Proof.
  intros Hi. unfold range.
  rewrite nth_map_in with (d0 := O) by (rewrite length_seq; lia).
  rewrite seq_nth by lia. lia.
Qed.

Lemma in_range (n i : Z) : In i (range n) <-> 0 <= i < n.
Proof.
  unfold range. rewrite in_map_iff. split.
  - intros (k & <- & Hk). apply in_seq in Hk. lia.
  - intros Hi. exists (Z.to_nat i). rewrite in_seq. lia.
Qed.

Lemma range_succ (n : Z) : 0 <= n -> range (n + 1) = range n ++ [n].
Proof.
  intros Hn. unfold range.
  replace (Z.to_nat (n + 1)) with (S (Z.to_nat n)) by lia.
  rewrite seq_S, map_app. simpl. f_equal. f_equal. lia.
Qed.

Lemma range_nonpos (n : Z) : n <= 0 -> range n = [].
Proof. intros Hn. unfold range. now replace (Z.to_nat n) with O by lia. Qed.

Lemma NoDup_range (n : Z) : NoDup (range n).
Proof.
  unfold range. apply Injective_map_NoDup.
  - intros a b. lia.
  - apply seq_NoDup.
Qed.

Lemma uint_small (x : Z) : 0 <= x < 4294967296 -> uint x = x.
Proof. intros Hx. unfold uint. now apply Z.mod_small. Qed.

Lemma uint_range (x : Z) : 0 <= uint x < 4294967296.
Proof. unfold uint. apply Z.mod_pos_bound. lia. Qed.

Lemma idiv_div (a b : Z) : 0 <= a -> 0 < b -> idiv a b = a / b.
Proof. intros. unfold idiv. apply Z.quot_div_nonneg; lia. Qed.

Lemma imod_mod (a b : Z) : 0 <= a -> 0 < b -> imod a b = a mod b.
Proof. intros. unfold imod. apply Z.rem_mod_nonneg; lia. Qed.

(** ** [upd] *)

Lemma length_upd {A} (l : list A) (i : nat) (v : A) : length (upd l i v) = length l.
Proof.
  revert i; induction l as [|h t IH]; intros [|i]; simpl; auto.
Qed.

Lemma nth_upd_eq {A} (l : list A) (i : nat) (v d : A) :
  (i < length l)%nat -> nth i (upd l i v) d = v.
Proof.
  revert i; induction l as [|h t IH]; intros [|i]; simpl; intros H; try lia; auto.
  apply IH; lia.
Qed.

Lemma nth_upd_neq {A} (l : list A) (i j : nat) (v d : A) :
  i <> j -> nth j (upd l i v) d = nth j l d.
Proof.
  revert i j; induction l as [|h t IH]; intros [|i] [|j]; simpl; intros H;
    try reflexivity; try lia.
  apply IH; lia.
Qed.

Lemma nth_upd {A} (l : list A) (i j : nat) (v d : A) :
  nth j (upd l i v) d =
  if (Nat.eqb i j && Nat.ltb i (length l))%bool then v else nth j l d.
Proof.
  destruct (Nat.eqb_spec i j) as [->|Hne]; simpl.
  - destruct (Nat.ltb_spec j (length l)).
    + now apply nth_upd_eq.
    + rewrite !nth_overflow; auto. now rewrite length_upd.
  - now apply nth_upd_neq.
Qed.

(** ** Texel addressing *)

Lemma texelFetch_linear {A} (zero : A) (W : Z) (t : list A) (i : Z) :
  0 < W -> 0 <= i ->
  texelFetch zero W t (ivec2 (i mod W) (i / W)) = nth (Z.to_nat i) t zero.
Proof.
  intros HW Hi. unfold texelFetch, ivec2.
  pose proof (Z.mod_pos_bound i W HW).
  pose proof (Z.div_pos i W Hi HW).
  replace ((0 <=? i mod W) && (i mod W <? W) && (0 <=? i / W)) with true
    by (symmetry; rewrite !andb_true_iff; repeat split; lia).
  f_equal. f_equal. rewrite (Z.div_mod i W) at 3 by lia. lia.
Qed.

Lemma texelFetch_frag {A} (zero : A) (W : Z) (t : list A) (i : Z) :
  0 < W -> 0 <= i ->
  texelFetch zero W t (i mod W, i / W) = nth (Z.to_nat i) t zero.
Proof. apply texelFetch_linear. Qed.

Lemma texelFetch_glsl {A} (zero : A) (W : Z) (t : list A) (i : Z) :
  0 < W -> 0 <= i ->
  texelFetch zero W t (ivec2 (imod i W) (idiv i W)) = nth (Z.to_nat i) t zero.
Proof.
  intros HW Hi. rewrite imod_mod, idiv_div by lia. now apply texelFetch_linear.
Qed.

Lemma length_fragments (W H : Z) : length (fragments W H) = Z.to_nat (W * H).
Proof. unfold fragments. now rewrite length_map, length_seq. Qed.

Lemma nth_fragments (W H i : Z) (d : Z * Z) :
  0 <= i < W * H -> nth (Z.to_nat i) (fragments W H) d = (i mod W, i / W).
Proof.
  intros Hi. unfold fragments.
  rewrite nth_map_in with (d0 := O) by (rewrite length_seq; lia).
  rewrite seq_nth by lia. simpl. now rewrite Z2Nat.id by lia.
Qed.

Lemma length_drawQuad {A} (W H : Z) (main : Z * Z -> A) :
  length (drawQuad W H main) = Z.to_nat (W * H).
Proof. unfold drawQuad. now rewrite length_map, length_fragments. Qed.

(** A full-screen draw computes texel [i] from the fragment
    [(i mod W, i / W)], whose linear index is [i] again. *)
Lemma nth_drawQuad {A} (W H : Z) (main : Z * Z -> A) (i : Z) (d : A) :
  0 <= i < W * H ->
  nth (Z.to_nat i) (drawQuad W H main) d = main (i mod W, i / W).
Proof.
  intros Hi. unfold drawQuad.
  rewrite nth_map_in with (d0 := (0, 0)) by (rewrite length_fragments; lia).
  now rewrite nth_fragments.
Qed.

Lemma frag_linear (W i : Z) : 0 < W -> i / W * W + i mod W = i.
Proof. intros HW. rewrite (Z.div_mod i W) at 3 by lia. lia. Qed.

Lemma viewport_width_pos (W H i : Z) : 0 <= i < W * H -> 0 <= W -> 0 < W.
Proof. intros Hi HW. destruct (Z.eq_dec W 0); [subst; lia | lia]. Qed.

Lemma length_drawQuadOver {A} (zero : A) old (W H : Z) (main : Z * Z -> option A) :
  length (drawQuadOver zero old W H main) = Z.to_nat (W * H).
Proof. unfold drawQuadOver. now rewrite length_map, length_fragments. Qed.

Lemma nth_drawQuadOver {A} (zero : A) old (W H : Z) (main : Z * Z -> option A)
    (i : Z) (d : A) :
  0 <= i < W * H ->
  nth (Z.to_nat i) (drawQuadOver zero old W H main) d =
  match main (i mod W, i / W) with
  | Some v => v
  | None => texelFetch zero W old (i mod W, i / W)
  end.
Proof.
  intros Hi. unfold drawQuadOver.
  rewrite nth_map_in with (d0 := (0, 0)) by (rewrite length_fragments; lia).
  now rewrite nth_fragments.
Qed.

Lemma length_clear {A} (W H : Z) (v : A) : length (clear W H v) = Z.to_nat (W * H).
Proof. unfold clear. apply repeat_length. Qed.

Lemma nth_clear {A} (W H : Z) (v d : A) (i : nat) :
  (i < Z.to_nat (W * H))%nat -> nth i (clear W H v) d = v.
Proof.
  intros Hi. unfold clear. rewrite nth_repeat_lt; auto.
Qed.

End GlFacts.

(* ================================================================= *)
(** ** Floats that hold integers: where the arithmetic is exact       *)
(* ================================================================= *)

Module FloatFacts.
Import Gl GlFacts.
Local Open Scope Z_scope.

(** From [2^24] on, odd integers are no floats; from [2^23] on,
    [floor(x + 0.5)] moves an odd integer to the next even one; the
    literal [1.0e15] is the float 999999986991104. *)
Lemma round24_examples :
  round24 16777217 = 16777216 /\ round24 16777219 = 16777220
  /\ fsub 16777218 1 = 16777216 /\ floorHalf 8388609 = 8388610
  /\ floorHalf 8388608 = 8388608 /\ floorHalf (-1) = -1
  /\ round24 1000000000000000 = 999999986991104.
Proof. vm_compute. repeat split. Qed.

(** Integers below [2^24] in size are floats. *)
Lemma round24_small (x : Z) : - 16777216 < x < 16777216 -> round24 x = x.
Proof.
  intros Hx. unfold round24.
  destruct (Z.ltb_spec (Z.log2 (Z.abs x)) 24) as [_|Hge]; [reflexivity|].
  exfalso.
  destruct (Z.eq_dec (Z.abs x) 0) as [H0|H0].
  - rewrite H0 in Hge. cbn in Hge. lia.
  - assert (Hpos : 0 < Z.abs x) by lia.
    pose proof (proj1 (Z.log2_lt_pow2 (Z.abs x) 24 Hpos)) as Hl.
    change (2 ^ 24) with 16777216 in Hl. lia.
Qed.

Lemma float_small (i : Z) : - 16777216 < i < 16777216 -> float i = i.
Proof. apply round24_small. Qed.

Lemma fadd_small (a b : Z) :
  - 16777216 < a + b < 16777216 -> fadd a b = a + b.
Proof. apply round24_small. Qed.

Lemma fsub_small (a b : Z) :
  - 16777216 < a - b < 16777216 -> fsub a b = a - b.
Proof. apply round24_small. Qed.

Lemma fmul_small (a b : Z) :
  - 16777216 < a * b < 16777216 -> fmul a b = a * b.
Proof. apply round24_small. Qed.

(** [floor(x + 0.5)] reads back an integer below [2^23] in size. *)
Lemma floorHalf_small (x : Z) : - 8388608 <= x < 8388608 -> floorHalf x = x.
Proof.
  intros Hx. unfold floorHalf. rewrite round24_small by lia.
  symmetry. apply Z.div_unique with (r := 1); lia.
Qed.

Lemma roundEven_bounds (n d : Z) :
  0 < d -> n / d <= roundEven n d <= n / d + 1.
Proof.
  intros Hd. unfold roundEven.
  destruct (2 * (n mod d) <? d); [lia|].
  destruct (d <? 2 * (n mod d)); [lia|].
  destruct (Z.even (n / d)); lia.
Qed.

Lemma roundEven_exact (n d : Z) : 0 < d -> n mod d = 0 -> roundEven n d = n / d.
Proof.
  intros Hd Hr. unfold roundEven. rewrite Hr.
  destruct (Z.ltb_spec (2 * 0) d); [reflexivity|lia].
Qed.

Lemma roundEven_mono (n n' d : Z) :
  0 < d -> n <= n' -> roundEven n d <= roundEven n' d.
Proof.
  intros Hd Hn.
  pose proof (Z.div_le_mono n n' d Hd Hn) as Hq.
  destruct (Z.eq_dec (n / d) (n' / d)) as [Heq|Hne].
  - pose proof (Z.div_mod n d ltac:(lia)) as E1.
    pose proof (Z.div_mod n' d ltac:(lia)) as E2.
    assert (Hr : n mod d <= n' mod d) by (rewrite Heq in E1; nia).
    unfold roundEven. rewrite Heq.
    destruct (Z.ltb_spec (2 * (n mod d)) d), (Z.ltb_spec (2 * (n' mod d)) d),
             (Z.ltb_spec d (2 * (n mod d))), (Z.ltb_spec d (2 * (n' mod d)));
      try lia; destruct (Z.even (n' / d)); lia.
  - pose proof (roundEven_bounds n Hd). pose proof (roundEven_bounds n' Hd). lia.
Qed.

(** A significand of at most 24 bits, scaled by a power of two, is a
    float. *)
Lemma round24_scaled (m k : Z) :
  0 <= m < 16777216 -> 0 <= k -> round24 (m * 2 ^ k) = m * 2 ^ k.
Proof.
  intros Hm Hk. unfold round24.
  destruct (Z.ltb_spec (Z.log2 (Z.abs (m * 2 ^ k))) 24) as [_|Hge];
    [reflexivity|].
  assert (Hp : 0 < 2 ^ k) by (apply Z.pow_pos_nonneg; lia).
  destruct (Z.eq_dec m 0) as [->|Hm0].
  { rewrite Z.mul_0_l in Hge. cbn in Hge. lia. }
  rewrite Z.abs_eq in * by nia.
  rewrite Z.log2_mul_pow2 in * by lia.
  assert (Hl : Z.log2 m < 24).
  { apply Z.log2_lt_pow2; [lia|]. change (2 ^ 24) with 16777216. lia. }
  pose proof (Z.log2_nonneg m) as Hl0.
  set (j := k + Z.log2 m - 23) in *.
  assert (Hj : 0 <= j <= k) by lia.
  assert (Hsplit : m * 2 ^ k = (m * 2 ^ (k - j)) * 2 ^ j).
  { rewrite <- Z.mul_assoc, <- Z.pow_add_r by lia. f_equal. f_equal. lia. }
  assert (Hpj : 0 < 2 ^ j) by (apply Z.pow_pos_nonneg; lia).
  rewrite roundEven_exact.
  - rewrite Hsplit at 1. rewrite Z.div_mul by lia. symmetry. exact Hsplit.
  - exact Hpj.
  - rewrite Hsplit. apply Z.mod_mul. lia.
Qed.

Lemma round24_mono (x y : Z) : 0 <= x <= y -> round24 x <= round24 y.
Proof.
  intros Hxy. unfold round24.
  rewrite !Z.abs_eq by lia.
  pose proof (Z.log2_le_mono x y ltac:(lia)) as Hl.
  destruct (Z.ltb_spec (Z.log2 y) 24) as [Hy|Hy].
  - destruct (Z.ltb_spec (Z.log2 x) 24); lia.
  - assert (Hy0 : 0 < y).
    { destruct (Z.eq_dec y 0) as [->|]; [cbn in Hy; lia|lia]. }
    pose proof (Z.log2_spec y Hy0) as [Hylo Hyhi].
    set (ey := Z.log2 y) in *.
    assert (Hpu : 0 < 2 ^ (ey - 23)) by (apply Z.pow_pos_nonneg; lia).
    assert (Hey : 2 ^ ey = 8388608 * 2 ^ (ey - 23)).
    { change 8388608 with (2 ^ 23). rewrite <- Z.pow_add_r by lia.
      f_equal. lia. }
    assert (Hylow : 2 ^ ey <= roundEven y (2 ^ (ey - 23)) * 2 ^ (ey - 23)).
    { pose proof (roundEven_bounds y Hpu) as [Hb _].
      assert (8388608 <= y / 2 ^ (ey - 23)).
      { apply Z.div_le_lower_bound; lia. }
      nia. }
    destruct (Z.ltb_spec (Z.log2 x) 24) as [Hx|Hx].
    + destruct (Z.eq_dec x 0) as [->|Hx0]; [lia|].
      assert (x < 2 ^ 24) by (apply Z.log2_lt_pow2; lia).
      assert (2 ^ 24 <= 2 ^ ey) by (apply Z.pow_le_mono_r; lia).
      lia.
    + assert (Hx0 : 0 < x).
      { destruct (Z.eq_dec x 0) as [->|]; [cbn in Hx; lia|lia]. }
      pose proof (Z.log2_spec x Hx0) as [Hxlo Hxhi].
      set (ex := Z.log2 x) in *.
      destruct (Z.eq_dec ex ey) as [Heq|Hne].
      * rewrite Heq.
        pose proof (@roundEven_mono x y (2 ^ (ey - 23)) Hpu ltac:(lia)).
        nia.
      * assert (Hpx : 0 < 2 ^ (ex - 23)) by (apply Z.pow_pos_nonneg; lia).
        assert (Hex : 2 ^ Z.succ ex = 16777216 * 2 ^ (ex - 23)).
        { change 16777216 with (2 ^ 24). rewrite <- Z.pow_add_r by lia.
          f_equal. lia. }
        pose proof (roundEven_bounds x Hpx) as [_ Hb].
        assert (x / 2 ^ (ex - 23) < 16777216).
        { apply Z.div_lt_upper_bound; lia. }
        assert (2 ^ Z.succ ex <= 2 ^ ey) by (apply Z.pow_le_mono_r; lia).
        nia.
Qed.

Lemma gap_wide (n d c g Q : Z) :
  0 <= n < 8388608 -> 0 < c -> 1 <= g -> 0 < Q ->
  8388608 <= c * Q -> c * d - n = g -> d <= g * Q.
Proof.
  intros Hn Hc Hg HQ HcQ Hgd.
  destruct (Z_lt_ge_dec (g * Q) d) as [Hlt|]; [exfalso|lia].
  assert (H1 : g * 8388608 <= g * (c * Q))
    by (apply Z.mul_le_mono_nonneg_l; lia).
  assert (H2 : c * (g * Q) <= c * (d - 1))
    by (apply Z.mul_le_mono_nonneg_l; lia).
  assert (H3 : g * (c * Q) = c * (g * Q)) by ring.
  assert (H4 : c * (d - 1) = n + g - c) by lia.
  lia.
Qed.

Lemma sticky_below (n d c t g P R Q r : Z) :
  0 < d -> 0 < R -> R * Q = P -> d <= g * Q ->
  c * d - n = g -> n * P = d * t + r -> 0 <= r ->
  (r = 0 -> R <= c * P - t) /\ (0 < r -> R < c * P - t).
Proof.
  intros Hd HR HRQ HgQ Hg Ht Hr.
  assert (Hd1 : d * (c * P - t) = g * P + r).
  { replace (d * (c * P - t)) with ((c * d) * P - d * t) by ring.
    replace (c * d) with (n + g) by lia. lia. }
  assert (HgP : d * R <= g * P).
  { rewrite <- HRQ. replace (g * (R * Q)) with ((g * Q) * R) by ring.
    apply Z.mul_le_mono_nonneg_r; lia. }
  split; intros Hr'.
  - apply Z.mul_le_mono_pos_l with (p := d); lia.
  - apply Z.mul_lt_mono_pos_l with (p := d); lia.
Qed.

(** The float quotient of an integer below [2^23] floors to the integer
    quotient. *)
Lemma floorDiv_small (n d : Z) :
  0 <= n < 8388608 -> 0 < d -> floorDiv n d = n / d.
Proof.
  intros Hn Hd. unfold floorDiv.
  pose proof (Z.log2_spec d Hd) as [Hdlo Hdhi].
  pose proof (Z.log2_nonneg d) as Hl0.
  set (K := Z.log2 d + 26).
  set (P := 2 ^ K).
  assert (HP : 0 < P) by (apply Z.pow_pos_nonneg; lia).
  assert (HP2 : 2 ^ (K + 1) = 2 * P).
  { unfold P. rewrite Z.pow_add_r by lia. lia. }
  set (t := n * P / d).
  set (s := if (n * P) mod d =? 0 then 0 else 1).
  set (qq := n / d).
  set (c := qq + 1).
  pose proof (Z.div_mod n d ltac:(lia)) as Hdm.
  pose proof (Z.mod_pos_bound n d Hd) as Hmb.
  fold qq in Hdm.
  assert (Hqq : 0 <= qq) by (apply Z.div_pos; lia).
  assert (Hqqd : d * qq <= n) by lia.
  assert (Hqq_small : qq < 8388608).
  { apply Z.le_lt_trans with (m := n); [|lia].
    apply Z.le_trans with (m := d * qq); [|lia].
    replace qq with (1 * qq) at 1 by ring.
    apply Z.mul_le_mono_nonneg_r; lia. }
  pose proof (Z.div_mod (n * P) d ltac:(lia)) as Htm.
  pose proof (Z.mod_pos_bound (n * P) d Hd) as Htb.
  fold t in Htm.
  (* the bracket qq * 2P <= X <= Y < (qq + 1) * 2P *)
  assert (Hlow : qq * (2 * P) <= 2 * t + s).
  { assert (qq * P <= t).
    { unfold t. apply Z.div_le_lower_bound; [lia|].
      replace (d * (qq * P)) with ((d * qq) * P) by ring.
      apply Z.mul_le_mono_nonneg_r; lia. }
    unfold s. destruct (_ =? 0); lia. }
  assert (Hc : 0 < c <= 8388608) by (unfold c; lia).
  pose proof (Z.log2_spec c ltac:(lia)) as [Hclo Hchi].
  pose proof (Z.log2_nonneg c) as Hlc0.
  assert (Hlc : Z.log2 c <= 23).
  { assert (Z.log2 c < 24); [|lia].
    apply Z.log2_lt_pow2; [lia|]. change (2 ^ 24) with 16777216. lia. }
  set (f := 23 - Z.log2 c).
  assert (Hf : 0 <= f <= 23) by (unfold f; lia).
  set (Q := 2 ^ f).
  assert (HQ : 0 < Q) by (apply Z.pow_pos_nonneg; lia).
  assert (HcQ : 8388608 <= c * Q < 16777216).
  { assert (E1 : 2 ^ Z.log2 c * Q = 8388608).
    { unfold Q, f. rewrite <- Z.pow_add_r by lia.
      replace (Z.log2 c + (23 - Z.log2 c)) with 23 by lia. reflexivity. }
    assert (E2 : 2 ^ Z.succ (Z.log2 c) * Q = 16777216).
    { unfold Q, f. rewrite <- Z.pow_add_r by lia.
      replace (Z.succ (Z.log2 c) + (23 - Z.log2 c)) with 24 by lia.
      reflexivity. }
    split.
    - rewrite <- E1. apply Z.mul_le_mono_nonneg_r; lia.
    - rewrite <- E2. apply Z.mul_lt_mono_pos_r; lia. }
  set (R := 2 ^ (K - f)).
  assert (HR : 0 < R) by (apply Z.pow_pos_nonneg; lia).
  assert (HRQ : R * Q = P).
  { unfold R, Q, P. rewrite <- Z.pow_add_r by lia. f_equal. lia. }
  set (g := c * d - n).
  assert (Hg : 1 <= g).
  { unfold g, c. replace ((qq + 1) * d) with (d * qq + d) by ring. lia. }
  assert (HgQ : d <= g * Q).
  { apply gap_wide with (n := n) (c := c); lia. }
  set (Y := (c * Q - 1) * (2 * R)).
  assert (HY : Y = c * (2 * P) - 2 * R).
  { unfold Y. rewrite <- HRQ. ring. }
  assert (Hup : 2 * t + s <= Y).
  { rewrite HY.
    destruct (@sticky_below n d c t g P R Q ((n * P) mod d) Hd HR HRQ HgQ
                eq_refl Htm ltac:(lia)) as [S0 S1].
    unfold s. destruct (Z.eqb_spec ((n * P) mod d) 0) as [Hz|Hnz].
    - specialize (S0 Hz). lia.
    - specialize (S1 ltac:(lia)). lia. }
  assert (Hfix1 : round24 (qq * (2 * P)) = qq * (2 * P)).
  { rewrite <- HP2. apply round24_scaled; lia. }
  assert (Hfix2 : round24 Y = Y).
  { unfold Y. replace (2 * R) with (2 ^ (K - f + 1)).
    - apply round24_scaled; lia.
    - unfold R. rewrite Z.pow_add_r by lia. lia. }
  assert (H0X : 0 <= qq * (2 * P)) by (apply Z.mul_nonneg_nonneg; lia).
  pose proof (@round24_mono (qq * (2 * P)) (2 * t + s) ltac:(lia)) as M1.
  pose proof (@round24_mono (2 * t + s) Y ltac:(lia)) as M2.
  rewrite Hfix1 in M1. rewrite Hfix2 in M2.
  rewrite HP2.
  symmetry. apply Z.div_unique with (r := round24 (2 * t + s) - qq * (2 * P)).
  - left. rewrite HY in M2. unfold c in M2.
    replace ((qq + 1) * (2 * P)) with (qq * (2 * P) + 2 * P) in M2 by ring.
    lia.
  - ring.
Qed.

(** Hence [mod(x, y)] is the integer remainder there. *)
Lemma fmod_small (n d : Z) :
  0 <= n < 8388608 -> 0 < d -> fmod n d = n mod d.
Proof.
  intros Hn Hd. unfold fmod. rewrite floorDiv_small by assumption.
  pose proof (Z.div_mod n d ltac:(lia)) as Hdm.
  pose proof (Z.mod_pos_bound n d Hd) as Hmb.
  assert (0 <= n / d) by (apply Z.div_pos; lia).
  assert (0 <= d * (n / d) <= n) by nia.
  rewrite fmul_small by lia. rewrite fsub_small by lia. lia.
Qed.

(** A conversion to [uint] that is defined. *)
Lemma floatToUint_defined (u : Z -> Z) (x : Z) :
  0 <= x < 4294967296 -> floatToUint u x = x.
Proof.
  intros Hx. unfold floatToUint.
  destruct (Z.leb_spec 0 x), (Z.ltb_spec x 4294967296); cbn; lia || reflexivity.
Qed.

Lemma floatToUint_range (u : Z -> Z) (x : Z) :
  0 <= floatToUint u x < 4294967296.
Proof.
  unfold floatToUint.
  destruct (Z.leb_spec 0 x), (Z.ltb_spec x 4294967296); cbn;
    try lia; apply uint_range.
Qed.

End FloatFacts.

(* ================================================================= *)
(** ** The coarse map's bisection                                     *)
(* ================================================================= *)

Module CoarseMapFacts.
Import Gl GlFacts FloatFacts KEdgeCoarseMap.
Local Open Scope Z_scope.

Section Bisection.
Variable texEdgePtr : list Z.
Variable particleDataWidth stride particleCount coarseWidth : Z.

Let ptr (i : Z) : Z := nth (Z.to_nat i) texEdgePtr 0.
Let start : Z -> Z := getStart texEdgePtr particleDataWidth particleCount.

Hypothesis width_pos : 0 < particleDataWidth.
Hypothesis ptr_mono :
  forall i j, 0 <= i <= j -> j < particleCount -> ptr i <= ptr j.

Lemma start_in_range (i : Z) : 0 <= i < particleCount -> start i = ptr i.
Proof.
  intros Hi. unfold start, getStart.
  destruct (Z.geb_spec i particleCount); [lia|].
  now apply texelFetch_glsl.
Qed.

Lemma infinity_value : infinity = 999999986991104.
Proof. vm_compute. reflexivity. Qed.

Lemma start_past (i : Z) : particleCount <= i -> start i = infinity.
Proof.
  intros Hi. unfold start, getStart.
  destruct (Z.geb_spec i particleCount); [reflexivity | lia].
Qed.

(** The loop keeps [start low <= t] and the key at [high] above [t]
    ([high] may be [particleCount], read as infinity); the interval
    halves at each turn. *)
Lemma search_spec (t : Z) (todo : nat) :
  forall low high,
    0 <= low < high -> high <= particleCount ->
    start low <= t ->
    (high < particleCount -> t < start high) ->
    high - low <= 2 ^ Z.of_nat todo ->
    let p := search texEdgePtr particleDataWidth particleCount todo t low high in
    low <= p < high /\ start p <= t
    /\ (p + 1 < particleCount -> t < start (p + 1)).
Proof.
  induction todo as [|todo IH]; intros low high Hlh Hhn Hlow Hhigh Hw.
  - simpl in *. assert (high = low + 1) by lia. subst high.
    repeat split; try lia; auto.
  - cbn [search].
    assert (Hmid : idiv (low + high) 2 = (low + high) / 2)
      by (apply idiv_div; lia).
    rewrite Hmid.
    assert (Hp : 2 ^ Z.of_nat (S todo) = 2 * 2 ^ Z.of_nat todo).
    { rewrite Nat2Z.inj_succ, Z.pow_succ_r by lia. reflexivity. }
    destruct (Z.eqb_spec ((low + high) / 2) low) as [He|Hne].
    + assert (high = low + 1).
      { pose proof (Z.div_mod (low + high) 2 ltac:(lia)).
        pose proof (Z.mod_pos_bound (low + high) 2 ltac:(lia)). lia. }
      subst high. repeat split; try lia; auto.
    + set (mid := (low + high) / 2) in *.
      assert (Hm : low < mid < high).
      { subst mid.
        pose proof (Z.div_mod (low + high) 2 ltac:(lia)).
        pose proof (Z.mod_pos_bound (low + high) 2 ltac:(lia)). lia. }
      assert (Hw' : high - mid <= 2 ^ Z.of_nat todo /\ mid - low <= 2 ^ Z.of_nat todo).
      { subst mid.
        pose proof (Z.div_mod (low + high) 2 ltac:(lia)).
        pose proof (Z.mod_pos_bound (low + high) 2 ltac:(lia)). lia. }
      fold start.
      destruct (Z.leb_spec (start mid) t) as [Hle|Hgt].
      * destruct (IH mid high ltac:(lia) Hhn Hle Hhigh ltac:(lia))
          as (H1 & H2 & H3).
        repeat split; try lia; auto.
      * destruct (IH low mid ltac:(lia) ltac:(lia) Hlow (fun _ => Hgt) ltac:(lia))
          as (H1 & H2 & H3).
        repeat split; try lia; auto.
Qed.

(** The target index is computed in floats: exact below [2^24]. *)
Lemma target_exact (k : Z) :
  0 <= k -> 0 <= stride -> k * stride < 16777216 ->
  fmul (float k) (float stride) = k * stride.
Proof.
  intros Hk Hs Ht.
  destruct (Z.eq_dec k 0) as [->|Hk0].
  { rewrite float_small by lia. unfold fmul. rewrite Z.mul_0_l. reflexivity. }
  destruct (Z.eq_dec stride 0) as [->|Hs0].
  { rewrite (@float_small 0) by lia. unfold fmul. rewrite !Z.mul_0_r.
    reflexivity. }
  assert (k < 16777216) by nia.
  assert (stride < 16777216) by nia.
  rewrite !float_small by lia. apply fmul_small. nia.
Qed.

(** The 17 turns of the loop suffice for up to 131072 particles. *)
Lemma main_spec (coord : Z * Z) :
  let k := snd coord * coarseWidth + fst coord in
  let t := k * stride in
  0 < particleCount <= 131072 ->
  0 <= k -> 0 <= stride -> t < 16777216 ->
  ptr 0 <= t ->
  let p := main texEdgePtr particleDataWidth stride particleCount coarseWidth coord in
  0 <= p < particleCount /\ start p <= t
  /\ (p + 1 < particleCount -> t < start (p + 1)).
Proof.
  intros k t HN Hk Hs Ht H0 p. subst p. unfold main. fold k.
  rewrite target_exact by assumption. fold t.
  assert (Hs0 : start 0 <= t) by (now rewrite start_in_range by lia).
  assert (Hw : particleCount - 0 <= 2 ^ Z.of_nat 17)
    by (change (2 ^ Z.of_nat 17) with 131072; lia).
  destruct (@search_spec t 17 0 particleCount ltac:(lia) ltac:(lia) Hs0
              ltac:(lia) Hw) as (H1 & H2 & H3).
  rewrite float_small by lia.
  repeat split; try lia; auto.
Qed.

End Bisection.

(** [X8]  For the coarse slot [k = coord.y * coarseWidth + coord.x] and
    its target edge index [t = k * stride] below [2^24] (where the
    float product [float(k) * float(stride)] is exact), with the
    pointers monotone non-decreasing from [ptr[0] = 0] and at most
    131072 particles, the kernel emits the largest [p] with
    [getStart(p) <= t], where [getStart] reads the stored pointer below
    the particle count and the infinity sentinel from there on. *)
Theorem coarse_map_largest_owner
    (texEdgePtr : list Z)
    (particleDataWidth stride particleCount coarseWidth : Z) (coord : Z * Z) :
  let start := getStart texEdgePtr particleDataWidth particleCount in
  let k := snd coord * coarseWidth + fst coord in
  let t := k * stride in
  0 < particleDataWidth ->
  0 < particleCount <= 131072 ->
  (forall i j, 0 <= i <= j -> j < particleCount ->
     nth (Z.to_nat i) texEdgePtr 0 <= nth (Z.to_nat j) texEdgePtr 0) ->
  nth 0 texEdgePtr 0 = 0 ->
  0 <= k -> 0 <= stride -> t < 16777216 ->
  let p := main texEdgePtr particleDataWidth stride particleCount coarseWidth coord in
  0 <= p /\ start p <= t /\ (forall q, p < q -> t < start q).
Proof.
  intros start k t HW HN Hmono H0 Hk Hs Ht p.
  assert (Ht0 : 0 <= t) by (subst t; nia).
  destruct (@main_spec texEdgePtr particleDataWidth stride particleCount
              coarseWidth HW coord HN Hk Hs Ht) as (H1 & H2 & H3).
  { change (Z.to_nat 0) with O. rewrite H0. exact Ht0. }
  fold k in H2, H3. fold t in H2, H3. fold p in H1, H2, H3.
  fold start in H2, H3.
  split; [lia|]. split; [exact H2|].
  intros q Hq.
  destruct (Z_lt_ge_dec q particleCount) as [Hlt|Hge].
  - assert (Hst : t < start (p + 1)) by (apply H3; lia).
    unfold start in *.
    rewrite start_in_range in * by lia.
    pose proof (Hmono (p + 1) q ltac:(lia) Hlt). lia.
  - unfold start. rewrite start_past by lia. rewrite infinity_value. lia.
Qed.

(** The pointers [0, 2, 2, 5] of three particles, stride 2, coarse slots
    0..2: targets 0, 2, 4 are owned by particles 0, 2 and 2. *)
Lemma coarse_map_largest_owner_witness :
  let ptrs := [0; 2; 2; 5] in
  map (fun k => main ptrs 2 2 3 4 (k, 0)) [0; 1; 2] = [0; 2; 2]
  /\ forall q, 2 < q -> 4 < getStart ptrs 2 3 q.
Proof.
  split; [reflexivity|].
  refine (proj2 (proj2 (@coarse_map_largest_owner [0; 2; 2; 5] 2 2 3 4 (2, 0)
                           _ _ _ _ _ _ _))).
  - lia.
  - lia.
  - intros i j Hij Hj.
    assert (Hc : (i = 0 \/ i = 1 \/ i = 2) /\ (j = 0 \/ j = 1 \/ j = 2)) by lia.
    destruct Hc as ([->| [->| ->]] & [->| [->| ->]]); simpl; lia.
  - reflexivity.
  - simpl. lia.
  - lia.
  - simpl. lia.
Defined.

(** The bound on the target is needed: the coarse slot 16777219 with
    stride 1 has the float target 16777220, and the kernel emits the
    slot 1 whose range starts after the edge index 16777219. *)
Lemma coarse_map_rounds_large_target :
  main [0; 16777220; 16777224] 2 1 2 16777220 (16777219, 0) = 1.
Proof. vm_compute. reflexivity. Qed.

End CoarseMapFacts.

(* ================================================================= *)
(** ** Point draws, and the identity mirror                           *)
(* ================================================================= *)

Module PointFacts.
Import Gl GlFacts.
Local Open Scope Z_scope.

Section Points.
Variable A : Type.
Variable W H : Z.
Variable vs : Z -> (Z * Z) * option A.

(** The linear index of the texel point [k] lands on. *)
Definition landing (k : Z) : Z := snd (fst (vs k)) * W + fst (fst (vs k)).

Definition drawn (fb : list A) (n : nat) : list A :=
  fold_left (fun fb k =>
               match vs (Z.of_nat k) with
               | ((x, y), Some v) =>
                   if (0 <=? x) && (x <? W) && (0 <=? y) && (y <? H)
                   then upd fb (Z.to_nat (y * W + x)) v
                   else fb
               | (_, None) => fb
               end) (seq 0 n) fb.

Lemma drawPoints_drawn (fb : list A) (n : Z) :
  drawPoints fb W H n vs = drawn fb (Z.to_nat n).
Proof. reflexivity. Qed.

Lemma length_drawn (fb : list A) (n : nat) : length (drawn fb n) = length fb.
Proof.
  induction n as [|n IH]; [reflexivity|].
  unfold drawn in *. rewrite seq_S, fold_left_app. simpl.
  destruct (vs (Z.of_nat n)) as [[x y] [v|]]; auto.
  destruct (_ && _); auto. now rewrite length_upd.
Qed.

(** When every point lands in the viewport, is not discarded, and no
    two points land on one texel, each point's value is found on its
    texel and every other texel is untouched. *)
Lemma drawn_spec (fb : list A) (d : A) (n : nat) :
  length fb = Z.to_nat (W * H) ->
  (forall k, 0 <= k < Z.of_nat n ->
     exists x y v, vs k = ((x, y), Some v) /\ 0 <= x < W /\ 0 <= y < H) ->
  (forall j k, 0 <= j < Z.of_nat n -> 0 <= k < Z.of_nat n ->
     landing j = landing k -> j = k) ->
  (forall k, 0 <= k < Z.of_nat n ->
     Some (nth (Z.to_nat (landing k)) (drawn fb n) d) = snd (vs k))
  /\ (forall t, 0 <= t ->
        (forall k, 0 <= k < Z.of_nat n -> landing k <> t) ->
        nth (Z.to_nat t) (drawn fb n) d = nth (Z.to_nat t) fb d).
Proof.
  intros Hlen. induction n as [|n IH]; intros Hin Hinj.
  - split; [intros; lia | reflexivity].
  - destruct IH as [IH1 IH2].
    { intros k Hk. apply Hin. lia. }
    { intros j k Hj Hk. apply Hinj; lia. }
    assert (Hstep : drawn fb (S n) =
                    match vs (Z.of_nat n) with
                    | ((x, y), Some v) =>
                        if (0 <=? x) && (x <? W) && (0 <=? y) && (y <? H)
                        then upd (drawn fb n) (Z.to_nat (y * W + x)) v
                        else drawn fb n
                    | (_, None) => drawn fb n
                    end).
    { unfold drawn. now rewrite seq_S, fold_left_app. }
    destruct (Hin (Z.of_nat n) ltac:(lia)) as (x & y & v & Hv & Hx & Hy).
    assert (Hland : landing (Z.of_nat n) = y * W + x)
      by (unfold landing; now rewrite Hv).
    rewrite Hv in Hstep.
    replace ((0 <=? x) && (x <? W) && (0 <=? y) && (y <? H)) with true in Hstep
      by (symmetry; rewrite !andb_true_iff; repeat split; lia).
    assert (Hb : 0 <= y * W + x < W * H) by nia.
    rewrite Hstep. split.
    + intros k Hk. destruct (Z.eq_dec k (Z.of_nat n)) as [->|Hne].
      * rewrite Hland, Hv. simpl. f_equal. apply nth_upd_eq.
        rewrite length_drawn. lia.
      * rewrite nth_upd_neq.
        -- apply IH1. lia.
        -- intros Heq. apply Hne. apply Hinj; try lia.
           destruct (Hin k ltac:(lia)) as (x' & y' & v' & Hv' & Hx' & Hy').
           assert (0 <= landing k < W * H)
             by (unfold landing; rewrite Hv'; simpl; nia).
           lia.
    + intros t Ht0 Ht. rewrite nth_upd_neq.
      * apply IH2; [lia|]. intros k Hk. apply Ht. lia.
      * intros Heq. apply (Ht (Z.of_nat n)); lia.
Qed.

End Points.
End PointFacts.

Module IdentityFacts.
Import Gl GlFacts FloatFacts Particle PointFacts KIdentityMirror.
Local Open Scope Z_scope.

Section Mirror.
Variable F : Type.
Variable zeroId : idMassTint F.
Variable particleCount textureWidth textureHeight : Z.
Variable texIdMassTintEdgePtr : list (idMassTint F).

(** The PID stored in physical slot [i]. *)
Definition PID (i : Z) : Z := pid (nth (Z.to_nat i) texIdMassTintEdgePtr zeroId).

Hypothesis width_pos : 0 < textureWidth.

(** Below [2^23] the vertex shader's float arithmetic is exact. *)
Lemma vertex_eq (i : Z) :
  0 <= i < 16777216 -> 0 <= PID i < 8388608 ->
  vertex zeroId textureWidth texIdMassTintEdgePtr i
  = ((PID i mod textureWidth, PID i / textureWidth), Some i).
Proof.
  intros Hi Hp. unfold vertex. rewrite texelFetch_glsl by lia.
  fold (PID i).
  rewrite floorHalf_small, fmod_small, floorDiv_small, float_small by lia.
  reflexivity.
Qed.

Lemma landing_PID (i : Z) :
  0 <= i < 16777216 -> 0 <= PID i < 8388608 ->
  landing textureWidth (vertex zeroId textureWidth texIdMassTintEdgePtr) i = PID i.
Proof.
  intros Hi Hp. unfold landing. rewrite vertex_eq by lia. simpl.
  now apply frag_linear.
Qed.

(** Distinct PIDs within the texture: no more slots than texels. *)
Lemma slots_fit :
  0 < particleCount ->
  (forall i, 0 <= i < particleCount -> 0 <= PID i < textureWidth * textureHeight) ->
  (forall i j, 0 <= i < particleCount -> 0 <= j < particleCount ->
     PID i = PID j -> i = j) ->
  particleCount <= textureWidth * textureHeight.
Proof.
  intros HN Hrange Hinj.
  pose proof (Hrange 0 ltac:(lia)) as H0.
  assert (Hnd : NoDup (map PID (range particleCount))).
  { apply Injective_map_NoDup_in; [|apply NoDup_range].
    intros i j Hi Hj. apply Hinj; now apply in_range. }
  assert (Hincl : incl (map PID (range particleCount))
                       (range (textureWidth * textureHeight))).
  { intros v Hv. apply in_map_iff in Hv. destruct Hv as (i & <- & Hi).
    apply in_range. apply Hrange. now apply in_range. }
  pose proof (NoDup_incl_length Hnd Hincl) as Hlen.
  rewrite length_map, !length_range in Hlen. lia.
Qed.

Lemma mirror_run_spec :
  textureWidth * textureHeight <= 8388608 ->
  (forall i, 0 <= i < particleCount -> 0 <= PID i < textureWidth * textureHeight) ->
  (forall i j, 0 <= i < particleCount -> 0 <= j < particleCount ->
     PID i = PID j -> i = j) ->
  let identity :=
    run zeroId particleCount textureWidth textureHeight texIdMassTintEdgePtr in
  (forall i, 0 <= i < particleCount -> nth (Z.to_nat (PID i)) identity 0 = i)
  /\ (forall t, 0 <= t < textureWidth * textureHeight ->
        (forall i, 0 <= i < particleCount -> PID i <> t) ->
        nth (Z.to_nat t) identity 0 = -1)
  /\ length identity = Z.to_nat (textureWidth * textureHeight).
Proof.
  intros Hfloat Hrange Hinj identity. subst identity. unfold run.
  rewrite drawPoints_drawn.
  set (vs := vertex zeroId textureWidth texIdMassTintEdgePtr).
  set (fb := clear textureWidth textureHeight (-1)).
  destruct (Z_le_gt_dec particleCount 0) as [Hz|Hpos].
  { replace (Z.to_nat particleCount) with O by lia. simpl.
    split; [intros; lia|]. split; [|apply length_clear].
    intros t Ht _. apply nth_clear. lia. }
  pose proof (slots_fit ltac:(lia) Hrange Hinj) as Hfit.
  assert (Hex : forall k, 0 <= k < particleCount ->
                  0 <= k < 16777216 /\ 0 <= PID k < 8388608).
  { intros k Hk. pose proof (Hrange k Hk). lia. }
  destruct (@drawn_spec Z textureWidth textureHeight vs fb 0 (Z.to_nat particleCount))
    as [H1 H2].
  - apply length_clear.
  - intros k Hk. rewrite Z2Nat.id in Hk by lia.
    exists (PID k mod textureWidth), (PID k / textureWidth), k.
    split; [apply vertex_eq; apply Hex; lia|].
    pose proof (Hrange k Hk).
    split; [apply Z.mod_pos_bound; lia|].
    split; [apply Z.div_pos; lia|].
    apply Z.div_lt_upper_bound; lia.
  - intros j k Hj Hk. rewrite Z2Nat.id in Hj, Hk by lia.
    unfold vs. rewrite !landing_PID by (apply Hex; lia). now apply Hinj.
  - split; [|split].
    + intros i Hi.
      specialize (H1 i ltac:(lia)). unfold vs in H1.
      rewrite landing_PID, vertex_eq in H1 by (apply Hex; lia). simpl in H1.
      now injection H1.
    + intros t Ht Hno. rewrite H2.
      * apply nth_clear. lia.
      * lia.
      * intros k Hk. rewrite Z2Nat.id in Hk by lia.
        unfold vs. rewrite landing_PID by (apply Hex; lia). now apply Hno.
    + rewrite length_drawn. apply length_clear.
Qed.

End Mirror.

(** [X5]  On an identity texture of at most [2^23] texels (so
    that every PID and slot index is a float and [floor(pid + 0.5)]
    reads it back), with the PIDs of the slots [0 .. N-1] pairwise
    distinct and in [[0, Wp * Hp)], the identity texture written by the
    kernel holds [identity[PID(slot i)] = i] for every slot [i], and the
    sentinel [-1] at every texel whose index is no slot's PID. *)
Theorem identity_mirror_inverse (F : Type) (zeroId : idMassTint F)
    (N Wp Hp : Z) (texIdMassTint : list (idMassTint F)) :
  let PID := PID zeroId texIdMassTint in
  0 < Wp ->
  Wp * Hp <= 8388608 ->
  (forall i, 0 <= i < N -> 0 <= PID i < Wp * Hp) ->
  (forall i j, 0 <= i < N -> 0 <= j < N -> PID i = PID j -> i = j) ->
  let identity := run zeroId N Wp Hp texIdMassTint in
  (forall i, 0 <= i < N -> nth (Z.to_nat (PID i)) identity 0 = i)
  /\ (forall t, 0 <= t < Wp * Hp -> (forall i, 0 <= i < N -> PID i <> t) ->
        nth (Z.to_nat t) identity 0 = -1).
Proof.
  intros PID HW Hfloat Hrange Hinj identity.
  destruct (@mirror_run_spec F zeroId N Wp Hp texIdMassTint HW Hfloat Hrange Hinj)
    as (H1 & H2 & _).
  split; assumption.
Qed.

(** Three particles with PIDs 2, 0, 3 on a 2 x 2 identity texture. *)
Lemma identity_mirror_inverse_witness :
  run (IdMass 0 0%Q 0%Q 0%Q) 3 2 2
      [IdMass 2 1%Q 0%Q 0%Q; IdMass 0 1%Q 0%Q 0%Q; IdMass 3 1%Q 0%Q 0%Q]
  = [1; -1; 0; 2]
  /\ nth 3 (run (IdMass 0 0%Q 0%Q 0%Q) 3 2 2
      [IdMass 2 1%Q 0%Q 0%Q; IdMass 0 1%Q 0%Q 0%Q; IdMass 3 1%Q 0%Q 0%Q]) 0 = 2.
Proof.
  split; [reflexivity|].
  pose (tex := [IdMass 2 1%Q 0%Q 0%Q; IdMass 0 1%Q 0%Q 0%Q; IdMass 3 1%Q 0%Q 0%Q]).
  assert (Hc : forall i, 0 <= i < 3 -> i = 0 \/ i = 1 \/ i = 2) by lia.
  refine (proj1 (@identity_mirror_inverse Q (IdMass 0 0%Q 0%Q 0%Q) 3 2 2 tex _ _ _ _) 2 _).
  - lia.
  - lia.
  - intros i Hi. destruct (Hc i Hi) as [->| [->| ->]]; unfold PID, tex; simpl; lia.
  - intros i j Hi Hj.
    destruct (Hc i Hi) as [->| [->| ->]], (Hc j Hj) as [->| [->| ->]];
      unfold PID, tex; simpl; intros; lia.
  - lia.
Defined.

(** The bound on the texture is needed: on a texture 4096 texels wide
    the PID 8388609 is read as 8388610 ([pid + 0.5] rounds to even) and
    lands on the texel next to its own. *)
Lemma identity_vertex_rounds_large_pid :
  fst (vertex (IdMass 0 0%Q 0%Q 0%Q) 4096 [IdMass 8388609 0%Q 0%Q 0%Q] 0)
  = (8388610 mod 4096, 8388610 / 4096).
Proof. vm_compute. reflexivity. Qed.

End IdentityFacts.

(* ================================================================= *)
(** ** Sums, and the Hillis-Steele scan                               *)
(* ================================================================= *)

Module SumFacts.
Import GlFacts.
Local Open Scope Z_scope.

Definition zsum (l : list Z) : Z := fold_right Z.add 0 l.

(** [pre c n = c 0 + ... + c (n-1)] *)
Definition pre (c : Z -> Z) (n : Z) : Z := zsum (map c (range n)).

Lemma zsum_app (l l' : list Z) : zsum (l ++ l') = zsum l + zsum l'.
Proof. induction l; simpl; lia. Qed.

Lemma zsum_perm (l l' : list Z) : Permutation l l' -> zsum l = zsum l'.
Proof. induction 1; simpl; lia. Qed.

Lemma pre_nonpos (c : Z -> Z) (n : Z) : n <= 0 -> pre c n = 0.
Proof. intros Hn. unfold pre. now rewrite range_nonpos. Qed.

Lemma pre_succ (c : Z -> Z) (n : Z) : 0 <= n -> pre c (n + 1) = pre c n + c n.
Proof.
  intros Hn. unfold pre. rewrite range_succ, map_app, zsum_app by lia.
  simpl. lia.
Qed.

Lemma pre_ext (c c' : Z -> Z) (n : Z) :
  (forall i, 0 <= i < n -> c i = c' i) -> pre c n = pre c' n.
Proof.
  intros H. unfold pre. f_equal. apply map_ext_in.
  intros i Hi. apply H. now apply in_range.
Qed.

Lemma pre_mono (c : Z -> Z) (n : Z) :
  (forall i, 0 <= i < n -> 0 <= c i) -> 0 <= pre c n.
Proof.
  intros H. destruct (Z_le_gt_dec n 0) as [Hn|Hn].
  - rewrite pre_nonpos; lia.
  - revert H. pattern n. apply Zlt_lower_bound_ind with (z := 1); [|lia].
    intros m IH Hm Hc.
    destruct (Z.eq_dec m 1) as [->|Hne].
    + change 1 with (0 + 1). rewrite pre_succ, pre_nonpos by lia.
      specialize (Hc 0). lia.
    + replace m with (m - 1 + 1) by lia. rewrite pre_succ by lia.
      assert (0 <= pre c (m - 1)) by (apply IH; [lia|]; intros; apply Hc; lia).
      specialize (Hc (m - 1)). lia.
Qed.

(** Telescoping. *)
Lemma pre_diff (f : Z -> Z) (n : Z) :
  0 <= n -> pre (fun p => f (p + 1) - f p) n = f n - f 0.
Proof.
  intros Hn. pattern n. apply natlike_ind; [| |exact Hn].
  - rewrite pre_nonpos; lia.
  - intros m Hm IH. unfold Z.succ. rewrite pre_succ, IH by lia. lia.
Qed.

Lemma pre_le (c : Z -> Z) (b a : Z) :
  (forall i, 0 <= i -> 0 <= c i) -> 0 <= b <= a -> pre c b <= pre c a.
Proof.
  intros Hc Hba.
  assert (H : forall d, 0 <= d -> pre c b <= pre c (b + d)).
  { intros d Hd. pattern d. apply natlike_ind; [| |exact Hd].
    - rewrite Z.add_0_r. lia.
    - intros d' Hd' IH. unfold Z.succ.
      replace (b + (d' + 1)) with (b + d' + 1) by lia.
      rewrite pre_succ by lia. specialize (Hc (b + d') ltac:(lia)). lia. }
  replace a with (b + (a - b)) by lia. apply H. lia.
Qed.

End SumFacts.

Module PrefixSumFacts.
Import Gl GlFacts FloatFacts SumFacts KEdgePrefixSum.
Local Open Scope Z_scope.

Section Scan.
Variable encodedSortOrderWidth particleCount width height : Z.
Variable texEdgePtrOld : list Z.
Variable texSortOrder : list (list Z).
Variable sortOffset : Z.

Let T : Z := width * height.
Let ptr (i : Z) : Z := nth (Z.to_nat i) texEdgePtrOld 0.
Let old : Z -> Z :=
  Atlas.getOldID encodedSortOrderWidth particleCount texSortOrder sortOffset.
Let counts : Z -> Z :=
  countOf encodedSortOrderWidth particleCount width texEdgePtrOld texSortOrder
    sortOffset.

(** The edge count the init pass writes at texel [i]. *)
Let c (i : Z) : Z := if i >=? particleCount then 0 else counts i.

Hypothesis width_pos : 0 < width.
Hypothesis texels : particleCount + 1 <= T < 4294967296.
Hypothesis count_nonneg : 0 <= particleCount.
Hypothesis old_perm :
  Permutation (map old (range particleCount)) (range particleCount).
(** The old pointers are in order and below [2^23], where the floats of
    the scan are exact. *)
Hypothesis ptr_mono : forall i, 0 <= i < particleCount -> ptr i <= ptr (i + 1).
Hypothesis ptr_first : 0 <= ptr 0.
Hypothesis ptr_last : ptr particleCount < 8388608.

Lemma height_pos : 0 < height.
Proof. subst T. nia. Qed.

Lemma old_in_range (i : Z) :
  0 <= i < particleCount -> 0 <= old i < particleCount.
Proof.
  intros Hi. apply in_range. eapply Permutation_in; [exact old_perm|].
  apply in_map. now apply in_range.
Qed.

Lemma ptr_between (i : Z) :
  0 <= i <= particleCount -> ptr 0 <= ptr i <= ptr particleCount.
Proof.
  intros Hi.
  assert (H : forall a d, 0 <= a -> 0 <= d -> a + d <= particleCount ->
                ptr a <= ptr (a + d)).
  { intros a d Ha Hd. pattern d. apply natlike_ind; [| |exact Hd].
    - intros _. rewrite Z.add_0_r. lia.
    - intros d' Hd' IH Hle. unfold Z.succ in *.
      replace (a + (d' + 1)) with (a + d' + 1) by lia.
      pose proof (ptr_mono (i := a + d') ltac:(lia)). lia. }
  split.
  - pose proof (H 0 i ltac:(lia) ltac:(lia) ltac:(lia)) as H1.
    rewrite Z.add_0_l in H1. exact H1.
  - pose proof (H i (particleCount - i) ltac:(lia) ltac:(lia) ltac:(lia)) as H1.
    replace (i + (particleCount - i)) with particleCount in H1 by lia.
    exact H1.
Qed.

Lemma counts_eq (i : Z) :
  0 <= i < particleCount -> counts i = ptr (old i + 1) - ptr (old i).
Proof.
  intros Hi. pose proof height_pos as Hh.
  assert (Hwb : width < 4294967296) by (subst T; nia).
  unfold counts, countOf, getOldID. fold old.
  rewrite (@uint_small i) by lia.
  pose proof (old_in_range Hi) as Ho.
  rewrite (@uint_small width) by lia.
  unfold uadd. rewrite (@uint_small (old i + 1)) by lia.
  rewrite !texelFetch_glsl by lia.
  fold (ptr (old i)). fold (ptr (old i + 1)).
  pose proof (@ptr_between (old i) ltac:(lia)).
  pose proof (@ptr_between (old i + 1) ltac:(lia)).
  pose proof (ptr_mono (i := old i) ltac:(lia)).
  rewrite !floorHalf_small by lia. apply fsub_small. lia.
Qed.

Lemma c_nonneg (i : Z) : 0 <= i -> 0 <= c i.
Proof.
  intros Hi. unfold c. destruct (Z.geb_spec i particleCount); [lia|].
  rewrite counts_eq by lia.
  pose proof (@old_in_range i ltac:(lia)).
  pose proof (ptr_mono (i := old i) ltac:(lia)). lia.
Qed.

(** The counts of all particles add up to the last old pointer less
    the first. *)
Lemma total_count : pre c particleCount = ptr particleCount - ptr 0.
Proof.
  rewrite <- (pre_diff ptr count_nonneg).
  transitivity (zsum (map (fun p => ptr (p + 1) - ptr p)
                          (map old (range particleCount)))).
  - unfold pre. rewrite map_map. f_equal. apply map_ext_in.
    intros i Hi. apply in_range in Hi. unfold c.
    destruct (Z.geb_spec i particleCount); [lia|]. now apply counts_eq.
  - unfold pre. apply zsum_perm. now apply Permutation_map.
Qed.

Lemma pre_past (j : Z) : particleCount <= j -> pre c j = pre c particleCount.
Proof.
  intros Hj. pattern j.
  apply Zlt_lower_bound_ind with (z := particleCount); [|lia].
  intros m IH Hm.
  destruct (Z.eq_dec m particleCount) as [->|Hne]; [reflexivity|].
  replace m with (m - 1 + 1) by lia. rewrite pre_succ by lia.
  rewrite (IH (m - 1)) by lia.
  unfold c at 2. destruct (Z.geb_spec (m - 1) particleCount); lia.
Qed.

(** Every window of counts sums to a float. *)
Lemma pre_window (b a : Z) :
  0 <= b <= a -> 0 <= pre c a - pre c b < 8388608.
Proof.
  intros Hba.
  pose proof (@pre_le c b a c_nonneg Hba) as H1.
  pose proof (@pre_le c 0 b c_nonneg ltac:(lia)) as H2.
  rewrite (pre_nonpos c (n := 0)) in H2 by lia.
  assert (H3 : pre c a <= pre c particleCount).
  { destruct (Z_le_gt_dec a particleCount).
    - apply pre_le; [exact c_nonneg|lia].
    - rewrite pre_past by lia. lia. }
  rewrite total_count in H3. lia.
Qed.

Lemma init_spec (i : Z) :
  0 <= i < T ->
  nth (Z.to_nat i)
      (drawQuad width height
         (mainInit encodedSortOrderWidth particleCount width texEdgePtrOld
            texSortOrder sortOffset)) 0 = c i.
Proof.
  intros Hi. rewrite nth_drawQuad by exact Hi.
  unfold mainInit. cbn [fst snd]. now rewrite frag_linear by lia.
Qed.

Lemma scan_step (sums : list Z) (i j : Z) :
  0 <= i -> 0 <= j < T ->
  (forall j, 0 <= j < T ->
     nth (Z.to_nat j) sums 0 = pre c (j + 1) - pre c (Z.max 0 (j + 1 - 2 ^ i))) ->
  nth (Z.to_nat j) (drawQuad width height (mainScan width sums (Z.shiftl 1 i))) 0
  = pre c (j + 1) - pre c (Z.max 0 (j + 1 - 2 ^ (i + 1))).
Proof.
  intros Hi Hj Hsums. rewrite nth_drawQuad by exact Hj.
  unfold mainScan. cbn [fst snd]. rewrite frag_linear by lia.
  rewrite Z.shiftl_1_l.
  rewrite texelFetch_frag by lia.
  assert (Hp : 0 < 2 ^ i) by (apply Z.pow_pos_nonneg; lia).
  assert (Hp2 : 2 ^ (i + 1) = 2 * 2 ^ i) by (rewrite Z.pow_add_r; lia).
  rewrite Hsums by lia.
  destruct (Z.geb_spec j (2 ^ i)) as [Hge|Hlt].
  - rewrite texelFetch_glsl by lia.
    rewrite Hsums by lia.
    replace (Z.max 0 (j + 1 - 2 ^ i)) with (j - 2 ^ i + 1) by lia.
    replace (j - 2 ^ i + 1 - 2 ^ i) with (j + 1 - 2 ^ (i + 1)) by lia.
    pose proof (@pre_window (Z.max 0 (j + 1 - 2 ^ (i + 1))) (j + 1) ltac:(lia)).
    rewrite fadd_small by lia. lia.
  - replace (Z.max 0 (j + 1 - 2 ^ i)) with 0 by lia.
    replace (Z.max 0 (j + 1 - 2 ^ (i + 1))) with 0 by lia.
    reflexivity.
Qed.

(** After [todo] more passes starting at pass [i], every texel holds
    the sum of the window of [2 ^ (i + todo)] counts that ends at it. *)
Lemma scanLoop_spec (todo : nat) :
  forall (i : Z) (sums : list Z),
    0 <= i ->
    (forall j, 0 <= j < T ->
       nth (Z.to_nat j) sums 0 = pre c (j + 1) - pre c (Z.max 0 (j + 1 - 2 ^ i))) ->
    forall j, 0 <= j < T ->
      nth (Z.to_nat j) (scanLoop width height todo i sums) 0
      = pre c (j + 1) - pre c (Z.max 0 (j + 1 - 2 ^ (i + Z.of_nat todo))).
Proof.
  induction todo as [|todo IH]; intros i sums Hi Hsums j Hj.
  - simpl. rewrite Z.add_0_r. now apply Hsums.
  - cbn [scanLoop].
    replace (i + Z.of_nat (S todo)) with (i + 1 + Z.of_nat todo) by lia.
    apply IH; try lia.
    intros j' Hj'. now apply scan_step.
Qed.

(** The pointers [run] writes are the exclusive prefix sums of the
    counts. *)
Lemma prefix_run_spec (j : Z) :
  0 <= j < T ->
  nth (Z.to_nat j)
      (run width height encodedSortOrderWidth particleCount texEdgePtrOld
         texSortOrder sortOffset) 0
  = pre c j.
Proof.
  intros Hj. unfold run. rewrite nth_drawQuad by exact Hj.
  unfold mainFinal. cbn [fst snd]. rewrite frag_linear by lia.
  rewrite texelFetch_frag by lia.
  fold T.
  assert (Hsteps : T <= 2 ^ Z.log2_up T).
  { destruct (Z.eq_dec T 1) as [->|Hne]; [simpl; lia|].
    apply Z.log2_up_spec. lia. }
  pose proof (@pre_window 0 (j + 1) ltac:(lia)) as Hw.
  pose proof (@pre_window j (j + 1) ltac:(lia)) as Hw1.
  pose proof (@pre_window 0 j ltac:(lia)) as Hw0.
  rewrite (pre_nonpos c (n := 0)) in Hw, Hw0 by lia.
  rewrite pre_succ in Hw, Hw1 by lia.
  rewrite scanLoop_spec with (i := 0); try lia.
  - rewrite Z2Nat.id by apply Z.log2_up_nonneg.
    replace (Z.max 0 (j + 1 - 2 ^ (0 + Z.log2_up T))) with 0 by (simpl; lia).
    rewrite (pre_nonpos c (n := 0)) by lia.
    rewrite pre_succ by lia. fold counts.
    rewrite floorHalf_small by lia.
    assert (Hc : (if j <? particleCount then counts j else 0) = c j).
    { unfold c.
      destruct (Z.geb_spec j particleCount), (Z.ltb_spec j particleCount);
        lia || reflexivity. }
    rewrite Hc. rewrite fsub_small by lia. lia.
  - intros j' Hj'. rewrite init_spec by lia.
    replace (Z.max 0 (j' + 1 - 2 ^ 0)) with j' by (simpl; lia).
    rewrite pre_succ by lia. lia.
Qed.

(** Each slot's new range of edges is as long as the old range of the
    slot it was gathered from; every pointer past the particles equals
    the last one. *)
Lemma new_ranges :
  let ptr_new i :=
    nth (Z.to_nat i)
        (run width height encodedSortOrderWidth particleCount texEdgePtrOld
           texSortOrder sortOffset) 0 in
  (forall i, 0 <= i < particleCount ->
     ptr_new (i + 1) - ptr_new i = ptr (old i + 1) - ptr (old i))
  /\ (forall j, particleCount <= j < T -> ptr_new j = ptr_new particleCount).
Proof.
  intros ptr_new. unfold ptr_new. split.
  - intros i Hi. rewrite !prefix_run_spec by lia.
    rewrite pre_succ by lia. unfold c at 2.
    destruct (Z.geb_spec i particleCount); [lia|].
    rewrite counts_eq by lia. lia.
  - intros j Hj. rewrite !prefix_run_spec by lia.
    apply pre_past. lia.
Qed.

(** The new pointers start at 0, never decrease, and end at the total
    of the old counts. *)
Lemma new_pointers :
  let ptr_new i :=
    nth (Z.to_nat i)
        (run width height encodedSortOrderWidth particleCount texEdgePtrOld
           texSortOrder sortOffset) 0 in
  ptr_new 0 = 0
  /\ (forall i, 0 <= i < particleCount -> ptr_new i <= ptr_new (i + 1))
  /\ ptr_new particleCount = ptr particleCount - ptr 0.
Proof.
  intros ptr_new. unfold ptr_new. split; [|split].
  - rewrite prefix_run_spec by lia. apply pre_nonpos. lia.
  - intros i Hi. rewrite !prefix_run_spec by lia.
    rewrite pre_succ by lia.
    pose proof (@c_nonneg i ltac:(lia)). lia.
  - rewrite prefix_run_spec by lia. apply total_count.
Qed.

End Scan.

(** [X6]  With the old pointers monotone non-decreasing from
    [ptr_old[0] = 0] to [ptr_old[N] = E], fewer than [2^23] edges (so
    that every pointer and every partial sum is a float and
    [floor(x + 0.5)] reads it back), and the atlas decoding to a
    permutation of the particle slots, the pointers the prefix-sum stage
    writes satisfy [ptr_new[0] = 0], [ptr_new[i] <= ptr_new[i+1]] for
    every [i] in [[0, N)], and [ptr_new[N] = E].  The pointer texture
    has room for the [N + 1] pointers. *)
Theorem prefix_sum_rebuilds_csr
    (encodedSortOrderWidth N width height E : Z)
    (texEdgePtrOld : list Z) (texSortOrder : list (list Z)) (sortOffset : Z) :
  let ptr_old i := nth (Z.to_nat i) texEdgePtrOld 0 in
  let ptr_new i :=
    nth (Z.to_nat i)
        (run width height encodedSortOrderWidth N texEdgePtrOld texSortOrder
           sortOffset) 0 in
  0 < width ->
  N + 1 <= width * height < 4294967296 ->
  0 <= N ->
  (forall i, 0 <= i < N -> ptr_old i <= ptr_old (i + 1)) ->
  ptr_old 0 = 0 ->
  ptr_old N = E ->
  E < 8388608 ->
  Permutation
    (map (Atlas.getOldID encodedSortOrderWidth N texSortOrder sortOffset) (range N))
    (range N) ->
  ptr_new 0 = 0
  /\ (forall i, 0 <= i < N -> ptr_new i <= ptr_new (i + 1))
  /\ ptr_new N = E.
Proof.
  intros ptr_old ptr_new HW HT HN Hmono H0 HE HE' Hperm.
  assert (H0' : 0 <= ptr_old 0) by lia.
  assert (HL : ptr_old N < 8388608) by lia.
  destruct (@new_pointers _ _ _ _ _ _ _ HW HT HN Hperm Hmono H0' HL)
    as (H1 & H2 & H3).
  split; [exact H1|]. split; [exact H2|].
  unfold ptr_new. rewrite H3. fold (ptr_old N). fold (ptr_old 0). lia.
Qed.

(** Three particles with old pointers [0, 2, 2, 5] on a 2 x 2 pointer
    texture, fewer than a chunk: the atlas is not consulted and the
    pointers are rebuilt as they were. *)
Lemma prefix_sum_rebuilds_csr_witness :
  run 2 2 1 3 [0; 2; 2; 5] [] 0 = [0; 2; 2; 5]
  /\ nth 3 (run 2 2 1 3 [0; 2; 2; 5] [] 0) 0 = 5.
Proof.
  split; [reflexivity|].
  refine (proj2 (proj2 (@prefix_sum_rebuilds_csr 1 3 2 2 5 [0; 2; 2; 5] [] 0
                           _ _ _ _ _ _ _ _))).
  - lia.
  - lia.
  - lia.
  - intros i Hi. assert (Hc : i = 0 \/ i = 1 \/ i = 2) by lia.
    destruct Hc as [->| [->| ->]]; simpl; lia.
  - reflexivity.
  - reflexivity.
  - lia.
  - apply Permutation_refl.
Defined.

(** [X7]  The prefix-sum stage keeps every particle's
    number of edges: with old pointers in order from a non-negative
    [ptr_old[0]] to a [ptr_old[N]] below [2^23], the new range of the
    slot [i] is as long as the old range of the slot [getOldID(i)] it
    came from; and every pointer texel from [N] on holds the same value
    as texel [N]. *)
Theorem prefix_sum_keeps_degrees
    (encodedSortOrderWidth N width height : Z)
    (texEdgePtrOld : list Z) (texSortOrder : list (list Z)) (sortOffset : Z) :
  let ptr_old i := nth (Z.to_nat i) texEdgePtrOld 0 in
  let old := Atlas.getOldID encodedSortOrderWidth N texSortOrder sortOffset in
  let ptr_new i :=
    nth (Z.to_nat i)
        (run width height encodedSortOrderWidth N texEdgePtrOld texSortOrder
           sortOffset) 0 in
  0 < width ->
  N + 1 <= width * height < 4294967296 ->
  0 <= N ->
  Permutation (map old (range N)) (range N) ->
  (forall i, 0 <= i < N -> ptr_old i <= ptr_old (i + 1)) ->
  0 <= ptr_old 0 ->
  ptr_old N < 8388608 ->
  (forall i, 0 <= i < N ->
     ptr_new (i + 1) - ptr_new i = ptr_old (old i + 1) - ptr_old (old i))
  /\ (forall j, N <= j < width * height -> ptr_new j = ptr_new N).
Proof.
  intros ptr_old old ptr_new HW HT HN Hperm Hmono H0 HL.
  exact (@new_ranges _ _ _ _ _ _ _ HW HT HN Hperm Hmono H0 HL).
Qed.

(** Old pointers [1, 3, 3, 6] of three particles, not starting at 0:
    the ranges keep the lengths 2, 0 and 3. *)
Lemma prefix_sum_keeps_degrees_witness :
  let ptr_new i := nth (Z.to_nat i) (run 2 2 1 3 [1; 3; 3; 6] [] 0) 0 in
  ptr_new 3 - ptr_new 2 = 3 /\ 0 < 2.
Proof.
  refine ((fun HW : 0 < 2 =>
     conj (proj1 (@prefix_sum_keeps_degrees 1 3 2 2 [1; 3; 3; 6] [] 0
                    HW _ _ _ _ _ _) 2 _) HW) _).
  - lia.
  - lia.
  - apply Permutation_refl.
  - intros i Hi. assert (Hc : i = 0 \/ i = 1 \/ i = 2) by lia.
    destruct Hc as [->| [->| ->]]; simpl; lia.
  - simpl. lia.
  - simpl. lia.
  - lia.
  - lia.
Defined.

(** The bound on the pointers is needed: from [2^24] on the float
    difference of two pointers rounds.  With the old pointers
    [0, 1, 16777218, 16777220] the second count, 16777217, is no float,
    and the stage loses edges. *)
Lemma prefix_sum_rounds_large_pointers :
  run 2 2 1 3 [0; 1; 16777218; 16777220] [] 0 = [0; 0; 16777218; 16777218].
Proof. vm_compute. reflexivity. Qed.

End PrefixSumFacts.

(* ================================================================= *)
(** ** The bitonic network of the sort encoder                        *)
(* ================================================================= *)

Module BitonicFacts.
Import Gl GlFacts KSortEncoder Network.
Local Open Scope Z_scope.

(** *** Index arithmetic, by exhaustion over the 28 steps and 128 cells *)

Definition xorChecked (kj : Z * Z) (p : Z) : bool :=
  let k := fst kj in
  let j := snd kj in
  let q := Z.lxor p j in
  (0 <=? q) && (q <? 128) && (Z.lxor q j =? p) && negb (q =? p)
  && (lower j q =? lower j p) && (q / k =? p / k)
  && (0 <=? lower j p) && (lower j p <? 128)
  && (Z.lxor (lower j p) j / k =? p / k) && (lower j p / k =? p / k).

Lemma xor_table :
  forallb (fun kj => forallb (xorChecked kj) (range 128)) steps = true.
Proof. vm_compute. reflexivity. Qed.

Lemma xor_facts (k j p : Z) :
  In (k, j) steps -> 0 <= p < 128 ->
  let q := Z.lxor p j in
  0 <= q < 128 /\ Z.lxor q j = p /\ q <> p /\ lower j q = lower j p
  /\ q / k = p / k /\ 0 <= lower j p < 128
  /\ Z.lxor (lower j p) j / k = p / k /\ lower j p / k = p / k.
Proof.
  intros Hkj Hp q.
  pose proof xor_table as Ht.
  rewrite forallb_forall in Ht. specialize (Ht _ Hkj).
  rewrite forallb_forall in Ht. specialize (Ht p (proj2 (in_range 128 p) Hp)).
  unfold xorChecked in Ht. cbn [fst snd] in Ht. fold q in Ht.
  rewrite !andb_true_iff, negb_true_iff in Ht.
  destruct Ht as (((((((((H1 & H2) & H3) & H4) & H5) & H6) & H7) & H8) & H9) & H10).
  repeat split; lia.
Qed.

Lemma steps_stages :
  steps = stage 2 ++ stage 4 ++ stage 8 ++ stage 16 ++ stage 32 ++ stage 64
          ++ stage 128.
Proof. reflexivity. Qed.

Lemma stage_steps (k j k' : Z) : In (k, j) (stage k') -> In (k, j) steps /\ k = k'.
Proof.
  unfold stage. rewrite filter_In. cbn [fst]. intros [H1 H2]. split; [easy|lia].
Qed.

(** *** Arrays of 128 cells *)

Lemma length_tab {A} (f : Z -> A) : length (tab f) = 128%nat.
Proof. unfold tab. now rewrite length_map, length_seq. Qed.

Lemma nth_tab {A} (f : Z -> A) (p : Z) (d : A) :
  0 <= p < 128 -> nth (Z.to_nat p) (tab f) d = f p.
Proof.
  intros Hp. unfold tab.
  rewrite nth_map_in with (d0 := O) by (rewrite length_seq; lia).
  rewrite seq_nth by lia. f_equal. lia.
Qed.

Lemma tab_ext {A} (f g : Z -> A) :
  (forall p, 0 <= p < 128 -> f p = g p) -> tab f = tab g.
Proof.
  intros H. unfold tab. apply map_ext_in. intros n Hn.
  apply in_seq in Hn. apply H. lia.
Qed.

Lemma tab_inj {A} (f g : Z -> A) (p : Z) :
  tab f = tab g -> 0 <= p < 128 -> f p = g p.
Proof.
  intros H Hp.
  rewrite <- (nth_tab f (f 0) Hp), <- (nth_tab g (f 0) Hp).
  now rewrite H.
Qed.

Lemma tab_nth {A} (l : list A) (d : A) :
  length l = 128%nat -> l = tab (fun p => nth (Z.to_nat p) l d).
Proof.
  intros Hl. apply nth_ext with (d := d) (d' := d).
  - now rewrite length_tab.
  - intros n Hn. rewrite <- (Nat2Z.id n) at 2.
    rewrite nth_tab by lia. now rewrite Nat2Z.id.
Qed.

Lemma range_CHUNK : range CHUNK = tab (fun p => p).
Proof. reflexivity. Qed.

Lemma upd_nth_same {A} (l : list A) (i : nat) (d : A) : upd l i (nth i l d) = l.
Proof.
  revert i; induction l as [|h t IH]; intros [|i]; simpl; auto.
  now rewrite IH.
Qed.

Lemma fold_left_ext {A B} (f g : A -> B -> A) (l : list B) (a : A) :
  (forall a b, f a b = g a b) -> fold_left f l a = fold_left g l a.
Proof.
  intros H. revert a; induction l as [|b l IH]; intros a; simpl; auto.
  now rewrite H, IH.
Qed.

Section Loops.
Variable F : Type.
Variable gt : F -> F -> bool.
Variable sentinel : F.

(** The compare-exchange as two unconditional writes per array. *)
Definition exchange (k j : Z) (a : arrays F) (i : Z) : arrays F :=
  let l := Z.lxor i j in
  if l >? i then
    let c := Bool.eqb (gt (key sentinel a i) (key sentinel a l))
                      (Z.land i k =? 0) in
    (upd (upd (fst a) (Z.to_nat i)
              (if c then key sentinel a l else key sentinel a i))
         (Z.to_nat l) (if c then key sentinel a i else key sentinel a l),
     upd (upd (snd a) (Z.to_nat i) (if c then id a l else id a i))
         (Z.to_nat l) (if c then id a i else id a l))
  else a.

Lemma compareExchange_exchange (k j : Z) (a : arrays F) (i : Z) :
  compareExchange gt sentinel k j a i = exchange k j a i.
Proof.
  unfold compareExchange, exchange.
  destruct (Z.lxor i j >? i); [|reflexivity].
  destruct (Bool.eqb _ _); [reflexivity|].
  unfold key, id. rewrite !upd_nth_same. now destruct a.
Qed.

(** One turn of the innermost loop is one step of the network. *)
Lemma iLoop_step (k j : Z) (x : Z -> F) (y : Z -> Z) :
  In (k, j) steps ->
  iLoop gt sentinel k j (tab x, tab y)
  = (tab (step gt k j x x), tab (step gt k j x y)).
Proof.
  intros H. unfold iLoop.
  rewrite (fold_left_ext _ (exchange k j) _ _ (compareExchange_exchange k j)).
  unfold steps in H.
  repeat (destruct H as [H|H];
          [injection H as <- <-; vm_compute; reflexivity|]).
  destruct H.
Qed.

Lemma bitonic_steps (a : arrays F) :
  bitonic gt sentinel a
  = fold_left (fun a kj => iLoop gt sentinel (fst kj) (snd kj) a) steps a.
Proof. cbv -[iLoop]. reflexivity. Qed.
(** Any loop body that performs one step per turn performs the steps
    [l] in turn. *)
Lemma turns_run (h : Z -> Z -> arrays F -> arrays F) :
  (forall k j x y, In (k, j) steps ->
     h k j (tab x, tab y) = (tab (step gt k j x x), tab (step gt k j x y))) ->
  forall l, incl l steps ->
  forall (x : Z -> F) (y : Z -> Z),
    fold_left (fun a kj => h (fst kj) (snd kj) a) l (tab x, tab y)
    = (tab (fst (run gt l x y)), tab (snd (run gt l x y))).
Proof.
  intros Hh. induction l as [|[k j] l IH]; intros Hl x y; [reflexivity|].
  cbn [fold_left run fst snd].
  rewrite Hh by (apply Hl; now left).
  apply IH. intros kj Hkj. apply Hl. now right.
Qed.

(** The loops of the shader compute the network. *)
Lemma bitonic_run (x : Z -> F) (y : Z -> Z) :
  bitonic gt sentinel (tab x, tab y)
  = (tab (fst (run gt steps x y)), tab (snd (run gt steps x y))).
Proof.
  rewrite bitonic_steps.
  apply (turns_run (iLoop gt sentinel)).
  - intros k j x' y' Hkj. now apply iLoop_step.
  - apply incl_refl.
Qed.

(** *** The network moves cells around *)

(** Where the steps [l] take the content of cell [p] from. *)
Definition origin (l : list (Z * Z)) (x : Z -> F) : Z -> Z :=
  snd (run gt l x (fun p => p)).

Lemma step_source {A} (k j : Z) (x : Z -> F) (y : Z -> A) (p : Z) :
  step gt k j x y p = y (source gt k j x p).
Proof. unfold step, source. now destruct (swapAt _ _ _ _ _). Qed.

Lemma run_snd (l : list (Z * Z)) :
  forall (A : Type) (x : Z -> F) (y : Z -> A) (p : Z),
    snd (run gt l x y) p = y (origin l x p).
Proof.
  induction l as [|[k j] l IH]; intros A x y p; [reflexivity|].
  assert (Ho : origin ((k, j) :: l) x p
               = source gt k j x (origin l (step gt k j x x) p)).
  { unfold origin at 1. cbn [run]. rewrite IH. now rewrite step_source. }
  rewrite Ho. cbn [run]. rewrite IH. now rewrite step_source.
Qed.

Lemma run_fst (l : list (Z * Z)) :
  forall (A : Type) (x : Z -> F) (y : Z -> A) (p : Z),
    fst (run gt l x y) p = x (origin l x p).
Proof.
  induction l as [|[k j] l IH]; intros A x y p; [reflexivity|].
  assert (Ho : origin ((k, j) :: l) x p
               = source gt k j x (origin l (step gt k j x x) p)).
  { unfold origin at 1. cbn [run]. rewrite run_snd. now rewrite step_source. }
  rewrite Ho. cbn [run]. rewrite IH. now rewrite step_source.
Qed.

Lemma source_range (k j : Z) (x : Z -> F) (p : Z) :
  In (k, j) steps -> 0 <= p < 128 -> 0 <= source gt k j x p < 128.
Proof.
  intros Hkj Hp. unfold source.
  destruct (swapAt _ _ _ _ _); [|exact Hp].
  apply (xor_facts Hkj Hp).
Qed.

Lemma source_involutive (k j : Z) (x : Z -> F) (p : Z) :
  In (k, j) steps -> 0 <= p < 128 ->
  source gt k j x (source gt k j x p) = p.
Proof.
  intros Hkj Hp. unfold source.
  destruct (xor_facts Hkj Hp) as (_ & Hinv & _ & Hlow & _).
  destruct (swapAt gt k j x (lower j p)) eqn:Hs.
  - rewrite Hlow, Hs. exact Hinv.
  - now rewrite Hs.
Qed.

Lemma origin_bijective (l : list (Z * Z)) :
  incl l steps ->
  forall (x : Z -> F),
    (forall p, 0 <= p < 128 -> 0 <= origin l x p < 128)
    /\ (forall p q, 0 <= p < 128 -> 0 <= q < 128 ->
          origin l x p = origin l x q -> p = q).
Proof.
  induction l as [|[k j] l IH]; intros Hl x.
  - split; [intros p Hp; exact Hp | intros p q _ _ H; exact H].
  - assert (Hkj : In (k, j) steps) by (apply Hl; now left).
    assert (Hl' : incl l steps) by (intros kj H; apply Hl; now right).
    destruct (IH Hl' (step gt k j x x)) as [Hr Hi].
    assert (Ho : forall p, origin ((k, j) :: l) x p
                           = source gt k j x (origin l (step gt k j x x) p)).
    { intros p. unfold origin at 1. cbn [run]. rewrite run_snd.
      now rewrite step_source. }
    split.
    + intros p Hp. rewrite Ho. apply source_range; auto.
    + intros p q Hp Hq. rewrite !Ho. intros H.
      apply Hi; auto.
      rewrite <- (source_involutive x Hkj (Hr p Hp)).
      rewrite <- (source_involutive x Hkj (Hr q Hq)).
      now rewrite H.
Qed.

Lemma tab_origin_perm (l : list (Z * Z)) (x : Z -> F) :
  incl l steps -> Permutation (tab (origin l x)) (range 128).
Proof.
  intros Hl. destruct (origin_bijective Hl x) as [Hr Hi].
  replace (tab (origin l x)) with (map (origin l x) (range 128))
    by (unfold tab, range; now rewrite map_map).
  apply Permutation_map_same_l.
  - apply Injective_map_NoDup_in; [|apply NoDup_range].
    intros p q Hp Hq. apply Hi; now apply in_range.
  - intros v Hv. apply in_map_iff in Hv. destruct Hv as (p & <- & Hp).
    apply in_range. apply Hr. now apply in_range.
Qed.

End Loops.

(** *** The zero-one principle *)

Lemma step_ext {F A} (gt : F -> F -> bool) (k j : Z) (x x' : Z -> F) (y y' : Z -> A) :
  (forall q, x q = x' q) -> (forall q, y q = y' q) ->
  forall p, step gt k j x y p = step gt k j x' y' p.
Proof.
  intros Hx Hy p. unfold step, swapAt. now rewrite !Hx, !Hy.
Qed.

Lemma run_ext {F} (gt : F -> F -> bool) (l : list (Z * Z)) :
  forall (A : Type) (x x' : Z -> F) (y y' : Z -> A),
    (forall q, x q = x' q) -> (forall q, y q = y' q) ->
    forall p, fst (run gt l x y) p = fst (run gt l x' y') p
              /\ snd (run gt l x y) p = snd (run gt l x' y') p.
Proof.
  induction l as [|[k j] l IH]; intros A x x' y y' Hx Hy p.
  - cbn. auto.
  - cbn [run]. apply IH; now apply step_ext.
Qed.

(** The keys after the steps [l]. *)
Definition keysAfter {F} (gt : F -> F -> bool) (l : list (Z * Z)) (x : Z -> F)
  : Z -> F :=
  fst (run gt l x x).

Lemma keysAfter_cons {F} (gt : F -> F -> bool) k j l (x : Z -> F) :
  keysAfter gt ((k, j) :: l) x = keysAfter gt l (step gt k j x x).
Proof. reflexivity. Qed.

Lemma keysAfter_ext {F} (gt : F -> F -> bool) l (x x' : Z -> F) :
  (forall q, x q = x' q) -> forall p, keysAfter gt l x p = keysAfter gt l x' p.
Proof. intros H p. unfold keysAfter. now apply run_ext. Qed.

Lemma keysAfter_app {F} (gt : F -> F -> bool) (l l' : list (Z * Z)) :
  forall (x : Z -> F), keysAfter gt (l ++ l') x = keysAfter gt l' (keysAfter gt l x).
Proof.
  induction l as [|[k j] l IH]; intros x; [reflexivity|].
  rewrite <- app_comm_cons, !keysAfter_cons. apply IH.
Qed.

Section ZeroOne.
Variable F : Type.
Variable gt : F -> F -> bool.
Variable f : F -> bool.
Hypothesis f_up : forall a b, gt a b = true -> f b = true -> f a = true.
Hypothesis f_down : forall a b, gt a b = false -> f a = true -> f b = true.

Lemma exchange_threshold (a b : F) (dir : bool) :
  f (if Bool.eqb (gt a b) dir then b else a)
  = (if Bool.eqb (gtb01 (f a) (f b)) dir then f b else f a)
  /\ f (if Bool.eqb (gt a b) dir then a else b)
  = (if Bool.eqb (gtb01 (f a) (f b)) dir then f a else f b).
Proof.
  pose proof (@f_up a b) as Hu. pose proof (@f_down a b) as Hd.
  unfold gtb01.
  destruct (gt a b), dir, (f a) eqn:Ha, (f b) eqn:Hb; cbn; split;
    try reflexivity; try assumption; try (symmetry; assumption);
    try (specialize (Hu eq_refl eq_refl); congruence);
    try (specialize (Hd eq_refl eq_refl); congruence).
Qed.

(** A threshold test commutes with a step, and so with the network. *)
Lemma step_threshold (k j : Z) (x : Z -> F) (p : Z) :
  f (step gt k j x x p)
  = step gtb01 k j (fun q => f (x q)) (fun q => f (x q)) p.
Proof.
  unfold step, swapAt, lower.
  assert (Hinv : Z.lxor (Z.lxor p j) j = p)
    by (now rewrite Z.lxor_assoc, Z.lxor_nilpotent, Z.lxor_0_r).
  destruct (Z.lxor p j >? p).
  - apply exchange_threshold.
  - rewrite Hinv. apply exchange_threshold.
Qed.

Lemma keysAfter_threshold (l : list (Z * Z)) :
  forall (x : Z -> F) (p : Z),
    f (keysAfter gt l x p) = keysAfter gtb01 l (fun q => f (x q)) p.
Proof.
  induction l as [|[k j] l IH]; intros x p; [reflexivity|].
  rewrite !keysAfter_cons, IH.
  apply keysAfter_ext. intros q. apply step_threshold.
Qed.

End ZeroOne.

(** *** The network sorts zeros and ones *)

(** The array-wide form of a step is the step. *)
Lemma sweep_step {F} (gt : F -> F -> bool) (k j : Z) (x : Z -> F) :
  In (k, j) steps -> sweep gt k j (tab x) = tab (step gt k j x x).
Proof.
  intros H. unfold steps in H.
  repeat (destruct H as [H|H];
          [injection H as <- <-; vm_compute; reflexivity|]).
  destruct H.
Qed.

Lemma turns_keys {F} (gt : F -> F -> bool) (h : Z -> Z -> list F -> list F) :
  (forall k j x, In (k, j) steps -> h k j (tab x) = tab (step gt k j x x)) ->
  forall l, incl l steps ->
  forall (x : Z -> F),
    fold_left (fun a kj => h (fst kj) (snd kj) a) l (tab x)
    = tab (keysAfter gt l x).
Proof.
  intros Hh. induction l as [|[k j] l IH]; intros Hl x; [reflexivity|].
  cbn [fold_left fst snd]. rewrite keysAfter_cons.
  rewrite Hh by (apply Hl; now left).
  apply IH. intros kj Hkj. apply Hl. now right.
Qed.

Lemma sweeps_keys {F} (gt : F -> F -> bool) (l : list (Z * Z)) (x : Z -> F) :
  incl l steps -> sweeps gt l (tab x) = tab (keysAfter gt l x).
Proof.
  intros Hl. unfold sweeps.
  apply (@turns_keys _ gt (sweep gt)); [|exact Hl].
  intros k j x' Hkj. now apply sweep_step.
Qed.

Lemma eqbList_eq (l l' : list bool) : eqbList l l' = true -> l = l'.
Proof.
  revert l'; induction l as [|a l IH]; intros [|b l']; simpl; try discriminate; auto.
  rewrite andb_true_iff. intros [H1 H2].
  apply Bool.eqb_prop in H1. subst. f_equal. now apply IH.
Qed.

Lemma stages_checked :
  forallb stageChecked [1; 2; 4; 8; 16; 32; 64] = true.
Proof. vm_compute. reflexivity. Qed.

Lemma stage_incl (k : Z) : incl (stage k) steps.
Proof. intros [k' j] H. apply stage_steps in H. apply H. Qed.

Lemma stageChecked_spec (m b z1 z2 : Z) :
  stageChecked m = true ->
  0 <= b < 128 / (2 * m) -> 0 <= z1 <= m -> 0 <= z2 <= m ->
  mergesTo m b z1 z2 = true.
Proof.
  unfold stageChecked. intros Hc Hb Hz1 Hz2.
  rewrite forallb_forall in Hc. specialize (Hc b (proj2 (in_range _ b) Hb)).
  rewrite forallb_forall in Hc.
  specialize (Hc z1 (proj2 (in_range (m + 1) z1) ltac:(lia))).
  rewrite forallb_forall in Hc.
  exact (Hc z2 (proj2 (in_range (m + 1) z2) ltac:(lia))).
Qed.

Lemma mergesTo_spec (m b z1 z2 p : Z) :
  mergesTo m b z1 z2 = true -> 0 <= p < 128 ->
  keysAfter gtb01 (stage (2 * m)) (twoHalves m b z1 z2) p
  = sortedBlock (2 * m) b (z1 + z2) p.
Proof.
  unfold mergesTo. intros Hc Hp.
  apply eqbList_eq in Hc.
  rewrite sweeps_keys in Hc by apply stage_incl.
  exact (tab_inj Hc Hp).
Qed.

(** Merging two sorted halves gives a sorted block. *)
Lemma merge_halves (m b z1 z2 p : Z) :
  In m [1; 2; 4; 8; 16; 32; 64] ->
  0 <= b < 128 / (2 * m) -> 0 <= z1 <= m -> 0 <= z2 <= m -> 0 <= p < 128 ->
  keysAfter gtb01 (stage (2 * m)) (twoHalves m b z1 z2) p
  = sortedBlock (2 * m) b (z1 + z2) p.
Proof.
  intros Hm Hb Hz1 Hz2 Hp.
  pose proof stages_checked as Hc.
  rewrite forallb_forall in Hc. specialize (Hc m Hm).
  apply mergesTo_spec; [|exact Hp].
  now apply stageChecked_spec.
Qed.

(** Cells of one block of size [K]. *)
Definition agreeOn (K c : Z) (x x' : Z -> bool) : Prop :=
  forall q, 0 <= q < 128 -> q / K = c -> x q = x' q.

Lemma step_local (K c k j : Z) (x x' : Z -> bool) :
  In (k, j) (stage K) ->
  agreeOn K c x x' ->
  agreeOn K c (step gtb01 k j x x) (step gtb01 k j x' x').
Proof.
  intros Hkj Hag q Hq Hc.
  apply stage_steps in Hkj. destruct Hkj as [Hkj ->].
  destruct (xor_facts Hkj Hq) as (H1 & _ & _ & _ & H5 & H6 & H7 & H8).
  unfold step, swapAt.
  rewrite (Hag (lower j q)) by (auto; lia).
  rewrite (Hag (Z.lxor (lower j q) j)).
  - rewrite (Hag (Z.lxor q j)) by (auto; lia).
    now rewrite (Hag q) by auto.
  - destruct (xor_facts Hkj H6) as (H1' & _). exact H1'.
  - lia.
Qed.

Lemma keysAfter_local (K c : Z) (l : list (Z * Z)) :
  incl l (stage K) ->
  forall x x', agreeOn K c x x' ->
               agreeOn K c (keysAfter gtb01 l x) (keysAfter gtb01 l x').
Proof.
  induction l as [|[k j] l IH]; intros Hl x x' Hag; [exact Hag|].
  rewrite !keysAfter_cons. apply IH.
  - intros kj H. apply Hl. now right.
  - apply step_local; [apply Hl; now left | exact Hag].
Qed.

(** After the stage [k = m], every block of [m] cells is sorted,
    ascending or descending by the parity of its index. *)
Definition blocksSorted (m : Z) (x : Z -> bool) : Prop :=
  forall c, 0 <= c < 128 / m ->
    exists z, 0 <= z <= m
              /\ forall p, m * c <= p < m * (c + 1) -> x p = sortedBlock m c z p.

Lemma blocksSorted_1 (x : Z -> bool) : blocksSorted 1 x.
Proof.
  intros c Hc. exists (if x c then 1 else 0). split.
  - destruct (x c); lia.
  - intros p Hp. assert (p = c) by lia. subst p.
    unfold sortedBlock.
    replace (c - 1 * c) with 0 by lia. cbn [Z.ltb Z.geb Z.compare orb].
    destruct (x c), (Z.even c); reflexivity.
Qed.

Lemma stage_sorts (m : Z) (x : Z -> bool) :
  In m [1; 2; 4; 8; 16; 32; 64] ->
  blocksSorted m x ->
  blocksSorted (2 * m) (keysAfter gtb01 (stage (2 * m)) x).
Proof.
  intros Hm Hx b Hb.
  assert (Hm' : 1 <= m <= 64) by (cbn in Hm; lia).
  assert (Hdiv : 128 / m = 2 * (128 / (2 * m))).
  { cbn in Hm.
    repeat (destruct Hm as [<-|Hm]; [reflexivity|]). destruct Hm. }
  destruct (Hx (2 * b) ltac:(lia)) as (z1 & Hz1 & H1).
  destruct (Hx (2 * b + 1) ltac:(lia)) as (z2 & Hz2 & H2).
  exists (z1 + z2). split; [lia|].
  intros p Hp.
  assert (Hb128 : 2 * m * (128 / (2 * m)) <= 128)
    by (apply Z.mul_div_le; lia).
  assert (Hp128 : 0 <= p < 128) by nia.
  rewrite <- merge_halves by (auto; lia).
  apply (@keysAfter_local (2 * m) b (stage (2 * m)) (incl_refl _)); auto.
  - intros q Hq Hqb.
    assert (Hqr : 2 * m * b <= q < 2 * m * (b + 1)).
    { subst b. pose proof (Z.mul_div_le q (2 * m) ltac:(lia)).
      pose proof (Z.mul_succ_div_gt q (2 * m) ltac:(lia)). lia. }
    unfold twoHalves.
    destruct (Z_lt_ge_dec q (2 * m * b + m)) as [Hlo|Hhi].
    + rewrite H1 by lia.
      replace (sortedBlock m (2 * b + 1) z2 q) with false; [now rewrite orb_false_r|].
      unfold sortedBlock.
      destruct (Z.ltb_spec (q - m * (2 * b + 1)) 0); [reflexivity|lia].
    + rewrite H2 by lia.
      replace (sortedBlock m (2 * b) z1 q) with false; [reflexivity|].
      unfold sortedBlock.
      destruct (Z.ltb_spec (q - m * (2 * b)) 0); [reflexivity|].
      destruct (Z.geb_spec (q - m * (2 * b)) m); [reflexivity|lia].
  - symmetry. apply Z.div_unique with (r := p - 2 * m * b); lia.
Qed.

Lemma stage_sorts_at (m m2 : Z) (x : Z -> bool) :
  In m [1; 2; 4; 8; 16; 32; 64] -> m2 = 2 * m ->
  blocksSorted m x ->
  blocksSorted m2 (keysAfter gtb01 (stage m2) x).
Proof. intros Hm ->. now apply stage_sorts. Qed.

Lemma stages_sort (x : Z -> bool) :
  blocksSorted 128
    (keysAfter gtb01
       (stage 2 ++ stage 4 ++ stage 8 ++ stage 16 ++ stage 32 ++ stage 64
          ++ stage 128) x).
Proof.
  rewrite !keysAfter_app.
  apply (@stage_sorts_at 64 128); [cbn; tauto | reflexivity |].
  apply (@stage_sorts_at 32 64); [cbn; tauto | reflexivity |].
  apply (@stage_sorts_at 16 32); [cbn; tauto | reflexivity |].
  apply (@stage_sorts_at 8 16); [cbn; tauto | reflexivity |].
  apply (@stage_sorts_at 4 8); [cbn; tauto | reflexivity |].
  apply (@stage_sorts_at 2 4); [cbn; tauto | reflexivity |].
  apply (@stage_sorts_at 1 2); [cbn; tauto | reflexivity |].
  apply blocksSorted_1.
Qed.

Lemma sortedBlock_whole (z p q : Z) :
  0 <= p -> p <= q -> q < 128 ->
  sortedBlock 128 0 z p = true -> sortedBlock 128 0 z q = true.
Proof.
  intros Hp Hpq Hq. unfold sortedBlock. cbn [Z.even].
  replace (p - 128 * 0) with p by lia. replace (q - 128 * 0) with q by lia.
  destruct (Z.ltb_spec p 0), (Z.geb_spec p 128), (Z.ltb_spec q 0),
    (Z.geb_spec q 128); try lia; cbn [orb].
  destruct (Z.leb_spec (128 - z) p), (Z.leb_spec (128 - z) q); try lia; auto.
Qed.

Lemma wholeSorted (a : Z -> bool) (p q : Z) :
  blocksSorted 128 a ->
  0 <= p -> p <= q -> q < 128 -> a p = true -> a q = true.
Proof.
  intros Ha Hp Hpq Hq.
  destruct (Ha 0) as (z & Hz & Hshape); [split; [lia|reflexivity]|].
  rewrite (Hshape p), (Hshape q) by lia.
  now apply sortedBlock_whole.
Qed.

(** The whole network sorts any array of zeros and ones. *)
Unset Implicit Arguments.
Lemma network_sorts_01 (x : Z -> bool) (p q : Z) :
  0 <= p -> p <= q -> q < 128 ->
  keysAfter gtb01 steps x p = true -> keysAfter gtb01 steps x q = true.
Proof.
  intros Hp Hpq Hq. rewrite steps_stages.
  exact (@wholeSorted _ p q (stages_sort x) Hp Hpq Hq).
Qed.
Set Implicit Arguments.

(** *** The network sorts *)

(** What the sort needs of [>] on keys: a strict weak order. *)
Record StrictWeakOrder {F : Type} (gt : F -> F -> bool) : Prop := {
  gt_irrefl : forall a, gt a a = false;
  gt_trans : forall a b c, gt a b = true -> gt b c = true -> gt a c = true;
  gt_cotrans : forall a b c, gt a c = true -> gt a b = true \/ gt b c = true
}.

Theorem network_sorts {F} (gt : F -> F -> bool) (x : Z -> F) (p q : Z) :
  StrictWeakOrder gt ->
  0 <= p -> p <= q -> q < 128 ->
  gt (keysAfter gt steps x p) (keysAfter gt steps x q) = false.
Proof.
  intros Hgt Hp Hpq Hq.
  destruct (gt (keysAfter gt steps x p) (keysAfter gt steps x q)) eqn:Hbad;
    [exfalso|reflexivity].
  set (c := keysAfter gt steps x q) in *.
  set (f := fun v => gt v c).
  assert (Hup : forall a b, gt a b = true -> f b = true -> f a = true).
  { intros a b Hab Hb. unfold f in *. eapply gt_trans; eauto. }
  assert (Hdown : forall a b, gt a b = false -> f a = true -> f b = true).
  { intros a b Hab Ha. unfold f in *.
    destruct (gt_cotrans Hgt a b c Ha); congruence. }
  pose proof (keysAfter_threshold gt f Hup Hdown steps x) as Hth.
  assert (H1 : keysAfter gtb01 steps (fun v => f (x v)) p = true)
    by (rewrite <- Hth; exact Hbad).
  pose proof (network_sorts_01 (fun v => f (x v)) p q Hp Hpq Hq H1) as H2.
  rewrite <- Hth in H2. fold c in H2. unfold f in H2.
  rewrite (gt_irrefl Hgt) in H2. discriminate.
Qed.

End BitonicFacts.

(* ================================================================= *)
(** ** The sort encoder's chunk                                       *)
(* ================================================================= *)

Module EncoderFacts.
Import Gl GlFacts Particle KSortEncoder Network BitonicFacts.
Local Open Scope Z_scope.

Lemma gtb_order : StrictWeakOrder Z.gtb.
Proof.
  split; intros *; rewrite ?Z.gtb_ltb, ?Z.ltb_lt, ?Z.ltb_ge, ?Z.ltb_irrefl;
    try reflexivity; lia.
Qed.

Section Encoder.
Variable F : Type.
Variable gt : F -> F -> bool.
Variable sentinel : F.
Variable zeroPos : positionAndSFC F.
Variable DATA_W N_COUNT : Z.
Variable tex : list (positionAndSFC F).
Variable offset : Z.

(** The key the first loop stores for the local index [i] of a chunk. *)
Definition chunkKey (chunk i : Z) : F :=
  key sentinel (load sentinel zeroPos DATA_W N_COUNT tex (chunk * CHUNK + offset)) i.

(** Whether the local index [i] of a chunk is a particle slot. *)
Definition inRange (chunk i : Z) : bool :=
  let gIdx := chunk * CHUNK + offset + i in
  (gIdx >=? 0) && (gIdx <? N_COUNT).


Definition loaded (chunk p : Z) : F :=
  if inRange chunk p
  then fetchSFC zeroPos DATA_W N_COUNT tex (chunk * CHUNK + offset + p)
  else sentinel.

Lemma load_tab (chunk : Z) :
  load sentinel zeroPos DATA_W N_COUNT tex (chunk * CHUNK + offset)
  = (tab (loaded chunk), tab (fun p => p)).
Proof.
  unfold load. rewrite range_CHUNK. f_equal.
Qed.

Lemma chunkKey_loaded (chunk i : Z) :
  0 <= i < CHUNK -> chunkKey chunk i = loaded chunk i.
Proof.
  intros Hi. unfold chunkKey, key. rewrite load_tab. cbn [fst].
  now apply nth_tab.
Qed.

Lemma ids_origin (chunk : Z) :
  sortedIds gt sentinel zeroPos DATA_W N_COUNT tex offset chunk = tab (origin gt steps (loaded chunk)).
Proof.
  unfold sortedIds. rewrite load_tab, bitonic_run.
  cbn [snd]. unfold origin. reflexivity.
Qed.

Lemma ids_nth (chunk p : Z) :
  0 <= p < CHUNK ->
  nth (Z.to_nat p) (sortedIds gt sentinel zeroPos DATA_W N_COUNT tex offset chunk) 0 = origin gt steps (loaded chunk) p.
Proof. intros Hp. rewrite ids_origin. now apply nth_tab. Qed.

Lemma ids_range (chunk p : Z) :
  0 <= p < CHUNK -> 0 <= nth (Z.to_nat p) (sortedIds gt sentinel zeroPos DATA_W N_COUNT tex offset chunk) 0 < CHUNK.
Proof.
  intros Hp. rewrite ids_nth by exact Hp.
  now apply (@origin_bijective _ gt steps (incl_refl steps) (loaded chunk)).
Qed.

Lemma ids_inj (chunk p q : Z) :
  0 <= p < CHUNK -> 0 <= q < CHUNK ->
  nth (Z.to_nat p) (sortedIds gt sentinel zeroPos DATA_W N_COUNT tex offset chunk) 0 = nth (Z.to_nat q) (sortedIds gt sentinel zeroPos DATA_W N_COUNT tex offset chunk) 0 ->
  p = q.
Proof.
  intros Hp Hq. rewrite !ids_nth by assumption.
  now apply (@origin_bijective _ gt steps (incl_refl steps) (loaded chunk)).
Qed.

Lemma ids_perm (chunk : Z) : Permutation (sortedIds gt sentinel zeroPos DATA_W N_COUNT tex offset chunk) (range CHUNK).
Proof. rewrite ids_origin. apply tab_origin_perm, incl_refl. Qed.

Lemma ids_key (chunk p : Z) :
  0 <= p < CHUNK ->
  chunkKey chunk (nth (Z.to_nat p) (sortedIds gt sentinel zeroPos DATA_W N_COUNT tex offset chunk) 0)
  = keysAfter gt steps (loaded chunk) p.
Proof.
  intros Hp. rewrite chunkKey_loaded by now apply ids_range.
  rewrite ids_nth by exact Hp.
  unfold keysAfter. now rewrite run_fst.
Qed.

Lemma ids_sorted (chunk p q : Z) :
  StrictWeakOrder gt ->
  0 <= p -> p <= q -> q < CHUNK ->
  gt (chunkKey chunk (nth (Z.to_nat p) (sortedIds gt sentinel zeroPos DATA_W N_COUNT tex offset chunk) 0))
     (chunkKey chunk (nth (Z.to_nat q) (sortedIds gt sentinel zeroPos DATA_W N_COUNT tex offset chunk) 0)) = false.
Proof.
  intros Hgt Hp Hpq Hq. unfold CHUNK in *.
  rewrite !ids_key by (unfold CHUNK; lia).
  now apply network_sorts.
Qed.

Lemma chunkKey_sentinel (chunk i : Z) :
  0 <= i < CHUNK -> inRange chunk i = false -> chunkKey chunk i = sentinel.
Proof.
  intros Hi Hout. rewrite chunkKey_loaded by exact Hi.
  unfold loaded. now rewrite Hout.
Qed.

Lemma chunkKey_slot (chunk i : Z) :
  0 < DATA_W -> 0 <= i < CHUNK -> inRange chunk i = true ->
  chunkKey chunk i
  = sfc (nth (Z.to_nat (chunk * CHUNK + offset + i)) tex zeroPos).
Proof.
  intros HW Hi Hin. rewrite chunkKey_loaded by exact Hi.
  unfold loaded. rewrite Hin. unfold inRange in Hin.
  apply andb_true_iff in Hin. destruct Hin as [H0 HN].
  apply Z.geb_le in H0. apply Z.ltb_lt in HN.
  set (g := chunk * CHUNK + offset + i) in *.
  unfold fetchSFC.
  assert (Hg : imod (g + N_COUNT) N_COUNT = g).
  { rewrite GlFacts.imod_mod by lia.
    rewrite <- (Z.mul_1_l N_COUNT) at 1.
    rewrite Z.mod_add by lia. apply Z.mod_small. lia. }
  cbv zeta. rewrite Hg.
  now rewrite GlFacts.texelFetch_glsl by lia.
Qed.

End Encoder.

(** [X1]  For every chunk the encoder's sorted
    local indices are a permutation of [0 .. 127]; read through them the
    chunk's keys never decrease, for any strict weak order [>] on
    keys; a local index whose global slot lies outside [0, N) has the
    sentinel key, and so comes after every index whose key is below the
    sentinel; an index inside has the SFC key of its slot.  Ties are
    left in the order the network happens to give them. *)
Theorem encoder_chunk_sorted
    (F : Type) (gt : F -> F -> bool) (sentinel : F)
    (zeroPos : positionAndSFC F) (DATA_W N_COUNT : Z)
    (tex : list (positionAndSFC F)) (offset chunk : Z) :
  let ids := sortedIds gt sentinel zeroPos DATA_W N_COUNT tex offset chunk in
  let keyOf := chunkKey sentinel zeroPos DATA_W N_COUNT tex offset chunk in
  let inside := inRange N_COUNT offset chunk in
  let at_ := fun p => nth (Z.to_nat p) ids 0 in
  StrictWeakOrder gt ->
  0 < DATA_W ->
  Permutation ids (range CHUNK)
  /\ (forall p q, 0 <= p -> p <= q -> q < CHUNK ->
        gt (keyOf (at_ p)) (keyOf (at_ q)) = false)
  /\ (forall i, 0 <= i < CHUNK -> inside i = false -> keyOf i = sentinel)
  /\ (forall i, 0 <= i < CHUNK -> inside i = true ->
        keyOf i = sfc (nth (Z.to_nat (chunk * CHUNK + offset + i)) tex zeroPos))
  /\ (forall p q, 0 <= p < CHUNK -> 0 <= q < CHUNK ->
        inside (at_ p) = false -> gt sentinel (keyOf (at_ q)) = true -> q < p).
Proof.
  intros ids keyOf inside at_ Hgt HW. subst ids keyOf inside at_.
  split; [apply ids_perm|].
  split; [intros p q Hp Hpq Hq; now apply ids_sorted|].
  split; [intros i Hi Hout; now apply chunkKey_sentinel|].
  split; [intros i Hi Hin; now apply chunkKey_slot|].
  intros p q Hp Hq Hout Hbelow.
  destruct (Z_lt_ge_dec q p) as [Hlt|Hge]; [exact Hlt|exfalso].
  pose proof (@ids_sorted F gt sentinel zeroPos DATA_W N_COUNT tex offset
                chunk p q Hgt ltac:(lia) ltac:(lia) ltac:(lia)) as Hs.
  rewrite (@chunkKey_sentinel F sentinel zeroPos DATA_W N_COUNT tex offset chunk
             (nth (Z.to_nat p)
                (sortedIds gt sentinel zeroPos DATA_W N_COUNT tex offset chunk) 0))
    in Hs; [congruence| |exact Hout].
  now apply ids_range.
Qed.

(** Three particles with the keys 3, 1, 2 in a chunk of their own: the
    emitted order starts with the slots 1, 2, 0 and the 125 slots past
    the particles follow. *)
Lemma encoder_chunk_sorted_witness :
  let tex := map (PosSFC (Vec3 0 0 0)) [3; 1; 2] in
  let ids := sortedIds Z.gtb (10 ^ 37) (PosSFC (Vec3 0 0 0) 0) 2 3 tex 0 0 in
  (Permutation ids (range CHUNK) /\ firstn 3 ids = [1; 2; 0])
  /\ 0 < 2.
Proof.
  refine ((fun HW : 0 < 2 =>
            conj (conj (proj1 (@encoder_chunk_sorted Z Z.gtb (10 ^ 37)
                                 (PosSFC (Vec3 0 0 0) 0) 2 3
                                 (map (PosSFC (Vec3 0 0 0)) [3; 1; 2]) 0 0
                                 gtb_order HW)) _) HW) _).
  - vm_compute. reflexivity.
  - lia.
Defined.

(** 128 particles with one and the same key: the local
    indices 2 and 3 tie, and the encoder emits 3 before 2; the emitted
    order starts 0, 1, 3, 2, not 0, 1, 2, 3. *)
Theorem encoder_ties_out_of_order :
  let tex := repeat (PosSFC (Vec3 0 0 0) 5) 128 in
  let zero := PosSFC (Vec3 0 0 0) 0 in
  let ids := sortedIds Z.gtb (10 ^ 37) zero 16 128 tex 0 0 in
  let keyOf := chunkKey (10 ^ 37) zero 16 128 tex 0 0 in
  keyOf 2 = keyOf 3
  /\ firstn 4 ids = [0; 1; 3; 2].
Proof. vm_compute. split; reflexivity. Qed.

End EncoderFacts.

(* ================================================================= *)
(** ** The packed atlas                                               *)
(* ================================================================= *)

Module PackFacts.
Import Gl GlFacts KSortEncoder.
Local Open Scope Z_scope.

Lemma testbit_small (a n i : Z) :
  0 <= a < 2 ^ n -> n <= i -> Z.testbit a i = false.
Proof.
  intros Ha Hi.
  destruct (Z.eq_dec a 0) as [->|Hne]; [apply Z.bits_0|].
  apply Z.bits_above_log2; [lia|].
  assert (Z.log2 a < n); [|lia].
  apply Z.log2_lt_pow2; lia.
Qed.

(** Bytes that do not overlap are added by [|]. *)
Lemma lor_add (a b n : Z) :
  0 <= n -> 0 <= a < 2 ^ n -> Z.lor a (b * 2 ^ n) = a + b * 2 ^ n.
Proof.
  intros Hn Ha.
  assert (Hland : Z.land a (b * 2 ^ n) = 0).
  { apply Z.bits_inj'. intros i Hi.
    rewrite Z.land_spec, Z.bits_0.
    destruct (Z_lt_ge_dec i n) as [Hlt|Hge].
    - rewrite Z.mul_pow2_bits_low by lia. apply andb_false_r.
    - rewrite (@testbit_small a n i) by lia. reflexivity. }
  rewrite <- Z.lxor_lor by exact Hland.
  symmetry. now apply Z.add_nocarry_lxor.
Qed.

Definition byteAt (ids : list Z) (i k : Z) : Z :=
  nth (Z.to_nat (i * 4 + k)) ids 0.

Lemma pack4_sum (ids : list Z) (i : Z) :
  (forall n, 0 <= nth n ids 0 < 256) ->
  pack4 ids i
  = byteAt ids i 0 + byteAt ids i 1 * 2 ^ 8 + byteAt ids i 2 * 2 ^ 16
    + byteAt ids i 3 * 2 ^ 24.
Proof.
  intros Hb. unfold pack4, byteAt.
  pose proof (Hb (Z.to_nat (i * 4 + 0))) as H0.
  pose proof (Hb (Z.to_nat (i * 4 + 1))) as H1.
  pose proof (Hb (Z.to_nat (i * 4 + 2))) as H2.
  pose proof (Hb (Z.to_nat (i * 4 + 3))) as H3.
  set (a := nth (Z.to_nat (i * 4 + 0)) ids 0) in *.
  set (b := nth (Z.to_nat (i * 4 + 1)) ids 0) in *.
  set (c := nth (Z.to_nat (i * 4 + 2)) ids 0) in *.
  set (d := nth (Z.to_nat (i * 4 + 3)) ids 0) in *.
  cbv zeta.
  rewrite !(@uint_small a), !(@uint_small b), !(@uint_small c),
    !(@uint_small d) by lia.
  change 255 with (Z.ones 8). rewrite !Z.land_ones by lia.
  rewrite !Z.mod_small by (change (2 ^ 8) with 256; lia).
  rewrite !Z.shiftl_mul_pow2 by lia.
  rewrite !uint_small
    by (change (2 ^ 8) with 256; change (2 ^ 16) with 65536;
        change (2 ^ 24) with 16777216; lia).
  rewrite (@lor_add a b 8) by (change (2 ^ 8) with 256; lia).
  rewrite (@lor_add (a + b * 2 ^ 8) c 16)
    by (change (2 ^ 8) with 256; change (2 ^ 16) with 65536; lia).
  rewrite (@lor_add (a + b * 2 ^ 8 + c * 2 ^ 16) d 24)
    by (change (2 ^ 8) with 256; change (2 ^ 16) with 65536;
        change (2 ^ 24) with 16777216; lia).
  reflexivity.
Qed.

(** [(packed >> (8 k)) & 0xFF] is the byte [k] of the word. *)
Lemma byte_of_pack4 (ids : list Z) (i k : Z) :
  (forall n, 0 <= nth n ids 0 < 256) -> 0 <= k < 4 ->
  Z.land (Z.shiftr (pack4 ids i) (8 * k)) 255 = byteAt ids i k.
Proof.
  intros Hb Hk. rewrite pack4_sum by exact Hb.
  pose proof (Hb (Z.to_nat (i * 4 + 0))) as H0.
  pose proof (Hb (Z.to_nat (i * 4 + 1))) as H1.
  pose proof (Hb (Z.to_nat (i * 4 + 2))) as H2.
  pose proof (Hb (Z.to_nat (i * 4 + 3))) as H3.
  unfold byteAt.
  set (a := nth (Z.to_nat (i * 4 + 0)) ids 0) in *.
  set (b := nth (Z.to_nat (i * 4 + 1)) ids 0) in *.
  set (c := nth (Z.to_nat (i * 4 + 2)) ids 0) in *.
  set (d := nth (Z.to_nat (i * 4 + 3)) ids 0) in *.
  change 255 with (Z.ones 8). rewrite Z.land_ones by lia.
  rewrite Z.shiftr_div_pow2 by lia.
  change (2 ^ 8) with 256; change (2 ^ 16) with 65536;
    change (2 ^ 24) with 16777216.
  assert (Hc : k = 0 \/ k = 1 \/ k = 2 \/ k = 3) by lia.
  destruct Hc as [ -> | [ -> | [ -> | -> ] ] ].
  - change (2 ^ (8 * 0)) with 1. fold a. clearbody a b c d.
    rewrite Z.div_1_r. symmetry.
    apply Z.mod_unique with (q := b + c * 256 + d * 65536); lia.
  - change (2 ^ (8 * 1)) with 256. fold b. clearbody a b c d.
    replace ((a + b * 256 + c * 65536 + d * 16777216) / 256)
      with (b + c * 256 + d * 65536)
      by (apply Z.div_unique with (r := a); lia).
    symmetry. apply Z.mod_unique with (q := c + d * 256); lia.
  - change (2 ^ (8 * 2)) with 65536. fold c. clearbody a b c d.
    replace ((a + b * 256 + c * 65536 + d * 16777216) / 65536)
      with (c + d * 256)
      by (apply Z.div_unique with (r := a + b * 256); lia).
    symmetry. apply Z.mod_unique with (q := d); lia.
  - change (2 ^ (8 * 3)) with 16777216. fold d. clearbody a b c d.
    replace ((a + b * 256 + c * 65536 + d * 16777216) / 16777216)
      with d
      by (apply Z.div_unique with (r := a + b * 256 + c * 65536); lia).
    symmetry. apply Z.mod_unique with (q := 0); lia.
Qed.

(** The index arithmetic of the decoder, for every local index. *)
Definition localChecked (l : Z) : bool :=
  let p := Z.shiftr l 2 in
  (Z.shiftr p 2 * 4 + Z.land p 3 =? p) && (0 <=? p) && (p <? 32)
  && (uint (Z.land l 3) * 8 =? 8 * (l mod 4))
  && (p * 4 + l mod 4 =? l) && (0 <=? l mod 4) && (l mod 4 <? 4).

Lemma local_table : forallb localChecked (range 128) = true.
Proof. vm_compute. reflexivity. Qed.

Lemma local_facts (l : Z) :
  0 <= l < 128 ->
  let p := Z.shiftr l 2 in
  Z.shiftr p 2 * 4 + Z.land p 3 = p /\ 0 <= p < 32
  /\ uint (Z.land l 3) * 8 = 8 * (l mod 4)
  /\ p * 4 + l mod 4 = l /\ 0 <= l mod 4 < 4.
Proof.
  intros Hl p.
  pose proof local_table as Ht.
  rewrite forallb_forall in Ht. specialize (Ht l (proj2 (in_range 128 l) Hl)).
  unfold localChecked in Ht. fold p in Ht.
  rewrite !andb_true_iff in Ht.
  destruct Ht as ((((((H1 & H2) & H3) & H4) & H5) & H6) & H7).
  repeat split; lia.
Qed.

(** The byte of the local index [l] in the 32 packed words. *)
Lemma decode_local (ids : list Z) (l : Z) :
  (forall n, 0 <= nth n ids 0 < 256) -> 0 <= l < 128 ->
  let texel := map (pack4 ids) (range 32) in
  let packedIndex := Z.shiftr l 2 in
  let texIdx := Z.shiftr packedIndex 2 in
  let comp := Z.land packedIndex 3 in
  let packedVal := nth (Z.to_nat (texIdx * 4 + comp)) texel 0 in
  Z.land (Z.shiftr packedVal (uint (Z.land l 3) * 8)) 255
  = nth (Z.to_nat l) ids 0.
Proof.
  intros Hb Hl texel packedIndex texIdx comp packedVal.
  destruct (local_facts Hl) as (H1 & H2 & H3 & H4 & H5).
  fold packedIndex in H1, H2, H4.
  subst packedVal texIdx comp. rewrite H1, H3.
  subst texel.
  rewrite nth_map_in with (d0 := 0) by (rewrite length_range; lia).
  rewrite nth_range by lia.
  rewrite byte_of_pack4 by assumption.
  unfold byteAt. now rewrite H4.
Qed.

(** The same for the decoder of the CSR kernels, which splits the local
    index by divisions. *)
Definition localCheckedCsr (l : Z) : bool :=
  let texIdx := idiv l 16 in
  let rem := imod l 16 in
  let comp := idiv rem 4 in
  let byteIdx := imod rem 4 in
  (texIdx * 4 + comp =? Z.shiftr l 2) && (uint byteIdx * 8 =? 8 * (l mod 4)).

Lemma local_table_csr : forallb localCheckedCsr (range 128) = true.
Proof. vm_compute. reflexivity. Qed.

Lemma decode_local_csr (ids : list Z) (l : Z) :
  (forall n, 0 <= nth n ids 0 < 256) -> 0 <= l < 128 ->
  let texel := map (pack4 ids) (range 32) in
  let texIdx := idiv l 16 in
  let rem := imod l 16 in
  let comp := idiv rem 4 in
  let byteIdx := imod rem 4 in
  let val := nth (Z.to_nat (texIdx * 4 + comp)) texel 0 in
  Z.land (Z.shiftr val (uint byteIdx * 8)) 255 = nth (Z.to_nat l) ids 0.
Proof.
  intros Hb Hl texel texIdx rem comp byteIdx val.
  destruct (local_facts Hl) as (_ & H2 & _ & H4 & H5).
  pose proof local_table_csr as Ht.
  rewrite forallb_forall in Ht. specialize (Ht l (proj2 (in_range 128 l) Hl)).
  unfold localCheckedCsr in Ht. cbv zeta in Ht.
  fold texIdx rem comp byteIdx in Ht.
  rewrite andb_true_iff, !Z.eqb_eq in Ht. destruct Ht as [Ht1 Ht2].
  subst val. rewrite Ht1, Ht2. subst texel.
  rewrite nth_map_in with (d0 := 0) by (rewrite length_range; lia).
  rewrite nth_range by lia.
  rewrite byte_of_pack4 by assumption.
  unfold byteAt. now rewrite H4.
Qed.

(** [X2]  Packing and unpacking are inverse on the encoder's output:
    in the 32 words the sort fragment emits for a chunk, the byte the
    reshuffle reads for the local index [l] (word [l >> 2], shift
    [8 (l & 3)]) and the byte the CSR kernels read for it (word
    [4 (l / 16) + (l % 16) / 4], shift [8 ((l % 16) % 4)]) are both the
    [l]-th sorted id of that chunk. *)
Theorem atlas_round_trip
    (F : Type) (gt : F -> F -> bool) (sentinel : F)
    (zeroPos : Particle.positionAndSFC F) (DATA_W ENC_W N_COUNT : Z)
    (tex : list (Particle.positionAndSFC F)) (offset : Z) (pix : Z * Z) (l : Z) :
  let texel := main gt sentinel zeroPos DATA_W ENC_W N_COUNT tex offset pix in
  let ids := sortedIds gt sentinel zeroPos DATA_W N_COUNT tex offset
               (snd pix * ENC_W + fst pix) in
  0 <= l < 128 ->
  Z.land (Z.shiftr (nth (Z.to_nat (Z.shiftr (Z.shiftr l 2) 2 * 4
                                   + Z.land (Z.shiftr l 2) 3)) texel 0)
                   (uint (Z.land l 3) * 8)) 255
  = nth (Z.to_nat l) ids 0
  /\ Z.land (Z.shiftr (nth (Z.to_nat (idiv l 16 * 4 + idiv (imod l 16) 4))
                          texel 0)
                      (uint (imod (imod l 16) 4) * 8)) 255
     = nth (Z.to_nat l) ids 0.
Proof.
  intros texel ids Hl.
  assert (Hb : forall n, 0 <= nth n ids 0 < 256).
  { intros n. subst ids.
    destruct (Nat.lt_ge_cases n 128) as [Hlt|Hge].
    - pose proof (@EncoderFacts.ids_range F gt sentinel zeroPos DATA_W N_COUNT
                    tex offset (snd pix * ENC_W + fst pix) (Z.of_nat n)) as Hr.
      rewrite Nat2Z.id in Hr. unfold CHUNK in Hr. lia.
    - rewrite nth_overflow; [lia|].
      rewrite EncoderFacts.ids_origin, BitonicFacts.length_tab. exact Hge. }
  split.
  - exact (@decode_local ids l Hb Hl).
  - exact (@decode_local_csr ids l Hb Hl).
Qed.

Lemma atlas_round_trip_witness :
  let tex := map (Particle.PosSFC (Particle.Vec3 0 0 0)) [3; 1; 2] in
  let zero := Particle.PosSFC (Particle.Vec3 0 0 0) 0 in
  let texel := main Z.gtb (10 ^ 37) zero 2 1 3 tex 0 (0, 0) in
  Z.land (Z.shiftr (nth 0 texel 0) 8) 255
  = nth 1 (sortedIds Z.gtb (10 ^ 37) zero 2 3 tex 0 0) 0
  /\ 0 <= 1 < 128.
Proof.
  refine ((fun H : 0 <= 1 < 128 =>
     conj (proj1 (@atlas_round_trip Z Z.gtb (10 ^ 37)
                    (Particle.PosSFC (Particle.Vec3 0 0 0) 0) 2 1 3
                    (map (Particle.PosSFC (Particle.Vec3 0 0 0)) [3; 1; 2]) 0
                    (0, 0) 1 H)) H) _).
  lia.
Defined.

End PackFacts.

(* ================================================================= *)
(** ** The particle reshuffle                                         *)
(* ================================================================= *)

Module ReshuffleFacts.
Import Gl GlFacts Particle KSortEncoder BitonicFacts EncoderFacts PackFacts.
Import KParticleReshuffle.
Local Open Scope Z_scope.

(** The particle of a slot, as the three textures hold it. *)
Definition particleAt {F} (zeroPos : positionAndSFC F) (zeroVel : velocity F)
    (zeroId : idMassTint F) (pos : list (positionAndSFC F))
    (vel : list (velocity F)) (ids : list (idMassTint F)) (i : Z)
  : positionAndSFC F * velocity F * idMassTint F :=
  (nth (Z.to_nat i) pos zeroPos, nth (Z.to_nat i) vel zeroVel,
   nth (Z.to_nat i) ids zeroId).

Section Gather.
Variable F : Type.
Variable gt : F -> F -> bool.
Variable sentinel : F.
Variable zeroPos : positionAndSFC F.
Variable zeroVel : velocity F.
Variable zeroId : idMassTint F.
Variable N W H encW encH offset : Z.
Variable sortTex : list (positionAndSFC F).
Variable inPos : list (positionAndSFC F).
Variable inVel : list (velocity F).
Variable inId : list (idMassTint F).

Hypothesis W_pos : 0 < W.
Hypothesis encW_pos : 0 < encW.
Hypothesis offset_nonneg : 0 <= offset.
Hypothesis atlas_fits : N <= 128 * (encW * encH).

(** The atlas the sort pass leaves. *)
Definition atlasOf : list (list Z) :=
  KSortEncoder.run gt sentinel zeroPos N W encW encH sortTex offset.

(** The slot the destination slot [i] is gathered from. *)
Definition gather (i : Z) : Z :=
  let relIdx := i - offset in
  if (relIdx <? 0) || (relIdx >=? idiv (N - offset) 128 * 128) then i
  else relIdx / 128 * 128 + offset
       + nth (Z.to_nat (relIdx mod 128))
             (sortedIds gt sentinel zeroPos W N sortTex offset (relIdx / 128)) 0.

Lemma length_sortedIds (c : Z) :
  length (sortedIds gt sentinel zeroPos W N sortTex offset c) = 128%nat.
Proof. rewrite ids_origin. apply length_tab. Qed.

Lemma sortedIds_byte (c : Z) (n : nat) :
  0 <= nth n (sortedIds gt sentinel zeroPos W N sortTex offset c) 0 < 256.
Proof.
  destruct (Nat.lt_ge_cases n 128) as [Hlt|Hge].
  - pose proof (@ids_range F gt sentinel zeroPos W N sortTex offset c
                  (Z.of_nat n)) as Hr.
    rewrite Nat2Z.id in Hr. unfold CHUNK in Hr. lia.
  - rewrite nth_overflow by (rewrite length_sortedIds; lia). lia.
Qed.

Lemma atlas_texel (c : Z) :
  0 <= c < encW * encH ->
  texelFetch [] encW atlasOf (ivec2 (c mod encW) (c / encW))
  = map (pack4 (sortedIds gt sentinel zeroPos W N sortTex offset c)) (range 32).
Proof.
  intros Hc. rewrite texelFetch_linear by lia.
  unfold atlasOf, KSortEncoder.run. rewrite nth_drawQuad by exact Hc.
  unfold KSortEncoder.main. cbn [fst snd].
  now rewrite frag_linear.
Qed.

(** Inside the sorted region the chunk of a slot is a whole chunk of
    particle slots. *)
Lemma region_chunk (i : Z) :
  0 <= i - offset -> i - offset < idiv (N - offset) 128 * 128 ->
  let c := (i - offset) / 128 in
  0 <= c /\ c * 128 + offset + 128 <= N /\ c < encW * encH
  /\ 0 <= (i - offset) mod 128 < 128
  /\ i = c * 128 + offset + (i - offset) mod 128.
Proof.
  intros H0 H1 c.
  assert (HM : 0 <= N - offset).
  { destruct (Z_lt_ge_dec (N - offset) 0) as [Hneg|]; [|lia].
    exfalso. unfold idiv in H1.
    pose proof (Z.quot_opp_l (offset - N) 128 ltac:(lia)) as Hq.
    replace (- (offset - N)) with (N - offset) in Hq by lia.
    pose proof (Z.quot_pos (offset - N) 128 ltac:(lia) ltac:(lia)). lia. }
  rewrite idiv_div in H1 by lia.
  pose proof (Z.mul_div_le (N - offset) 128 ltac:(lia)) as Hle.
  pose proof (Z.div_mod (i - offset) 128 ltac:(lia)) as Hdm.
  pose proof (Z.mod_pos_bound (i - offset) 128 ltac:(lia)) as Hmb.
  fold c in Hdm.
  assert (Hc0 : 0 <= c) by (apply Z.div_pos; lia).
  assert (Hc1 : c < (N - offset) / 128) by nia.
  repeat split; try lia; nia.
Qed.

Lemma gather_range (i : Z) : 0 <= i < N -> 0 <= gather i < N.
Proof.
  intros Hi. unfold gather. cbv zeta.
  destruct ((i - offset <? 0) || (i - offset >=? idiv (N - offset) 128 * 128))
    eqn:Hreg; [exact Hi|].
  apply orb_false_iff in Hreg. destruct Hreg as [H0 H1].
  apply Z.ltb_ge in H0. rewrite Z.geb_leb in H1. apply Z.leb_gt in H1.
  destruct (@region_chunk i H0 H1) as (Hc0 & Hc1 & _ & Hl & _).
  pose proof (@ids_range F gt sentinel zeroPos W N sortTex offset
                ((i - offset) / 128) ((i - offset) mod 128) Hl) as Hr.
  unfold CHUNK in Hr. lia.
Qed.

(** What the fragment of the slot [i] writes. *)
Lemma main_gather (i : Z) :
  0 <= i < N ->
  main zeroPos zeroVel zeroId 128 encW W N inPos inVel inId atlasOf offset
       (i mod W, i / W)
  = Some (nth (Z.to_nat (gather i)) inPos zeroPos,
          nth (Z.to_nat (gather i)) inVel zeroVel,
          nth (Z.to_nat (gather i)) inId zeroId).
Proof.
  intros Hi. pose proof (@gather_range i Hi) as Hg. revert Hg.
  unfold main, gather. cbn [fst snd]. cbv zeta.
  rewrite frag_linear by exact W_pos.
  destruct (Z.geb_spec i N) as [|_]; [lia|].
  destruct ((i - offset <? 0) || (i - offset >=? idiv (N - offset) 128 * 128))
    eqn:Hreg.
  - intros _. unfold fetchPositionAndSFC, fetchVel, fetchIdMassTintEdgePtr.
    now rewrite !texelFetch_glsl by lia.
  - intros Hg.
    apply orb_false_iff in Hreg. destruct Hreg as [H0 H1].
    apply Z.ltb_ge in H0. rewrite Z.geb_leb in H1. apply Z.leb_gt in H1.
    destruct (@region_chunk i H0 H1) as (Hc0 & Hc1 & Hc2 & Hl & Hi').
    rewrite !idiv_div, !imod_mod by lia.
    unfold fetchPackedFromOrder, Atlas.fetchPackedFromOrder.
    rewrite atlas_texel by lia.
    rewrite (@decode_local _ ((i - offset) mod 128) (sortedIds_byte _) Hl).
    set (g := (i - offset) / 128 * 128 + offset
              + nth (Z.to_nat ((i - offset) mod 128))
                  (sortedIds gt sentinel zeroPos W N sortTex offset
                     ((i - offset) / 128)) 0) in *.
    destruct (Z.ltb_spec g 0) as [|_]; [lia|].
    destruct (Z.geb_spec g N) as [|_]; [lia|].
    cbn [orb].
    unfold fetchPositionAndSFC, fetchVel, fetchIdMassTintEdgePtr.
    now rewrite !texelFetch_glsl by lia.
Qed.

Lemma gather_chunk (i : Z) :
  0 <= i - offset -> i - offset < idiv (N - offset) 128 * 128 ->
  0 <= gather i - offset < idiv (N - offset) 128 * 128
  /\ (gather i - offset) / 128 = (i - offset) / 128
  /\ (gather i - offset) mod 128
     = nth (Z.to_nat ((i - offset) mod 128))
           (sortedIds gt sentinel zeroPos W N sortTex offset
              ((i - offset) / 128)) 0.
Proof.
  intros H0 H1.
  destruct (@region_chunk i H0 H1) as (Hc0 & Hc1 & Hc2 & Hl & Hi').
  pose proof (@ids_range F gt sentinel zeroPos W N sortTex offset
                ((i - offset) / 128) ((i - offset) mod 128) Hl) as Hr.
  unfold CHUNK in Hr.
  unfold gather. cbv zeta.
  destruct (Z.ltb_spec (i - offset) 0) as [|_]; [lia|].
  destruct (Z.geb_spec (i - offset) (idiv (N - offset) 128 * 128)) as [|_]; [lia|].
  cbn [orb].
  set (c := (i - offset) / 128) in *.
  set (v := nth (Z.to_nat ((i - offset) mod 128))
              (sortedIds gt sentinel zeroPos W N sortTex offset c) 0) in *.
  replace (c * 128 + offset + v - offset) with (v + c * 128) by lia.
  rewrite Z.div_add, Z.mod_add by lia.
  rewrite Z.div_small, Z.mod_small by lia.
  repeat split; lia.
Qed.

Lemma gather_inj (i j : Z) :
  0 <= i < N -> 0 <= j < N -> gather i = gather j -> i = j.
Proof.
  intros Hi Hj Heq.
  set (M := idiv (N - offset) 128 * 128) in *.
  assert (Hout : forall k, ((k - offset <? 0) || (k - offset >=? M)) = true ->
                           gather k = k).
  { intros k Hk. unfold gather. cbv zeta. fold M. now rewrite Hk. }
  assert (Hin : forall k, ((k - offset <? 0) || (k - offset >=? M)) = false ->
                          0 <= k - offset /\ k - offset < M).
  { intros k Hk. apply orb_false_iff in Hk. destruct Hk as [H0 H1].
    apply Z.ltb_ge in H0. rewrite Z.geb_leb in H1. apply Z.leb_gt in H1. lia. }
  assert (Hbool : forall k, 0 <= k - offset < M ->
                            ((k - offset <? 0) || (k - offset >=? M)) = false).
  { intros k Hk. apply orb_false_iff. split; [apply Z.ltb_ge; lia|].
    rewrite Z.geb_leb. apply Z.leb_gt. lia. }
  destruct ((i - offset <? 0) || (i - offset >=? M)) eqn:Hri;
    destruct ((j - offset <? 0) || (j - offset >=? M)) eqn:Hrj.
  - rewrite !Hout in Heq by assumption. exact Heq.
  - destruct (Hin j Hrj) as [Hj0 Hj1].
    destruct (@gather_chunk j Hj0 Hj1) as (Hg & _).
    rewrite <- Heq, (Hout i Hri) in Hg.
    rewrite (Hbool i Hg) in Hri. discriminate.
  - destruct (Hin i Hri) as [Hi0 Hi1].
    destruct (@gather_chunk i Hi0 Hi1) as (Hg & _).
    rewrite Heq, (Hout j Hrj) in Hg.
    rewrite (Hbool j Hg) in Hrj. discriminate.
  - destruct (Hin i Hri) as [Hi0 Hi1]. destruct (Hin j Hrj) as [Hj0 Hj1].
    destruct (@gather_chunk i Hi0 Hi1) as (_ & Hci & Hli).
    destruct (@gather_chunk j Hj0 Hj1) as (_ & Hcj & Hlj).
    destruct (@region_chunk i Hi0 Hi1) as (_ & _ & _ & Hl1 & Hi').
    destruct (@region_chunk j Hj0 Hj1) as (_ & _ & _ & Hl2 & Hj').
    rewrite Heq in Hci, Hli.
    assert (Hc : (i - offset) / 128 = (j - offset) / 128) by congruence.
    rewrite Hc in Hli.
    assert (Hl : (i - offset) mod 128 = (j - offset) mod 128).
    { apply (@ids_inj F gt sentinel zeroPos W N sortTex offset
               ((j - offset) / 128)); [exact Hl1|exact Hl2|congruence]. }
    lia.
Qed.

Lemma gather_perm : Permutation (map gather (range N)) (range N).
Proof.
  apply Permutation_map_same_l.
  - apply Injective_map_NoDup_in; [|apply NoDup_range].
    intros i j Hi Hj. apply gather_inj; now apply in_range.
  - intros v Hv. apply in_map_iff in Hv. destruct Hv as (i & <- & Hi).
    apply in_range. apply gather_range. now apply in_range.
Qed.

(** The decoder of the prefix-sum and relocation kernels reads the same
    source slot as the reshuffle. *)
Lemma getOldID_gather (p : Z) :
  N <= 4294967296 -> 0 <= p < N ->
  Atlas.getOldID encW N atlasOf offset p = gather p.
Proof.
  intros Hint Hp. unfold Atlas.getOldID, gather. cbv zeta.
  destruct ((p - offset <? 0) || (p - offset >=? idiv (N - offset) 128 * 128))
    eqn:Hreg; [apply uint_small; lia|].
  apply orb_false_iff in Hreg. destruct Hreg as [H0 H1].
  apply Z.ltb_ge in H0. rewrite Z.geb_leb in H1. apply Z.leb_gt in H1.
  destruct (@region_chunk p H0 H1) as (Hc0 & Hc1 & Hc2 & Hl & Hp').
  rewrite (@idiv_div (p - offset) 128), (@imod_mod (p - offset) 128) by lia.
  rewrite (@idiv_div ((p - offset) / 128) encW),
    (@imod_mod ((p - offset) / 128) encW) by lia.
  unfold Atlas.fetchPackedFromOrder.
  rewrite atlas_texel by lia.
  rewrite (@decode_local_csr _ ((p - offset) mod 128) (sortedIds_byte _) Hl).
  pose proof (@ids_range F gt sentinel zeroPos W N sortTex offset
                ((p - offset) / 128) ((p - offset) mod 128) Hl) as Hr.
  unfold CHUNK in Hr.
  unfold uadd. rewrite (@uint_small ((p - offset) / 128 * 128 + offset)) by lia.
  apply uint_small. lia.
Qed.

Lemma getOldID_perm :
  N <= 4294967296 ->
  Permutation (map (Atlas.getOldID encW N atlasOf offset) (range N)) (range N).
Proof.
  intros Hint.
  rewrite (map_ext_in (Atlas.getOldID encW N atlasOf offset) gather)
    by (intros p Hp; apply getOldID_gather; [exact Hint|now apply in_range]).
  apply gather_perm.
Qed.

Variable out0 : targets F.
Hypothesis viewport_fits : N <= W * H.

Lemma run_gather (i : Z) :
  0 <= i < N ->
  let out := KParticleReshuffle.run zeroPos zeroVel zeroId N W H encW 128 out0
               inPos inVel inId atlasOf offset in
  particleAt zeroPos zeroVel zeroId (outParticlePositionAndSFC out)
    (outParticleVelocity out) (outIdMassTintEdgePtr out) i
  = particleAt zeroPos zeroVel zeroId inPos inVel inId (gather i).
Proof.
  intros Hi out. subst out. unfold particleAt, KParticleReshuffle.run.
  cbn [outParticlePositionAndSFC outParticleVelocity outIdMassTintEdgePtr].
  rewrite !nth_drawQuadOver by lia.
  rewrite (@main_gather i Hi). reflexivity.
Qed.

End Gather.

(** [X3]  The reshuffle pass, fed the atlas of the sort pass, gathers every
    slot below [N] whole (position, velocity and id/mass texel from one
    source slot), and the source slots are a permutation of [0 .. N-1]:
    the particles after the pass are the particles before it, in
    another order. *)
Theorem reshuffle_permutes_particles
    (F : Type) (gt : F -> F -> bool) (sentinel : F)
    (zeroPos : positionAndSFC F) (zeroVel : velocity F) (zeroId : idMassTint F)
    (N W H encW encH offset : Z)
    (sortTex inPos : list (positionAndSFC F)) (inVel : list (velocity F))
    (inId : list (idMassTint F)) (out0 : targets F) :
  let atlas := KSortEncoder.run gt sentinel zeroPos N W encW encH sortTex offset in
  let out := KParticleReshuffle.run zeroPos zeroVel zeroId N W H encW 128 out0
               inPos inVel inId atlas offset in
  let before := particleAt zeroPos zeroVel zeroId inPos inVel inId in
  let after := particleAt zeroPos zeroVel zeroId
                 (outParticlePositionAndSFC out) (outParticleVelocity out)
                 (outIdMassTintEdgePtr out) in
  0 < W -> 0 < encW -> 0 <= offset -> N <= W * H -> N <= 128 * (encW * encH) ->
  (exists src : Z -> Z,
      Permutation (map src (range N)) (range N)
      /\ forall i, 0 <= i < N -> after i = before (src i))
  /\ Permutation (map after (range N)) (map before (range N)).
Proof.
  intros atlas out before after HW HencW Hoff HN Hfit.
  set (src := gather gt sentinel zeroPos N W offset sortTex).
  assert (Hperm : Permutation (map src (range N)) (range N))
    by (now apply gather_perm with (encW := encW) (encH := encH)).
  assert (Hsrc : forall i, 0 <= i < N -> after i = before (src i)).
  { intros i Hi. subst after before out src.
    change atlas with (atlasOf gt sentinel zeroPos N W encW encH offset sortTex).
    apply run_gather; assumption. }
  split; [exists src; split; assumption|].
  rewrite (map_ext_in after (fun i => before (src i)))
    by (intros i Hi; apply Hsrc; now apply in_range).
  rewrite <- (map_map src before).
  now apply Permutation_map.
Qed.

(** One full chunk of 128 particles whose keys descend with the slot:
    the pass leaves the same 128 particles. *)
Lemma reshuffle_permutes_particles_witness :
  let zp := PosSFC (Vec3 0 0 0) 0 in
  let zv := Vel (Vec3 0 0 0) 0 in
  let zi := IdMass 0 0 0 0 in
  let pos := map (fun i => PosSFC (Vec3 i 0 0) (128 - i)) (range 128) in
  let vel := map (fun i => Vel (Vec3 0 i 0) 0) (range 128) in
  let ids := map (fun i => IdMass i 1 0 0) (range 128) in
  let blank := {| outParticlePositionAndSFC := [];
                  outParticleVelocity := [];
                  outIdMassTintEdgePtr := [] |} in
  let atlas := KSortEncoder.run Z.gtb (10 ^ 37) zp 128 16 1 1 pos 0 in
  let out := KParticleReshuffle.run zp zv zi 128 16 9 1 128 blank pos vel ids
               atlas 0 in
  Permutation
    (map (particleAt zp zv zi (outParticlePositionAndSFC out)
            (outParticleVelocity out) (outIdMassTintEdgePtr out)) (range 128))
    (map (particleAt zp zv zi pos vel ids) (range 128)).
Proof.
  refine (proj2 (@reshuffle_permutes_particles Z Z.gtb (10 ^ 37)
                   (PosSFC (Vec3 0 0 0) 0) (Vel (Vec3 0 0 0) 0) (IdMass 0 0 0 0)
                   128 16 9 1 1 0
                   (map (fun i => PosSFC (Vec3 i 0 0) (128 - i)) (range 128))
                   (map (fun i => PosSFC (Vec3 i 0 0) (128 - i)) (range 128))
                   (map (fun i => Vel (Vec3 0 i 0) 0) (range 128))
                   (map (fun i => IdMass i 1 0 0) (range 128))
                   {| outParticlePositionAndSFC := [];
                      outParticleVelocity := [];
                      outIdMassTintEdgePtr := [] |} _ _ _ _ _)); lia.
Defined.

(** [X4]  The old slot the prefix-sum and relocation kernels
    compute for a new slot ([getOldID]) is the slot the reshuffle
    gathered that particle from, and over the slots [0 .. N-1] it is a
    permutation. *)
Theorem getOldID_is_reshuffle_source
    (F : Type) (gt : F -> F -> bool) (sentinel : F)
    (zeroPos : positionAndSFC F) (zeroVel : velocity F) (zeroId : idMassTint F)
    (N W H encW encH offset : Z)
    (sortTex inPos : list (positionAndSFC F)) (inVel : list (velocity F))
    (inId : list (idMassTint F)) (out0 : targets F) :
  let atlas := KSortEncoder.run gt sentinel zeroPos N W encW encH sortTex offset in
  let out := KParticleReshuffle.run zeroPos zeroVel zeroId N W H encW 128 out0
               inPos inVel inId atlas offset in
  let old := Atlas.getOldID encW N atlas offset in
  0 < W -> 0 < encW -> 0 <= offset -> N <= W * H -> N <= 128 * (encW * encH) ->
  N <= 4294967296 ->
  (forall p, 0 <= p < N ->
     particleAt zeroPos zeroVel zeroId (outParticlePositionAndSFC out)
       (outParticleVelocity out) (outIdMassTintEdgePtr out) p
     = particleAt zeroPos zeroVel zeroId inPos inVel inId (old p))
  /\ Permutation (map old (range N)) (range N).
Proof.
  intros atlas out old HW HencW Hoff HN Hfit Hint.
  subst out old.
  change atlas with (atlasOf gt sentinel zeroPos N W encW encH offset sortTex).
  split.
  - intros p Hp.
    rewrite (@getOldID_gather F gt sentinel zeroPos N W encW encH offset
               sortTex HencW Hoff Hfit p Hint Hp).
    apply run_gather; assumption.
  - apply getOldID_perm; assumption.
Qed.

Lemma getOldID_is_reshuffle_source_witness :
  let zp := PosSFC (Vec3 0 0 0) 0 in
  let pos := map (fun i => PosSFC (Vec3 i 0 0) (128 - i)) (range 128) in
  let atlas := KSortEncoder.run Z.gtb (10 ^ 37) zp 128 16 1 1 pos 0 in
  Permutation (map (Atlas.getOldID 1 128 atlas 0) (range 128)) (range 128).
Proof.
  refine (proj2 (@getOldID_is_reshuffle_source Z Z.gtb (10 ^ 37)
                   (PosSFC (Vec3 0 0 0) 0) (Vel (Vec3 0 0 0) 0) (IdMass 0 0 0 0)
                   128 16 9 1 1 0
                   (map (fun i => PosSFC (Vec3 i 0 0) (128 - i)) (range 128))
                   [] [] []
                   {| outParticlePositionAndSFC := [];
                      outParticleVelocity := [];
                      outIdMassTintEdgePtr := [] |} _ _ _ _ _ _)); lia.
Defined.

End ReshuffleFacts.

(* ================================================================= *)
(** ** The orchestrator: texture sizes and one relayout               *)
(* ================================================================= *)

Module SizeFacts.
Import Gl GlFacts GraphLayout.
Local Open Scope Z_scope.

Lemma pow2CeilSqrt_spec (c : Z) :
  0 < c ->
  let w := pow2CeilSqrt c in
  0 < w /\ c <= w * w /\ w < 2 * c /\ exists k, 0 <= k /\ w = 2 ^ k.
Proof.
  intros Hc w. subst w. unfold pow2CeilSqrt.
  destruct (Z.leb_spec c 0) as [|_]; [lia|].
  pose proof (Z.sqrt_up_spec c Hc) as Hs.
  pose proof (proj2 (Z.sqrt_up_pos c) Hc) as Hs0.
  pose proof (Z.sqrt_up_le_lin c ltac:(lia)) as Hs1.
  set (s := Z.sqrt_up c) in *.
  pose proof (Z.log2_up_nonneg s) as Hk.
  assert (Hw : s <= 2 ^ Z.log2_up s < 2 * s).
  { destruct (Z.eq_dec s 1) as [->|Hne]; [simpl; lia|].
    pose proof (Z.log2_up_spec s ltac:(lia)) as Hl.
    assert (Hp : 2 ^ Z.log2_up s = 2 * 2 ^ Z.pred (Z.log2_up s)).
    { rewrite <- Z.pow_succ_r.
      - f_equal. lia.
      - assert (0 < Z.log2_up s) by (apply Z.log2_up_pos; lia). lia. }
    lia. }
  repeat split; try lia; try nia.
  exists (Z.log2_up s). split; [exact Hk|reflexivity].
Qed.

Lemma ceilDiv_spec (a b : Z) :
  0 < b -> 0 <= a ->
  a <= ceilDiv a b * b < a + b /\ 0 <= ceilDiv a b.
Proof.
  intros Hb Ha. unfold ceilDiv.
  destruct (Z.leb_spec b 0) as [|_]; [lia|].
  pose proof (Z.div_mod (a + b - 1) b ltac:(lia)) as Hdm.
  pose proof (Z.mod_pos_bound (a + b - 1) b Hb) as Hm.
  assert (0 <= (a + b - 1) / b) by (apply Z.div_pos; lia).
  nia.
Qed.

Lemma ceilDiv_pos (a b : Z) : 0 < b -> 0 < a -> 0 < ceilDiv a b.
Proof.
  intros Hb Ha. destruct (ceilDiv_spec Hb (Z.lt_le_incl _ _ Ha)) as [H1 H2]. nia.
Qed.

End SizeFacts.

Module RunFacts.
Import Gl GlFacts Particle GraphLayout SizeFacts.
Local Open Scope Z_scope.

(** What the kernels need of the engine's texture sizes. *)
Definition sized {F} (g : engine F) : Prop :=
  sortSpanSize g = 128
  /\ 0 <= passCounter g
  /\ 0 <= particleCount g
  /\ 0 < particleDataWidth g
  /\ particleCount g + 1 <= particleDataWidth g * particleDataHeight g
  /\ particleDataWidth g * particleDataHeight g < 4294967296
  /\ 0 < encodedSortOrderWidth g
  /\ particleCount g
     <= 128 * (encodedSortOrderWidth g * encodedSortOrderHeight g).

(** The CSR pointers of the engine are in order from 0 to the edge
    count. *)
Definition validCSR {F} (g : engine F) : Prop :=
  let ptr i := nth (Z.to_nat i) (texEdgePtr g) 0 in
  ptr 0 = 0
  /\ (forall i, 0 <= i < particleCount g -> ptr i <= ptr (i + 1))
  /\ ptr (particleCount g) = edgeCount g.

(** [X9]  The texture sizes the constructor derives hold what
    they must, for at least one particle, one edge and a stride of at
    least 1: the particle textures have room for the [N + 1] pointers
    with no row to spare, the sort atlas has a texel for every chunk of
    128 slots, the edge store a texel for every edge, the coarse map a
    texel for the coarse slot of every edge, and every width is a power
    of two. *)
Theorem construct_capacities
    (F : Type) (zeroPos : positionAndSFC F) (zeroVel : velocity F)
    (zeroId : idMassTint F) (N E stride : Z)
    (texPos : list (positionAndSFC F)) (texVel : list (velocity F))
    (texId : list (idMassTint F)) (texPtr texStore : list Z) :
  let g := construct zeroPos zeroVel zeroId N E stride texPos texVel texId
             texPtr texStore in
  1 <= N -> 1 <= E -> 1 <= stride ->
  (N + 1 <= particleDataWidth g * particleDataHeight g
   /\ particleDataWidth g * (particleDataHeight g - 1) < N + 1)
  /\ N <= 128 * (encodedSortOrderWidth g * encodedSortOrderHeight g)
  /\ E <= edgeStoreWidth g * edgeStoreHeight g
  /\ (forall e, 0 <= e < E -> e / stride < coarseWidth g * coarseHeight g)
  /\ (forall w,
        In w [particleDataWidth g; encodedSortOrderWidth g; edgeStoreWidth g;
              coarseWidth g] ->
        exists k, 0 <= k /\ w = 2 ^ k).
Proof.
  intros g HN HE Hs. subst g. unfold construct.
  cbn [particleDataWidth particleDataHeight encodedSortOrderWidth
       encodedSortOrderHeight edgeStoreWidth edgeStoreHeight coarseWidth
       coarseHeight].
  destruct (@pow2CeilSqrt_spec (N + 1) ltac:(lia)) as (Hw0 & _ & _ & Hwk).
  destruct (@ceilDiv_spec (N + 1) (pow2CeilSqrt (N + 1)) Hw0 ltac:(lia)) as [Hh _].
  pose proof (@ceilDiv_pos N 128 ltac:(lia) ltac:(lia)) as Hc.
  destruct (@pow2CeilSqrt_spec (ceilDiv N 128) Hc) as (He0 & _ & _ & Hek).
  destruct (@ceilDiv_spec N (128 * pow2CeilSqrt (ceilDiv N 128)) ltac:(lia)
              ltac:(lia)) as [Heh _].
  destruct (@pow2CeilSqrt_spec E ltac:(lia)) as (Hs0 & _ & _ & Hsk).
  destruct (@ceilDiv_spec E (pow2CeilSqrt E) Hs0 ltac:(lia)) as [Hsh _].
  pose proof (@ceilDiv_pos E stride ltac:(lia) ltac:(lia)) as Hcs.
  destruct (@ceilDiv_spec E stride ltac:(lia) ltac:(lia)) as [Hcd _].
  destruct (@pow2CeilSqrt_spec (ceilDiv E stride) Hcs) as (Hc0 & _ & _ & Hck).
  destruct (@ceilDiv_spec (ceilDiv E stride) (pow2CeilSqrt (ceilDiv E stride))
              Hc0 ltac:(lia)) as [Hch _].
  split; [split; lia|]. split; [lia|]. split; [lia|]. split.
  - intros e He.
    assert (e / stride < ceilDiv E stride)
      by (apply Z.div_lt_upper_bound; lia).
    lia.
  - intros w [<-|[<-|[<-|[<-|[]]]]]; assumption.
Qed.

Lemma construct_capacities_witness :
  let g := construct (PosSFC (Vec3 0 0 0) 0) (Vel (Vec3 0 0 0) 0)
             (IdMass 0 0 0 0) 384 3 128 [] [] [] [] [] in
  (particleDataWidth g, particleDataHeight g, encodedSortOrderWidth g,
   encodedSortOrderHeight g) = (32, 13, 2, 2)
  /\ 3 <= edgeStoreWidth g * edgeStoreHeight g.
Proof.
  split; [reflexivity|].
  refine (proj1 (proj2 (proj2 (@construct_capacities Z (PosSFC (Vec3 0 0 0) 0)
            (Vel (Vec3 0 0 0) 0) (IdMass 0 0 0 0) 384 3 128 [] [] [] [] []
            _ _ _)))); lia.
Defined.

(** The constructed engine is sized for its kernels. *)
Lemma construct_sized
    (F : Type) (zeroPos : positionAndSFC F) (zeroVel : velocity F)
    (zeroId : idMassTint F) (N E stride : Z)
    (texPos : list (positionAndSFC F)) (texVel : list (velocity F))
    (texId : list (idMassTint F)) (texPtr texStore : list Z) :
  1 <= N -> N + 1 <= 1073741824 ->
  sized (construct zeroPos zeroVel zeroId N E stride texPos texVel texId
           texPtr texStore).
Proof.
  intros HN Hmax. unfold sized, construct.
  cbn [sortSpanSize passCounter particleCount particleDataWidth
       particleDataHeight encodedSortOrderWidth encodedSortOrderHeight].
  destruct (@pow2CeilSqrt_spec (N + 1) ltac:(lia)) as (Hw0 & _ & Hw2 & _).
  destruct (@ceilDiv_spec (N + 1) (pow2CeilSqrt (N + 1)) Hw0 ltac:(lia)) as [Hh _].
  pose proof (@ceilDiv_pos N 128 ltac:(lia) ltac:(lia)) as Hc.
  destruct (@pow2CeilSqrt_spec (ceilDiv N 128) Hc) as (He0 & _ & _ & _).
  destruct (@ceilDiv_spec N (128 * pow2CeilSqrt (ceilDiv N 128)) ltac:(lia)
              ltac:(lia)) as [Heh _].
  repeat split; lia.
Qed.

Section Relayout.
Variable F : Type.
Variable gt : F -> F -> bool.
Variable sentinelKey : F.
Variable zeroPos : positionAndSFC F.
Variable zeroVel : velocity F.
Variable zeroId : idMassTint F.
Variable undefinedUint : Z -> Z.
Variable g : engine F.

Definition sortOffsetOf : Z := (passCounter g mod 2) * (sortSpanSize g / 2).

(** The atlas the sort pass of this [run] writes. *)
Definition atlasNow : list (list Z) :=
  ReshuffleFacts.atlasOf gt sentinelKey zeroPos (particleCount g)
    (particleDataWidth g) (encodedSortOrderWidth g) (encodedSortOrderHeight g)
    sortOffsetOf (texScratchPositionAndSFC g).

(** The scratch slot the new slot [i] is filled from. *)
Definition sourceOf : Z -> Z :=
  ReshuffleFacts.gather gt sentinelKey zeroPos (particleCount g)
    (particleDataWidth g) sortOffsetOf (texScratchPositionAndSFC g).

Let g' : engine F :=
  relayout gt sentinelKey zeroPos zeroVel zeroId undefinedUint g.

Lemma relayout_constants :
  particleCount g' = particleCount g /\ edgeCount g' = edgeCount g
  /\ sortSpanSize g' = sortSpanSize g
  /\ particleDataWidth g' = particleDataWidth g
  /\ particleDataHeight g' = particleDataHeight g
  /\ encodedSortOrderWidth g' = encodedSortOrderWidth g
  /\ encodedSortOrderHeight g' = encodedSortOrderHeight g
  /\ passCounter g' = passCounter g + 1.
Proof. repeat split. Qed.

Lemma relayout_ptr :
  texEdgePtr g'
  = KEdgePrefixSum.run (particleDataWidth g) (particleDataHeight g)
      (encodedSortOrderWidth g) (particleCount g) (texEdgePtr g) atlasNow
      sortOffsetOf.
Proof. reflexivity. Qed.

(** What the reshuffle pass of this [run] writes. *)
Definition reshuffled : KParticleReshuffle.targets F :=
  KParticleReshuffle.run zeroPos zeroVel zeroId (particleCount g)
    (particleDataWidth g) (particleDataHeight g) (encodedSortOrderWidth g)
    (sortSpanSize g)
    {| KParticleReshuffle.outParticlePositionAndSFC := texPositionAndSFC g;
       KParticleReshuffle.outParticleVelocity := texVelocity g;
       KParticleReshuffle.outIdMassTintEdgePtr := texIdMassTint g |}
    (texScratchPositionAndSFC g) (texScratchVelocity g)
    (texScratchIdMassTint g) atlasNow sortOffsetOf.

Lemma relayout_particles :
  texPositionAndSFC g' = KParticleReshuffle.outParticlePositionAndSFC reshuffled
  /\ texVelocity g' = KParticleReshuffle.outParticleVelocity reshuffled
  /\ texIdMassTint g' = KParticleReshuffle.outIdMassTintEdgePtr reshuffled.
Proof. repeat split. Qed.

Lemma relayout_identity_tex :
  texIdentity g'
  = KIdentityMirror.run zeroId (particleCount g) (particleDataWidth g)
      (particleDataHeight g) (texIdMassTint g').
Proof. reflexivity. Qed.

Hypothesis g_sized : sized g.

Lemma sortOffset_nonneg : 0 <= sortOffsetOf.
Proof.
  unfold sortOffsetOf. destruct g_sized as (-> & _).
  pose proof (Z.mod_pos_bound (passCounter g) 2 ltac:(lia)).
  change (128 / 2) with 64. lia.
Qed.

Lemma relayout_sized : sized g'.
Proof.
  destruct g_sized as (H1 & H2 & H3 & H4 & H5 & H6 & H7 & H8).
  unfold sized. destruct relayout_constants as (-> & _ & -> & -> & -> & -> & -> & ->).
  repeat split; try assumption; lia.
Qed.

Lemma old_perm :
  Permutation
    (map (Atlas.getOldID (encodedSortOrderWidth g) (particleCount g) atlasNow
            sortOffsetOf) (range (particleCount g)))
    (range (particleCount g)).
Proof.
  destruct g_sized as (H1 & H2 & H3 & H4 & H5 & H6 & H7 & H8).
  unfold atlasNow.
  apply ReshuffleFacts.getOldID_perm;
    [exact H7 | exact sortOffset_nonneg | exact H8 | lia].
Qed.

(** The slots after the relayout hold the scratch particles, gathered
    whole. *)
Lemma relayout_slot (i : Z) :
  0 <= i < particleCount g ->
  ReshuffleFacts.particleAt zeroPos zeroVel zeroId (texPositionAndSFC g')
    (texVelocity g') (texIdMassTint g') i
  = ReshuffleFacts.particleAt zeroPos zeroVel zeroId
      (texScratchPositionAndSFC g) (texScratchVelocity g)
      (texScratchIdMassTint g) (sourceOf i).
Proof.
  intros Hi.
  destruct g_sized as (H1 & H2 & H3 & H4 & H5 & H6 & H7 & H8).
  destruct relayout_particles as (-> & -> & ->).
  unfold reshuffled. rewrite H1.
  unfold atlasNow, sourceOf.
  apply ReshuffleFacts.run_gather;
    [exact H4 | exact H7 | exact sortOffset_nonneg | exact H8 | lia | exact Hi].
Qed.

Lemma sourceOf_perm :
  Permutation (map sourceOf (range (particleCount g))) (range (particleCount g)).
Proof.
  destruct g_sized as (H1 & H2 & H3 & H4 & H5 & H6 & H7 & H8).
  unfold sourceOf.
  apply ReshuffleFacts.gather_perm with (encW := encodedSortOrderWidth g)
                                        (encH := encodedSortOrderHeight g);
    first [assumption | exact sortOffset_nonneg].
Qed.

Lemma sourceOf_range (i : Z) :
  0 <= i < particleCount g -> 0 <= sourceOf i < particleCount g.
Proof.
  intros Hi. apply in_range.
  eapply Permutation_in; [exact sourceOf_perm|].
  apply in_map. now apply in_range.
Qed.

Lemma sourceOf_inj (i j : Z) :
  0 <= i < particleCount g -> 0 <= j < particleCount g ->
  sourceOf i = sourceOf j -> i = j.
Proof.
  destruct g_sized as (H1 & H2 & H3 & H4 & H5 & H6 & H7 & H8).
  unfold sourceOf.
  apply ReshuffleFacts.gather_inj with (encW := encodedSortOrderWidth g)
                                       (encH := encodedSortOrderHeight g);
    first [assumption | exact sortOffset_nonneg].
Qed.

End Relayout.

(** One relayout keeps the CSR pointers valid and the engine sized,
    with fewer than [2^23] edges (the scan adds floats). *)
Lemma relayout_csr
    (F : Type) (gt : F -> F -> bool) (sentinelKey : F)
    (zeroPos : positionAndSFC F) (zeroVel : velocity F) (zeroId : idMassTint F)
    (undefinedUint : Z -> Z) (g : engine F) :
  sized g -> validCSR g -> edgeCount g < 8388608 ->
  sized (relayout gt sentinelKey zeroPos zeroVel zeroId undefinedUint g)
  /\ validCSR (relayout gt sentinelKey zeroPos zeroVel zeroId undefinedUint g).
Proof.
  intros Hs (Hc0 & Hc1 & Hc2) HE.
  split; [now apply relayout_sized|].
  pose proof (@old_perm F gt sentinelKey zeroPos g Hs) as Hperm.
  destruct Hs as (H1 & H2 & H3 & H4 & H5 & H6 & H7 & H8).
  unfold validCSR.
  destruct (@relayout_constants F gt sentinelKey zeroPos zeroVel zeroId
              undefinedUint g)
    as (-> & -> & _).
  rewrite relayout_ptr.
  cbv zeta in Hc0, Hc2.
  destruct (@PrefixSumFacts.new_pointers _ _ _ _ _ _ _ H4 (conj H5 H6) H3 Hperm
              Hc1 ltac:(lia) ltac:(lia))
    as (N1 & N2 & N3).
  cbv zeta in N1, N2, N3.
  split; [exact N1|]. split; [exact N2|]. cbv zeta. rewrite N3. cbv zeta in Hc0, Hc2. lia.
Qed.

(** The PID of a slot. *)
Definition pidOf {F} (zeroId : idMassTint F) (ids : list (idMassTint F))
    (i : Z) : Z :=
  pid (nth (Z.to_nat i) ids zeroId).

(** The PIDs of the slots [0 .. N-1] are pairwise distinct texel indices
    of a [W x H] texture. *)
Definition pidsValid {F} (zeroId : idMassTint F) (N T : Z)
    (ids : list (idMassTint F)) : Prop :=
  (forall i, 0 <= i < N -> 0 <= pidOf zeroId ids i < T)
  /\ (forall i j, 0 <= i < N -> 0 <= j < N ->
        pidOf zeroId ids i = pidOf zeroId ids j -> i = j).

(** The identity texture inverts the PIDs of the slots. *)
Definition identityInverts {F} (zeroId : idMassTint F) (N T : Z)
    (ids : list (idMassTint F)) (identity : list Z) : Prop :=
  (forall i, 0 <= i < N ->
     nth (Z.to_nat (pidOf zeroId ids i)) identity 0 = i)
  /\ (forall t, 0 <= t < T ->
        (forall i, 0 <= i < N -> pidOf zeroId ids i <> t) ->
        nth (Z.to_nat t) identity 0 = -1).

(** After one relayout the new slots hold the scratch particles'
    PIDs, still valid. *)
Lemma relayout_pids
    (F : Type) (gt : F -> F -> bool) (sentinelKey : F)
    (zeroPos : positionAndSFC F) (zeroVel : velocity F) (zeroId : idMassTint F)
    (undefinedUint : Z -> Z) (g : engine F) :
  let g' := relayout gt sentinelKey zeroPos zeroVel zeroId undefinedUint g in
  let N := particleCount g in
  let T := particleDataWidth g * particleDataHeight g in
  sized g ->
  pidsValid zeroId N T (texScratchIdMassTint g) ->
  pidsValid zeroId N T (texIdMassTint g').
Proof.
  intros g' N T Hs [Hrange Hinj].
  assert (Hpid : forall i, 0 <= i < N ->
                   pidOf zeroId (texIdMassTint g') i
                   = pidOf zeroId (texScratchIdMassTint g)
                       (sourceOf gt sentinelKey zeroPos g i)).
  { intros i Hi.
    pose proof (@relayout_slot F gt sentinelKey zeroPos zeroVel zeroId
                  undefinedUint g Hs i Hi)
      as Hslot.
    apply (f_equal snd) in Hslot.
    unfold ReshuffleFacts.particleAt in Hslot. cbn [snd] in Hslot.
    unfold pidOf. subst g'. now rewrite Hslot. }
  split.
  - intros i Hi. rewrite Hpid by exact Hi.
    apply Hrange. now apply sourceOf_range.
  - intros i j Hi Hj. rewrite !Hpid by assumption. intros Heq.
    apply Hinj in Heq; try (now apply sourceOf_range).
    now apply sourceOf_inj in Heq.
Qed.

(** After one relayout the identity texture inverts the new PIDs, on
    particle textures of at most [2^23] texels (PIDs and slot indices
    pass through floats). *)
Lemma relayout_identity
    (F : Type) (gt : F -> F -> bool) (sentinelKey : F)
    (zeroPos : positionAndSFC F) (zeroVel : velocity F) (zeroId : idMassTint F)
    (undefinedUint : Z -> Z) (g : engine F) :
  let g' := relayout gt sentinelKey zeroPos zeroVel zeroId undefinedUint g in
  let N := particleCount g in
  let T := particleDataWidth g * particleDataHeight g in
  sized g ->
  T <= 8388608 ->
  pidsValid zeroId N T (texScratchIdMassTint g) ->
  pidsValid zeroId N T (texIdMassTint g')
  /\ identityInverts zeroId N T (texIdMassTint g') (texIdentity g').
Proof.
  intros g' N T Hs HT Hp.
  pose proof (@relayout_pids F gt sentinelKey zeroPos zeroVel zeroId
                undefinedUint g Hs Hp) as Hv.
  cbv zeta in Hv. fold g' N T in Hv.
  split; [exact Hv|].
  assert (HW : 0 < particleDataWidth g) by apply Hs.
  destruct Hv as [Hr' Hi'].
  subst g'. rewrite relayout_identity_tex.
  destruct (@IdentityFacts.mirror_run_spec F zeroId N (particleDataWidth g)
              (particleDataHeight g)
              (texIdMassTint (relayout gt sentinelKey zeroPos zeroVel zeroId
                                undefinedUint g))
              HW HT Hr' Hi')
    as (I1 & I2 & _).
  split; [exact I1|exact I2].
Qed.

End RunFacts.

(* ================================================================= *)
(** ** The physics integrator                                         *)
(* ================================================================= *)

Module VecFacts.
Import Particle KPhysicsSimulation.
Local Open Scope R_scope.

Lemma vec3_eq (a b : vec3 R) :
  vx a = vx b -> vy a = vy b -> vz a = vz b -> a = b.
Proof. destruct a, b. simpl. intros -> -> ->. reflexivity. Qed.

Ltac vec := apply vec3_eq; cbn [vadd vsub vscale vzero vx vy vz]; try ring.

Lemma vadd_zero_l (a : vec3 R) : vadd vzero a = a.
Proof. vec. Qed.


Lemma vadd_assoc (a b c : vec3 R) : vadd (vadd a b) c = vadd a (vadd b c).
Proof. vec. Qed.

Lemma vadd_comm (a b : vec3 R) : vadd a b = vadd b a.
Proof. vec. Qed.

Lemma vscale_zero (a : vec3 R) : vscale a 0 = vzero.
Proof. vec. Qed.


(** The sum of a list of vectors. *)
Definition vsum (l : list (vec3 R)) : vec3 R := fold_right vadd vzero l.

Lemma vsum_app (l l' : list (vec3 R)) : vsum (l ++ l') = vadd (vsum l) (vsum l').
Proof.
  induction l as [|a l IH]; simpl.
  - now rewrite vadd_zero_l.
  - now rewrite IH, vadd_assoc.
Qed.



End VecFacts.

Module PhysicsFacts.
Import Gl GlFacts Particle KPhysicsSimulation VecFacts.
Local Open Scope R_scope.

Section Kernel.
Variable WINDOW DATA_W PARTICLE_COUNT EDGE_STORE_W : Z.
Variable uPos : list (positionAndSFC R).
Variable uVel : list (velocity R).
Variable uMass : list (idMassTint R).
Variable uEdgePtr uEdgeStore : list Z.
Variable u_dt u_G u_springK u_eps u_damping : R.

Hypothesis DATA_W_pos : (0 < DATA_W)%Z.

Definition ptrOf (i : Z) : Z := nth (Z.to_nat i) uEdgePtr 0%Z.
Definition storeOf (e : Z) : Z := nth (Z.to_nat e) uEdgeStore 0%Z.












(** What the fragment of a particle slot writes. *)
Definition shaded (idx : Z) : outputs :=
  match main WINDOW DATA_W PARTICLE_COUNT EDGE_STORE_W uPos uVel uMass uEdgePtr
             uEdgeStore u_dt u_G u_springK u_eps u_damping idx with
  | Some o => o
  | None => (zeroPos, zeroVel, zeroId)
  end.

Lemma main_some (idx : Z) :
  (idx < PARTICLE_COUNT)%Z ->
  main WINDOW DATA_W PARTICLE_COUNT EDGE_STORE_W uPos uVel uMass uEdgePtr
       uEdgeStore u_dt u_G u_springK u_eps u_damping idx
  = Some (shaded idx).
Proof.
  intros Hidx. unfold shaded, main.
  rewrite Z.geb_leb. destruct (Z.leb_spec PARTICLE_COUNT idx) as [|_]; [lia|].
  reflexivity.
Qed.

(** A point draw of the kernel into one target: slot [i] receives its
    fragment's output, every texel from [N] on is left as it was. *)
Lemma points_spec {A} (sel : outputs -> A) (DATA_H : Z) (fb : list A) (d : A) :
  length fb = Z.to_nat (DATA_W * DATA_H) ->
  (0 <= PARTICLE_COUNT <= DATA_W * DATA_H)%Z ->
  let out :=
    drawPoints fb DATA_W DATA_H PARTICLE_COUNT
      (vertex WINDOW DATA_W PARTICLE_COUNT EDGE_STORE_W uPos uVel uMass
         uEdgePtr uEdgeStore u_dt u_G u_springK u_eps u_damping sel) in
  (forall i, (0 <= i < PARTICLE_COUNT)%Z ->
     nth (Z.to_nat i) out d = sel (shaded i))
  /\ (forall t, (PARTICLE_COUNT <= t)%Z ->
        nth (Z.to_nat t) out d = nth (Z.to_nat t) fb d).
Proof.
  intros Hlen HN out. subst out. rewrite PointFacts.drawPoints_drawn.
  set (vs := vertex WINDOW DATA_W PARTICLE_COUNT EDGE_STORE_W uPos uVel uMass
               uEdgePtr uEdgeStore u_dt u_G u_springK u_eps u_damping sel).
  assert (Hvs : forall k, (0 <= k < PARTICLE_COUNT)%Z ->
                  vs k = ((k mod DATA_W, k / DATA_W)%Z, Some (sel (shaded k)))).
  { intros k Hk. unfold vs, vertex.
    rewrite main_some, imod_mod, idiv_div by lia. reflexivity. }
  assert (Hland : forall k, (0 <= k < PARTICLE_COUNT)%Z ->
                    PointFacts.landing DATA_W vs k = k).
  { intros k Hk. unfold PointFacts.landing. rewrite Hvs by exact Hk.
    cbn [fst snd]. now apply frag_linear. }
  destruct (@PointFacts.drawn_spec A DATA_W DATA_H vs fb d
              (Z.to_nat PARTICLE_COUNT) Hlen) as [H1 H2].
  - intros k Hk. rewrite Z2Nat.id in Hk by lia.
    exists (k mod DATA_W)%Z, (k / DATA_W)%Z, (sel (shaded k)).
    split; [now apply Hvs|].
    split; [apply Z.mod_pos_bound; lia|].
    split; [apply Z.div_pos; lia|].
    apply Z.div_lt_upper_bound; lia.
  - intros j k Hj Hk. rewrite Z2Nat.id in Hj, Hk by lia.
    rewrite !Hland by assumption. auto.
  - split.
    + intros i Hi.
      specialize (H1 i ltac:(rewrite Z2Nat.id by lia; exact Hi)).
      rewrite Hland, Hvs in H1 by exact Hi. cbn [snd] in H1.
      now injection H1.
    + intros t Ht. apply H2; [lia|].
      intros k Hk. rewrite Z2Nat.id in Hk by lia.
      rewrite Hland by exact Hk. lia.
Qed.

End Kernel.

Import KParticleReshuffle.






(** [X12]  The physics pass draws one point per particle:
    every texel of its targets from index [N] on keeps what the target
    held before (in [run], the sentinel pattern). *)
Theorem physics_leaves_rest
    (N W H ESW WINDOW : Z) (G springK eps damping dt : R) (out : targets R)
    (inPos : list (positionAndSFC R)) (inVel : list (velocity R))
    (inId : list (idMassTint R)) (inPtr inStore : list Z) (t : Z) :
  let res := KPhysicsSimulation.run N W H ESW WINDOW G springK eps damping out
               inPos inVel inId inPtr inStore dt in
  (0 < W)%Z -> (0 <= N <= W * H)%Z -> (N <= t)%Z ->
  length (outParticlePositionAndSFC out) = Z.to_nat (W * H) ->
  length (outParticleVelocity out) = Z.to_nat (W * H) ->
  length (outIdMassTintEdgePtr out) = Z.to_nat (W * H) ->
  nth (Z.to_nat t) (outParticlePositionAndSFC res) zeroPos
  = nth (Z.to_nat t) (outParticlePositionAndSFC out) zeroPos
  /\ nth (Z.to_nat t) (outParticleVelocity res) zeroVel
     = nth (Z.to_nat t) (outParticleVelocity out) zeroVel
  /\ nth (Z.to_nat t) (outIdMassTintEdgePtr res) zeroId
     = nth (Z.to_nat t) (outIdMassTintEdgePtr out) zeroId.
Proof.
  intros res HW HN Ht L1 L2 L3.
  subst res. unfold KPhysicsSimulation.run.
  cbn [outParticlePositionAndSFC outParticleVelocity outIdMassTintEdgePtr].
  repeat split.
  - apply (proj2 (@points_spec WINDOW W N ESW inPos inVel inId inPtr inStore
                    dt G springK eps damping HW _ (fun o => fst (fst o)) H _
                    zeroPos L1 HN)); exact Ht.
  - apply (proj2 (@points_spec WINDOW W N ESW inPos inVel inId inPtr inStore
                    dt G springK eps damping HW _ (fun o => snd (fst o)) H _
                    zeroVel L2 HN)); exact Ht.
  - apply (proj2 (@points_spec WINDOW W N ESW inPos inVel inId inPtr inStore
                    dt G springK eps damping HW _ (fun o => snd o) H _
                    zeroId L3 HN)); exact Ht.
Qed.

Lemma physics_leaves_rest_witness :
  let out := {| outParticlePositionAndSFC :=
                  [zeroPos; PosSFC (Vec3 1001 1002 1003) 1004];
                outParticleVelocity := [zeroVel; zeroVel];
                outIdMassTintEdgePtr := [zeroId; zeroId] |} in
  let res := KPhysicsSimulation.run 1 2 1 1 1 1 1 1 0 out
               [PosSFC (Vec3 3 0 0) 0] [Vel (Vec3 1 0 0) 0] [IdMass 7 1 0 0]
               [0; 0]%Z [] 1 in
  nth 1 (outParticlePositionAndSFC res) zeroPos
  = PosSFC (Vec3 1001 1002 1003) 1004.
Proof.
  refine (proj1 (@physics_leaves_rest 1 2 1 1 1 1 1 1 0 1
            {| outParticlePositionAndSFC :=
                 [zeroPos; PosSFC (Vec3 1001 1002 1003) 1004];
               outParticleVelocity := [zeroVel; zeroVel];
               outIdMassTintEdgePtr := [zeroId; zeroId] |}
            [PosSFC (Vec3 3 0 0) 0] [Vel (Vec3 1 0 0) 0] [IdMass 7 1 0 0]
            [0; 0]%Z [] 1%Z _ _ _ _ _ _)).
  - lia.
  - lia.
  - lia.
  - reflexivity.
  - reflexivity.
  - reflexivity.
Defined.

Lemma ratio_bound (x l : R) : 0 < l -> - l <= x <= l -> -1 <= x / l <= 1.
Proof.
  intros Hl Hx.
  assert (Hi : 0 < / l) by now apply Rinv_0_lt_compat.
  assert (H1 : l * / l = 1) by (field; lra).
  unfold Rdiv. split; nra.
Qed.

Lemma Rabs_bound (x : R) : - Rabs x <= x <= Rabs x /\ 0 <= Rabs x.
Proof.
  unfold Rabs. destruct (Rcase_abs x); lra.
Qed.

Lemma Rabs_unit (u : R) : -1 <= u <= 1 -> 0 <= 1 - Rabs u <= 1.
Proof. intros Hu. unfold Rabs. destruct (Rcase_abs u); lra. Qed.

(** [X13]  The SFC key of a position with finite coordinates
    (the positions over the reals are those) lies in [[-3, 3]], so it is
    below the key [1.0e37] the sort gives a slot out of range.  A
    position with an infinite or NaN coordinate is outside this
    statement. *)
Theorem getSFCKey_bounded (p : vec3 R) :
  -3 <= getSFCKey p <= 3 /\ Tick.gt 1.0e37 (getSFCKey p) = true.
Proof.
  assert (Hb : -3 <= getSFCKey p <= 3).
  { unfold getSFCKey. cbv zeta.
    destruct (Rabs_bound (vx p)) as [Hx Hx0].
    destruct (Rabs_bound (vy p)) as [Hy Hy0].
    destruct (Rabs_bound (vz p)) as [Hz Hz0].
    set (l1 := Rabs (vx p) + Rabs (vy p) + Rabs (vz p) + 1e-20).
    assert (Hl : Rabs (vx p) + Rabs (vy p) + Rabs (vz p) < l1)
      by (subst l1; unfold Q2R; cbn [Qnum Qden]; lra).
    assert (Hux : -1 <= vx p / l1 <= 1) by (apply ratio_bound; lra).
    assert (Huy : -1 <= vy p / l1 <= 1) by (apply ratio_bound; lra).
    pose proof (Rabs_unit Hux) as Hax. pose proof (Rabs_unit Huy) as Hay.
    replace 2.0 with 2 by (unfold Q2R; cbn [Qnum Qden]; field).
    destruct (lt0 (vz p)); [|lra].
    destruct (ge0 (vx p / l1)), (ge0 (vy p / l1)); lra. }
  split; [exact Hb|].
  unfold Tick.gt. destruct (Rgt_dec 1.0e37 (getSFCKey p)) as [|Hn]; [reflexivity|].
  exfalso. apply Hn. apply Rlt_gt.
  apply Rle_lt_trans with 3; [lra|].
  unfold Q2R. cbn [Qnum Qden]. lra.
Qed.

End PhysicsFacts.

(* ================================================================= *)
(** ** One tick of the engine: [run()]                                *)
(* ================================================================= *)

Module TickFacts.
Import Gl GlFacts Particle GraphLayout RunFacts PhysicsFacts Tick.
Import KPhysicsSimulation.
Local Open Scope Z_scope.

Section OneTick.
(** The platform's undefined [uint] conversions, the parameters and the
    engine. *)
Variable u : Z -> Z.
Variable q : parameters.
Variable g : engine R.

(** The engine as the relayout passes find it: the physics output in
    the scratch textures. *)
Definition integrated : engine R := withScratch g (physicsPass q g).

Lemma run_relayout :
  Tick.run u q g = relayout gt 1.0e37%R zeroPos zeroVel zeroId u integrated.
Proof. reflexivity. Qed.

Lemma integrated_sized : sized g -> sized integrated.
Proof. intros Hs. exact Hs. Qed.

Lemma integrated_csr : validCSR g -> validCSR integrated.
Proof. intros Hc. exact Hc. Qed.

Hypothesis g_sized : sized g.

Lemma sentinel_lengths :
  length (KParticleReshuffle.outParticlePositionAndSFC (sentinelPass g))
  = Z.to_nat (particleDataWidth g * particleDataHeight g)
  /\ length (KParticleReshuffle.outParticleVelocity (sentinelPass g))
     = Z.to_nat (particleDataWidth g * particleDataHeight g)
  /\ length (KParticleReshuffle.outIdMassTintEdgePtr (sentinelPass g))
     = Z.to_nat (particleDataWidth g * particleDataHeight g).
Proof. repeat split; apply length_drawQuad. Qed.

(** The scratch texels of the slot [i] after the physics pass. *)
Lemma integrated_slot (i : Z) :
  0 <= i < particleCount g ->
  ReshuffleFacts.particleAt zeroPos zeroVel zeroId
    (texScratchPositionAndSFC integrated) (texScratchVelocity integrated)
    (texScratchIdMassTint integrated) i
  = shaded (gravityWindow q) (particleDataWidth g) (particleCount g)
      (edgeStoreWidth g) (texPositionAndSFC g) (texVelocity g)
      (texIdMassTint g) (texEdgePtr g) (texEdgeStore g) (dt q) (G q)
      (springK q) (eps q) (damping q) i.
Proof.
  intros Hi.
  destruct g_sized as (H1 & H2 & H3 & H4 & H5 & H6 & H7 & H8).
  destruct sentinel_lengths as (L1 & L2 & L3).
  unfold integrated, withScratch, ReshuffleFacts.particleAt.
  cbn [texScratchPositionAndSFC texScratchVelocity texScratchIdMassTint].
  unfold physicsPass, KPhysicsSimulation.run.
  cbn [KParticleReshuffle.outParticlePositionAndSFC
       KParticleReshuffle.outParticleVelocity
       KParticleReshuffle.outIdMassTintEdgePtr].
  rewrite (proj1 (@points_spec (gravityWindow q) (particleDataWidth g)
                    (particleCount g) (edgeStoreWidth g) (texPositionAndSFC g)
                    (texVelocity g) (texIdMassTint g) (texEdgePtr g)
                    (texEdgeStore g) (dt q) (G q) (springK q) (eps q)
                    (damping q) H4 _ (fun o => fst (fst o))
                    (particleDataHeight g) _ zeroPos L1 ltac:(lia))) by exact Hi.
  rewrite (proj1 (@points_spec (gravityWindow q) (particleDataWidth g)
                    (particleCount g) (edgeStoreWidth g) (texPositionAndSFC g)
                    (texVelocity g) (texIdMassTint g) (texEdgePtr g)
                    (texEdgeStore g) (dt q) (G q) (springK q) (eps q)
                    (damping q) H4 _ (fun o => snd (fst o))
                    (particleDataHeight g) _ zeroVel L2 ltac:(lia))) by exact Hi.
  rewrite (proj1 (@points_spec (gravityWindow q) (particleDataWidth g)
                    (particleCount g) (edgeStoreWidth g) (texPositionAndSFC g)
                    (texVelocity g) (texIdMassTint g) (texEdgePtr g)
                    (texEdgeStore g) (dt q) (G q) (springK q) (eps q)
                    (damping q) H4 _ (fun o => snd o)
                    (particleDataHeight g) _ zeroId L3 ltac:(lia))) by exact Hi.
  now destruct (shaded _ _ _ _ _ _ _ _ _ _ _ _ _ _ i) as [[a b] c].
Qed.

(** The physics pass copies the id/mass texel of every slot. *)
Lemma integrated_id (i : Z) :
  0 <= i < particleCount g ->
  nth (Z.to_nat i) (texScratchIdMassTint integrated) zeroId
  = nth (Z.to_nat i) (texIdMassTint g) zeroId.
Proof.
  intros Hi.
  destruct g_sized as (H1 & H2 & H3 & H4 & _).
  pose proof (integrated_slot Hi) as Hs.
  apply (f_equal snd) in Hs.
  unfold ReshuffleFacts.particleAt in Hs. cbn [snd] in Hs. rewrite Hs.
  unfold shaded, KPhysicsSimulation.main.
  rewrite Z.geb_leb.
  destruct (Z.leb_spec (particleCount g) i) as [|_]; [lia|].
  cbv zeta. cbn [snd]. now rewrite texelFetch_glsl by lia.
Qed.

(** The slot of [g] whose particle the tick leaves in the slot [i]. *)
Definition movedFrom : Z -> Z := sourceOf gt 1.0e37%R zeroPos integrated.

Lemma movedFrom_perm :
  Permutation (map movedFrom (range (particleCount g)))
              (range (particleCount g)).
Proof. exact (@sourceOf_perm R gt 1.0e37%R zeroPos integrated g_sized). Qed.

Lemma movedFrom_range (i : Z) :
  0 <= i < particleCount g -> 0 <= movedFrom i < particleCount g.
Proof. exact (@sourceOf_range R gt 1.0e37%R zeroPos integrated g_sized i). Qed.


Lemma run_id (i : Z) :
  0 <= i < particleCount g ->
  nth (Z.to_nat i) (texIdMassTint (Tick.run u q g)) zeroId
  = nth (Z.to_nat (movedFrom i)) (texIdMassTint g) zeroId.
Proof.
  intros Hi. rewrite run_relayout.
  pose proof (@relayout_slot R gt 1.0e37%R zeroPos zeroVel zeroId u integrated
                g_sized i Hi) as Hs.
  apply (f_equal snd) in Hs.
  unfold ReshuffleFacts.particleAt in Hs. cbn [snd] in Hs. rewrite Hs.
  apply integrated_id. now apply movedFrom_range.
Qed.

End OneTick.

(** The id/mass texel of a slot of the engine. *)
Definition idAt (g : engine R) (i : Z) : idMassTint R :=
  nth (Z.to_nat i) (texIdMassTint g) zeroId.

(** The PIDs of the engine's particles are pairwise distinct texel
    indices of its particle textures. *)
Definition validPIDs (g : engine R) : Prop :=
  pidsValid zeroId (particleCount g)
    (particleDataWidth g * particleDataHeight g) (texIdMassTint g).

Lemma run_constants (u : Z -> Z) (q : parameters) (g : engine R) :
  particleCount (Tick.run u q g) = particleCount g
  /\ edgeCount (Tick.run u q g) = edgeCount g
  /\ particleDataWidth (Tick.run u q g) = particleDataWidth g
  /\ particleDataHeight (Tick.run u q g) = particleDataHeight g.
Proof. repeat split. Qed.

Lemma run_csr (u : Z -> Z) (q : parameters) (g : engine R) :
  sized g -> validCSR g -> edgeCount g < 8388608 ->
  sized (Tick.run u q g) /\ validCSR (Tick.run u q g).
Proof.
  intros Hs Hc HE. rewrite run_relayout.
  apply relayout_csr;
    [now apply integrated_sized|now apply integrated_csr|exact HE].
Qed.

Lemma run_ids (u : Z -> Z) (q : parameters) (g : engine R) :
  sized g ->
  Permutation (map (idAt (Tick.run u q g)) (range (particleCount g)))
              (map (idAt g) (range (particleCount g))).
Proof.
  intros Hs.
  rewrite (map_ext_in (idAt (Tick.run u q g))
             (fun i => idAt g (movedFrom q g i)))
    by (intros i Hi; apply run_id; [exact Hs|now apply in_range]).
  rewrite <- (map_map (movedFrom q g) (idAt g)).
  apply Permutation_map. now apply movedFrom_perm.
Qed.

Lemma scratch_pids (q : parameters) (g : engine R) :
  sized g -> validPIDs g ->
  pidsValid zeroId (particleCount g)
    (particleDataWidth g * particleDataHeight g)
    (texScratchIdMassTint (integrated q g)).
Proof.
  intros Hs [Hr Hi]. split.
  - intros i Hi'. unfold pidOf. rewrite integrated_id by assumption.
    now apply Hr.
  - intros i j Hi' Hj'. unfold pidOf. rewrite !integrated_id by assumption.
    now apply Hi.
Qed.

Lemma run_valid_pids (u : Z -> Z) (q : parameters) (g : engine R) :
  sized g -> validPIDs g -> validPIDs (Tick.run u q g).
Proof.
  intros Hs Hp. rewrite run_relayout.
  apply (@relayout_pids R gt 1.0e37%R zeroPos zeroVel zeroId u
           (integrated q g) (integrated_sized q Hs)).
  exact (scratch_pids q Hs Hp).
Qed.

Lemma run_pids (u : Z -> Z) (q : parameters) (g : engine R) :
  sized g -> validPIDs g ->
  particleDataWidth g * particleDataHeight g <= 8388608 ->
  validPIDs (Tick.run u q g)
  /\ identityInverts zeroId (particleCount g)
       (particleDataWidth g * particleDataHeight g)
       (texIdMassTint (Tick.run u q g)) (texIdentity (Tick.run u q g)).
Proof.
  intros Hs Hp HT. rewrite run_relayout.
  apply (@relayout_identity R gt 1.0e37%R zeroPos zeroVel zeroId u
           (integrated q g) (integrated_sized q Hs) HT).
  exact (scratch_pids q Hs Hp).
Qed.

(** Three particles with the PIDs 2, 0, 3 and the edges 0 -> 1 and
    2 -> 2, at rest. *)
Definition demoEngine : engine R :=
  construct zeroPos zeroVel zeroId 3 2 128
    [PosSFC (Vec3 1 0 0) 0; PosSFC (Vec3 0 1 0) 0; PosSFC (Vec3 0 0 1) 0]%R
    [Vel (Vec3 1 0 0) 0; zeroVel; zeroVel]%R
    [IdMass 2 1 0 0; IdMass 0 1 0 0; IdMass 3 1 0 0]%R
    [0; 1; 1; 2] [1; 2].

(** The constructor's default parameters, and the same at rest
    ([dt = 0], damping 1/2). *)
Definition demoParameters : parameters :=
  {| gravityWindow := 16; dt := 0.016; G := -0.0001; springK := 1.0;
     eps := 0.1; damping := 0.002 |}%R.


(** A platform that converts a negative float to the [uint] 0. *)
Definition demoPlatform : Z -> Z := fun _ => 0.

Lemma demo_sized : sized demoEngine.
Proof.
  unfold sized.
  change (128 = 128 /\ 0 <= 0 /\ 0 <= 3 /\ 0 < 2 /\ 3 + 1 <= 2 * 2
          /\ 2 * 2 < 4294967296 /\ 0 < 1 /\ 3 <= 128 * (1 * 1)).
  lia.
Qed.

Lemma demo_csr : validCSR demoEngine.
Proof.
  unfold validCSR, demoEngine. cbn.
  split; [reflexivity|]. split; [|reflexivity].
  intros i Hi. assert (Hc : i = 0 \/ i = 1 \/ i = 2) by lia.
  destruct Hc as [->| [->| ->]]; simpl; lia.
Qed.

Lemma demo_edges : edgeCount demoEngine < 8388608.
Proof. change (2 < 8388608). lia. Qed.

Lemma demo_texels :
  particleDataWidth demoEngine * particleDataHeight demoEngine <= 8388608.
Proof. change (2 * 2 <= 8388608). lia. Qed.

Lemma demo_pids : validPIDs demoEngine.
Proof.
  unfold validPIDs, pidsValid, pidOf, demoEngine. cbn. split.
  - intros i Hi. assert (Hc : i = 0 \/ i = 1 \/ i = 2) by lia.
    destruct Hc as [->| [->| ->]]; simpl; lia.
  - intros i j Hi Hj.
    assert (Hc : (i = 0 \/ i = 1 \/ i = 2) /\ (j = 0 \/ j = 1 \/ j = 2)) by lia.
    destruct Hc as ([->| [->| ->]] & [->| [->| ->]]); simpl; lia.
Qed.

(** [X14]  CSR validity is kept by a tick: if the engine is sized
    for its kernels, its pointers run in order from [ptr[0] = 0] to
    [ptr[N] = E] and it has fewer than [2^23] edges (the pointers are
    summed in floats), the same holds after [run()], whatever the
    particles do and on every platform. *)
Theorem run_keeps_csr (u : Z -> Z) (q : parameters) (g : engine R) :
  sized g -> validCSR g -> edgeCount g < 8388608 ->
  sized (Tick.run u q g) /\ validCSR (Tick.run u q g).
Proof. intros Hs Hc HE. now apply run_csr. Qed.

Lemma run_keeps_csr_witness :
  validCSR (Tick.run demoPlatform demoParameters demoEngine).
Proof.
  exact (proj2 (@run_keeps_csr demoPlatform demoParameters demoEngine
                  demo_sized demo_csr demo_edges)).
Defined.

(** [X15]  A tick moves particles between slots but keeps them:
    the id/mass texels of the slots [0 .. N-1] after [run()] are those
    before it, in another order. *)
Theorem run_keeps_ids (u : Z -> Z) (q : parameters) (g : engine R) :
  sized g ->
  Permutation (map (idAt (Tick.run u q g)) (range (particleCount g)))
              (map (idAt g) (range (particleCount g))).
Proof. intros Hs. now apply run_ids. Qed.

Lemma run_keeps_ids_witness :
  Permutation
    (map (idAt (Tick.run demoPlatform demoParameters demoEngine)) (range 3))
    (map (idAt demoEngine) (range 3)).
Proof.
  exact (@run_keeps_ids demoPlatform demoParameters demoEngine demo_sized).
Defined.

(** [X16]  After a tick the identity texture maps every
    particle's PID to the slot the particle now occupies, and holds [-1]
    at every other texel, provided the PIDs were pairwise distinct
    texel indices before and the particle textures have at most [2^23]
    texels (PIDs and slot indices pass through floats); the PIDs are
    still distinct texel indices after. *)
Theorem run_identity_inverse (u : Z -> Z) (q : parameters) (g : engine R) :
  sized g -> validPIDs g ->
  particleDataWidth g * particleDataHeight g <= 8388608 ->
  validPIDs (Tick.run u q g)
  /\ identityInverts zeroId (particleCount g)
       (particleDataWidth g * particleDataHeight g)
       (texIdMassTint (Tick.run u q g)) (texIdentity (Tick.run u q g)).
Proof. intros Hs Hp HT. now apply run_pids. Qed.

Lemma run_identity_inverse_witness :
  validPIDs (Tick.run demoPlatform demoParameters demoEngine).
Proof.
  exact (proj1 (@run_identity_inverse demoPlatform demoParameters demoEngine
                  demo_sized demo_pids demo_texels)).
Defined.



(** [X18]  The layout invariants hold after any number of
    ticks: from an engine that is sized, with valid CSR pointers, valid
    PIDs and fewer than [2^23] edges, [n] calls of [run()] give an
    engine that is sized, with valid CSR pointers and valid PIDs, the
    same particle and edge counts, and the same id/mass texels in
    another order. *)
Theorem run_invariants (u : Z -> Z) (q : parameters) (g : engine R) (n : nat) :
  sized g -> validCSR g -> validPIDs g -> edgeCount g < 8388608 ->
  let g' := Nat.iter n (Tick.run u q) g in
  sized g' /\ validCSR g' /\ validPIDs g'
  /\ particleCount g' = particleCount g /\ edgeCount g' = edgeCount g
  /\ Permutation (map (idAt g') (range (particleCount g)))
                 (map (idAt g) (range (particleCount g))).
Proof.
  intros Hs Hc Hp HE g'. subst g'. induction n as [|n IH]; cbn [Nat.iter].
  - split; [exact Hs|]. split; [exact Hc|]. split; [exact Hp|].
    split; [reflexivity|]. split; [reflexivity|apply Permutation_refl].
  - destruct IH as (I1 & I2 & I3 & I4 & I5 & I6).
    set (h := Nat.iter n (Tick.run u q) g) in *.
    change (Nat.iter (S n) (Tick.run u q) g) with (Tick.run u q h).
    destruct (run_constants u q h) as (K1 & K2 & _).
    destruct (run_csr u q I1 I2 ltac:(lia)) as [J1 J2].
    pose proof (run_valid_pids u q I1 I3) as J3.
    split; [exact J1|]. split; [exact J2|]. split; [exact J3|].
    split; [congruence|]. split; [congruence|].
    eapply Permutation_trans; [|exact I6].
    rewrite <- I4. now apply run_ids.
Qed.

Lemma run_invariants_witness :
  validCSR (Nat.iter 2 (Tick.run demoPlatform demoParameters) demoEngine).
Proof.
  exact (proj1 (proj2 (@run_invariants demoPlatform demoParameters demoEngine
                         2 demo_sized demo_csr demo_pids demo_edges))).
Defined.

End TickFacts.

(* ================================================================= *)
(** ** Edge relocation                                                *)
(* ================================================================= *)

Module RelocationFacts.
Import Gl GlFacts FloatFacts Particle KEdgeRelocation.
Local Open Scope Z_scope.

Section Owner.
Variable F : Type.
Variable zeroId : idMassTint F.
Variable encodedSortOrderWidth edgeStoreWidth edgeCount particleCount
         particleDataWidth : Z.
Variable u_texEdgeStoreOld u_texCoarseMap u_texEdgePtrNew u_texEdgePtrOld : list Z.
Variable u_order : list (list Z).
Variable u_texIdMassTintEdgePtrOld : list (idMassTint F).
Variable u_texIdentityNew : list Z.
Variable slotsResX : Z.
Variable u_stride u_coarseWidth u_sortOffset : Z.
Variable undefinedUint : Z -> Z.

(** The new and old pointers, the old store. *)
Definition ptrNew (p : Z) : Z := nth (Z.to_nat p) u_texEdgePtrNew 0.
Definition ptrOld (p : Z) : Z := nth (Z.to_nat p) u_texEdgePtrOld 0.
Definition storeOld (e : Z) : Z := nth (Z.to_nat e) u_texEdgeStoreOld 0.

(** [p] owns the edge index [e] under the new pointers. *)
Definition owns (p e : Z) : Prop :=
  0 <= p < particleCount /\ ptrNew p <= e < ptrNew (p + 1).

(** [uint(floor(x + 0.5))] reads back a non-negative integer below
    [2^23]. *)
Lemma toUint_exact (x : Z) : 0 <= x < 8388608 -> toUint undefinedUint x = x.
Proof.
  intros Hx. unfold toUint. rewrite floorHalf_small by lia.
  apply floatToUint_defined. lia.
Qed.

Lemma toUint_range (x : Z) : 0 <= toUint undefinedUint x < 4294967296.
Proof. apply floatToUint_range. Qed.

Hypothesis width_pos : 0 < particleDataWidth < 4294967296.
Hypothesis count_small : 0 <= particleCount <= 8388608.
Hypothesis new_mono :
  forall p, 0 <= p < particleCount -> ptrNew p <= ptrNew (p + 1).
Hypothesis new_first : 0 <= ptrNew 0.
Hypothesis new_last : ptrNew particleCount < 8388608.

Lemma ptrNew_le (p q : Z) :
  0 <= p <= q -> q <= particleCount -> ptrNew p <= ptrNew q.
Proof.
  intros Hpq Hq. destruct Hpq as [Hp Hpq].
  revert Hq. pattern q. apply Zlt_lower_bound_ind with (z := p); [|exact Hpq].
  intros m IH Hm Hq.
  destruct (Z.eq_dec m p) as [->|Hne]; [lia|].
  specialize (IH (m - 1) ltac:(lia) ltac:(lia)).
  pose proof (new_mono (p := m - 1) ltac:(lia)) as Hs.
  replace (m - 1 + 1) with m in Hs by lia. lia.
Qed.

Lemma ptrNew_range (p : Z) :
  0 <= p <= particleCount -> 0 <= ptrNew p < 8388608.
Proof.
  intros Hp.
  pose proof (@ptrNew_le 0 p ltac:(lia) ltac:(lia)).
  pose proof (@ptrNew_le p particleCount ltac:(lia) ltac:(lia)). lia.
Qed.

Lemma fetchPtrNew_nth (p : Z) :
  0 <= p <= particleCount ->
  fetchPtrNew particleDataWidth u_texEdgePtrNew undefinedUint p = ptrNew p.
Proof.
  intros Hp. unfold fetchPtrNew.
  rewrite (@uint_small particleDataWidth) by lia.
  rewrite texelFetch_glsl by lia. fold (ptrNew p).
  apply toUint_exact. now apply ptrNew_range.
Qed.

Lemma owner_unique (p q e : Z) : owns p e -> owns q e -> p = q.
Proof.
  intros [Hp He] [Hq He'].
  destruct (Z.lt_trichotomy p q) as [Hlt|[Heq|Hgt]]; [|exact Heq|].
  - pose proof (@ptrNew_le (p + 1) q ltac:(lia) ltac:(lia)). lia.
  - pose proof (@ptrNew_le (q + 1) p ltac:(lia) ltac:(lia)). lia.
Qed.

(** The walk of the refinement loop: started at or before the owner of
    [e] and no more than its number of rounds away from it, it stops at
    the owner. *)
Lemma refine_owner (todo : nat) :
  forall (e p0 own : Z),
    owns own e -> 0 <= p0 <= own -> own - p0 < Z.of_nat todo ->
    refine particleCount particleDataWidth u_texEdgePtrNew undefinedUint
      todo e p0 = own.
Proof.
  induction todo as [|todo IH]; intros e p0 own Hown Hp Hgap; [lia|].
  pose proof Hown as [Hr He].
  cbn [refine].
  rewrite (@uint_small particleCount) by lia.
  rewrite Z.geb_leb. destruct (Z.leb_spec particleCount p0) as [|_]; [lia|].
  unfold uadd. rewrite (@uint_small (p0 + 1)) by lia.
  rewrite !fetchPtrNew_nth by lia.
  pose proof (@ptrNew_range p0 ltac:(lia)) as R0.
  pose proof (@ptrNew_range (p0 + 1) ltac:(lia)) as R1.
  pose proof (new_mono (p := p0) ltac:(lia)) as Hm.
  unfold usub. rewrite (@uint_small (ptrNew (p0 + 1) - ptrNew p0)) by lia.
  replace (ptrNew p0 + (ptrNew (p0 + 1) - ptrNew p0)) with (ptrNew (p0 + 1)) by lia.
  rewrite (@uint_small (ptrNew (p0 + 1))) by lia.
  destruct (Z.eq_dec p0 own) as [->|Hne].
  - rewrite Z.geb_leb.
    destruct (Z.leb_spec (ptrNew own) e), (Z.ltb_spec e (ptrNew (own + 1)));
      try lia. reflexivity.
  - pose proof (@ptrNew_le (p0 + 1) own ltac:(lia) ltac:(lia)) as Hle.
    destruct (Z.ltb_spec e (ptrNew (p0 + 1))) as [|_]; [lia|].
    rewrite andb_false_r.
    apply IH; [exact Hown|lia|lia].
Qed.

(** The entry the old store holds for the new edge index [e] owned by
    [own]: the edge at the same offset in the old range of the old slot
    of [own]. *)
Definition oldEdge (own e : Z) : Z :=
  ptrOld (getOldID encodedSortOrderWidth particleCount u_order u_sortOffset own)
  + (e - ptrNew own).

(** The new slot of a target slot, through its PID and the identity
    texture. *)
Definition translate (t : Z) : Z :=
  nth (Z.to_nat (pid (nth (Z.to_nat t) u_texIdMassTintEdgePtrOld zeroId)))
      u_texIdentityNew 0.

(** Steps 7 and 8 of the shader, from the old edge entry on. *)
Definition relocated (entry : Z) : Z :=
  let oldTargetPhys := toUint undefinedUint entry in
  if oldTargetPhys =? 4294967295 then -1
  else
    let oldTargetCoord :=
      ivec2 (imod oldTargetPhys (uint particleDataWidth))
            (idiv oldTargetPhys (uint particleDataWidth)) in
    let pidFloat :=
      pid (texelFetch zeroId particleDataWidth u_texIdMassTintEdgePtrOld
             oldTargetCoord) in
    let pid := toUint undefinedUint pidFloat in
    let identityCoord := ivec2 (imod pid (uint slotsResX))
                               (idiv pid (uint slotsResX)) in
    texelFetch 0 slotsResX u_texIdentityNew identityCoord.

Hypothesis store_width : 0 < edgeStoreWidth < 4294967296.
Hypothesis edges_small : 0 <= edgeCount < 4294967296.
Hypothesis coarse_width : 0 < u_coarseWidth.
Hypothesis stride_pos : 0 < u_stride.
Hypothesis slots_width : 0 < slotsResX < 4294967296.

(** Steps 1 to 6: the shader finds the owner and reads the old entry. *)
Lemma reloc_main_entry (e own : Z) :
  0 <= e < edgeCount ->
  owns own e ->
  (let guess := nth (Z.to_nat (e / u_stride)) u_texCoarseMap 0 in
   0 <= guess <= own /\ own - guess < 256) ->
  0 <= oldEdge own e < 4294967296 ->
  0 <= ptrOld (getOldID encodedSortOrderWidth particleCount u_order
                 u_sortOffset own) < 8388608 ->
  main zeroId encodedSortOrderWidth edgeStoreWidth edgeCount particleCount
       particleDataWidth u_texEdgeStoreOld u_texCoarseMap u_texEdgePtrNew
       u_texEdgePtrOld u_order u_texIdMassTintEdgePtrOld u_texIdentityNew
       slotsResX u_stride u_coarseWidth u_sortOffset undefinedUint
       (e mod edgeStoreWidth, e / edgeStoreWidth)
  = relocated (storeOld (oldEdge own e)).
Proof.
  intros He Hown Hguess Hold Hstart. cbv zeta in Hguess.
  pose proof Hown as [Hr Hoe].
  unfold main. cbn [fst snd]. rewrite frag_linear by lia.
  cbv zeta.
  rewrite (@uint_small e), (@uint_small edgeCount) by lia.
  rewrite Z.geb_leb. destruct (Z.leb_spec edgeCount e) as [|_]; [lia|].
  rewrite idiv_div by lia.
  rewrite texelFetch_glsl
    by (try lia; apply Z.div_pos; lia).
  rewrite (@toUint_exact (nth (Z.to_nat (e / u_stride)) u_texCoarseMap 0))
    by lia.
  rewrite (@refine_owner 256 e _ own Hown) by lia.
  rewrite fetchPtrNew_nth by lia.
  pose proof (@ptrNew_range own ltac:(lia)) as Rn.
  unfold usub. rewrite (@uint_small (e - ptrNew own)) by lia.
  unfold oldEdge, getOldID in *.
  set (pOld := Atlas.getOldID encodedSortOrderWidth particleCount u_order
                 u_sortOffset own) in *.
  assert (HpOld : 0 <= pOld < 4294967296).
  { subst pOld. unfold Atlas.getOldID. cbv zeta.
    destruct (_ || _); [apply uint_range|]. unfold uadd. apply uint_range. }
  rewrite (@uint_small particleDataWidth) by lia.
  rewrite texelFetch_glsl by lia. fold (ptrOld pOld).
  rewrite (@toUint_exact (ptrOld pOld)) by lia.
  unfold uadd. rewrite (@uint_small (ptrOld pOld + (e - ptrNew own))) by lia.
  rewrite (@uint_small edgeStoreWidth) by lia.
  rewrite texelFetch_glsl by lia.
  fold (storeOld (ptrOld pOld + (e - ptrNew own))).
  unfold relocated. rewrite (@uint_small particleDataWidth) by lia.
  reflexivity.
Qed.

(** An entry that is a slot, with a PID below [2^23], is translated. *)
Lemma relocated_target (t : Z) :
  0 <= t < 8388608 ->
  0 <= pid (nth (Z.to_nat t) u_texIdMassTintEdgePtrOld zeroId) < 8388608 ->
  relocated t = translate t.
Proof.
  intros Ht Hpid. unfold relocated, translate.
  rewrite (@toUint_exact t) by lia.
  destruct (Z.eqb_spec t 4294967295) as [|_]; [lia|].
  rewrite (@uint_small particleDataWidth) by lia.
  rewrite texelFetch_glsl by lia.
  rewrite toUint_exact by lia.
  rewrite (@uint_small slotsResX) by lia.
  now rewrite texelFetch_glsl by lia.
Qed.

(** An entry is written as [-1] exactly when its conversion gives
    [0xFFFFFFFF]. *)
Lemma relocated_sentinel (t : Z) :
  toUint undefinedUint t = 4294967295 -> relocated t = -1.
Proof. intros H. unfold relocated. rewrite H. reflexivity. Qed.

(** A fragment at or past the edge count writes the sentinel. *)
Lemma reloc_main_past (e : Z) :
  edgeCount <= e < 4294967296 ->
  main zeroId encodedSortOrderWidth edgeStoreWidth edgeCount particleCount
       particleDataWidth u_texEdgeStoreOld u_texCoarseMap u_texEdgePtrNew
       u_texEdgePtrOld u_order u_texIdMassTintEdgePtrOld u_texIdentityNew
       slotsResX u_stride u_coarseWidth u_sortOffset undefinedUint
       (e mod edgeStoreWidth, e / edgeStoreWidth)
  = -1.
Proof.
  intros He. unfold main. cbn [fst snd]. rewrite frag_linear by lia.
  cbv zeta.
  rewrite (@uint_small e), (@uint_small edgeCount) by lia.
  rewrite Z.geb_leb. destruct (Z.leb_spec edgeCount e) as [_|]; [reflexivity|lia].
Qed.

End Owner.

(** What one relocation pass writes, texel by texel. *)
Lemma relocation_run_spec
    (F : Type) (zeroId : idMassTint F) (undefinedUint : Z -> Z)
    (esW esH cW W encW stride E N : Z)
    (texStoreOld texCoarse texPtrNew texPtrOld : list Z)
    (texIdOld : list (idMassTint F)) (texIdentity : list Z)
    (atlas : list (list Z)) (offset : Z) :
  let out := KEdgeRelocation.run zeroId undefinedUint esW esH cW W encW stride
               E N texStoreOld texCoarse texPtrNew texPtrOld texIdOld
               texIdentity W atlas offset in
  0 < W < 4294967296 -> 0 <= N <= 8388608 ->
  (forall p, 0 <= p < N -> ptrNew texPtrNew p <= ptrNew texPtrNew (p + 1)) ->
  0 <= ptrNew texPtrNew 0 -> ptrNew texPtrNew N < 8388608 ->
  0 < esW -> 0 <= E -> E <= esW * esH < 4294967296 ->
  0 < cW -> 0 < stride ->
  (forall e own,
     0 <= e < E -> owns N texPtrNew own e ->
     (let guess := nth (Z.to_nat (e / stride)) texCoarse 0 in
      0 <= guess <= own /\ own - guess < 256) ->
     let eOld := oldEdge encW N texPtrNew texPtrOld atlas offset own e in
     let t := storeOld texStoreOld eOld in
     0 <= eOld < 4294967296 ->
     0 <= ptrOld texPtrOld (Atlas.getOldID encW N atlas offset own) < 8388608 ->
     (0 <= t < 8388608 ->
      0 <= pid (nth (Z.to_nat t) texIdOld zeroId) < 8388608 ->
      nth (Z.to_nat e) out 0 = translate zeroId texIdOld texIdentity t)
     /\ (toUint undefinedUint t = 4294967295 -> nth (Z.to_nat e) out 0 = -1))
  /\ (forall e, E <= e < esW * esH -> nth (Z.to_nat e) out 0 = -1).
Proof.
  intros out HW HN Hmono H0 HE HesW HE0 HEs HcW Hs.
  assert (Hstride : (if stride =? 0 then 128 else stride) = stride)
    by (destruct (Z.eqb_spec stride 0); [lia|reflexivity]).
  split.
  - intros e own He Hown Hguess eOld t HeOld Hstart.
    assert (HesH : 1 <= esH) by (destruct (Z_lt_ge_dec esH 1); [nia|lia]).
    assert (Hmain : nth (Z.to_nat e) out 0
                    = relocated zeroId W texIdOld texIdentity W undefinedUint t).
    { subst out. unfold KEdgeRelocation.run. rewrite Hstride.
      rewrite nth_drawQuad by lia.
      apply reloc_main_entry; try assumption; try lia; nia. }
    rewrite Hmain. split.
    + intros Ht Hpid. apply relocated_target; assumption || lia.
    + apply relocated_sentinel.
  - intros e He. subst out. unfold KEdgeRelocation.run. rewrite Hstride.
    rewrite nth_drawQuad by lia.
    assert (HesH : 1 <= esH) by (destruct (Z_lt_ge_dec esH 1); [nia|lia]).
    apply reloc_main_past; try lia; nia.
Qed.



(** On that platform the sentinel of the second edge is not kept: it
    is read as slot 0 and translated like a target. *)
Lemma sentinel_read_as_slot_0 :
  KEdgeRelocation.run (IdMass 0 0 0 0) (fun _ => 0) 2 1 1 2 1 128
    2 2 [1; -1] [0] [0; 1; 2] [0; 1; 2]
    [IdMass 0 1 0 0; IdMass 1 1 0 0] [0; 1; -1; -1] 2 [] 0
  = [1; 0].
Proof. vm_compute. reflexivity. Qed.

End RelocationFacts.

(* ================================================================= *)
(** ** The logical edges across a tick                                *)
(* ================================================================= *)

Module CsrFacts.
Import Gl GlFacts.
Local Open Scope Z_scope.

Lemma filter_length_perm {A} (f : A -> bool) (l l' : list A) :
  Permutation l l' -> length (filter f l) = length (filter f l').
Proof.
  induction 1 as [|x l l' _ IH|x y l|l l' l'' _ IH1 _ IH2]; cbn.
  - reflexivity.
  - destruct (f x); cbn; congruence.
  - destruct (f x), (f y); reflexivity.
  - congruence.
Qed.

Lemma filter_of_map_length {A B} (f : B -> bool) (h : A -> B) (l : list A) :
  length (filter f (map h l)) = length (filter (fun a => f (h a)) l).
Proof.
  induction l as [|a l IH]; cbn; [reflexivity|].
  destruct (f (h a)); cbn; congruence.
Qed.

Lemma flat_map_ext_range {B} (f f' : Z -> list B) (n : Z) :
  (forall i, 0 <= i < n -> f i = f' i) ->
  flat_map f (range n) = flat_map f' (range n).
Proof.
  intros H. rewrite !flat_map_concat_map. f_equal.
  apply map_ext_in. intros i Hi. apply H. now apply in_range.
Qed.

Lemma flat_map_of_map {A B C} (f : B -> list C) (h : A -> B) (l : list A) :
  flat_map f (map h l) = flat_map (fun a => f (h a)) l.
Proof.
  induction l as [|a l IH]; cbn; [reflexivity|]. now rewrite IH.
Qed.

Lemma filter_below (n : Z) :
  0 <= n ->
  forall k, 0 <= k <= n ->
    Z.of_nat (length (filter (fun p => p <? k) (range n))) = k.
Proof.
  intros Hn. pattern n. apply natlike_ind; [| |exact Hn].
  - intros k Hk. rewrite range_nonpos by lia. cbn. lia.
  - intros m Hm IH k Hk. unfold Z.succ in *. rewrite range_succ by lia.
    rewrite filter_app, length_app, Nat2Z.inj_add. cbn [filter].
    destruct (Z.ltb_spec m k) as [Hlt|Hge].
    + assert (k = m + 1) by lia. subst k. cbn [length].
      rewrite (@filter_ext_in _ (fun p => p <? m + 1) (fun p => p <? m) (range m)).
      * rewrite IH by lia. lia.
      * intros p Hp. apply in_range in Hp.
        destruct (Z.ltb_spec p (m + 1)), (Z.ltb_spec p m); lia || reflexivity.
    + cbn [length]. rewrite IH by lia. lia.
Qed.

Section Csr.
Variable ptr : Z -> Z.
Variable N : Z.
Hypothesis N_nonneg : 0 <= N.
Hypothesis mono : forall p, 0 <= p < N -> ptr p <= ptr (p + 1).

Lemma ptr_le (p q : Z) : 0 <= p <= q -> q <= N -> ptr p <= ptr q.
Proof.
  intros Hpq HqN.
  assert (H : forall d, 0 <= d -> p + d <= N -> ptr p <= ptr (p + d)).
  { intros d Hd. pattern d. apply natlike_ind; [| |exact Hd].
    - intros _. rewrite Z.add_0_r. lia.
    - intros d' Hd' IH Hle.
      replace (p + Z.succ d') with (p + d' + 1) by lia.
      pose proof (mono (p := p + d') ltac:(lia)). lia. }
  replace q with (p + (q - p)) by lia. apply H; lia.
Qed.

(** The slot [p] owns the edge index [e]. *)
Definition owner (p e : Z) : Prop := 0 <= p < N /\ ptr p <= e < ptr (p + 1).

Lemma owner_exists (e : Z) : ptr 0 <= e < ptr N -> exists p, owner p e.
Proof.
  intros He.
  assert (H : forall q, 0 <= q -> q <= N -> e < ptr q ->
                exists p, 0 <= p < q /\ ptr p <= e < ptr (p + 1)).
  { intros q Hq. pattern q. apply natlike_ind; [| |exact Hq].
    - intros _ Hlt. lia.
    - intros m Hm IH HmN Hlt.
      destruct (Z_lt_ge_dec e (ptr m)) as [Hl|Hg].
      + destruct (IH ltac:(lia) Hl) as (p & Hp & Hpe). exists p. split; [lia|exact Hpe].
      + exists m. replace (m + 1) with (Z.succ m) by lia. split; lia. }
  destruct (H N N_nonneg ltac:(lia) ltac:(lia)) as (p & Hp & Hpe).
  exists p. split; assumption.
Qed.

Lemma csr_owner_unique (p p' e : Z) : owner p e -> owner p' e -> p = p'.
Proof.
  intros [Hp He] [Hp' He'].
  destruct (Z_lt_ge_dec p p') as [Hl|Hg].
  - pose proof (@ptr_le (p + 1) p' ltac:(lia) ltac:(lia)). lia.
  - destruct (Z_lt_ge_dec p' p) as [Hl'|Hg']; [|lia].
    pose proof (@ptr_le (p' + 1) p ltac:(lia) ltac:(lia)). lia.
Qed.

(** The owner is the number of slots whose range ends at or before
    [e]. *)
Lemma owner_count (p e : Z) :
  owner p e ->
  Z.of_nat (length (filter (fun i => ptr (i + 1) <=? e) (range N))) = p.
Proof.
  intros [Hp He].
  rewrite (@filter_ext_in _ (fun i => ptr (i + 1) <=? e) (fun i => i <? p)
             (range N)).
  - apply filter_below; lia.
  - intros i Hi. apply in_range in Hi.
    destruct (Z.ltb_spec i p) as [Hl|Hg].
    + apply Z.leb_le.
      pose proof (@ptr_le (i + 1) p ltac:(lia) ltac:(lia)). lia.
    + apply Z.leb_gt.
      pose proof (@ptr_le (p + 1) (i + 1) ltac:(lia) ltac:(lia)). lia.
Qed.

(** The number of slots below [q] that own no edge. *)
Definition zerosBelow (q : Z) : Z :=
  Z.of_nat (length (filter (fun p => ptr (p + 1) =? ptr p) (range q))).

Lemma zerosBelow_0 : zerosBelow 0 = 0.
Proof. reflexivity. Qed.

Lemma zerosBelow_succ (q : Z) :
  0 <= q ->
  zerosBelow (q + 1)
  = zerosBelow q + (if ptr (q + 1) =? ptr q then 1 else 0).
Proof.
  intros Hq. unfold zerosBelow. rewrite range_succ by exact Hq.
  rewrite filter_app, length_app, Nat2Z.inj_add. cbn [filter].
  destruct (ptr (q + 1) =? ptr q); reflexivity.
Qed.

Lemma zerosBelow_le (p q : Z) : 0 <= p <= q -> zerosBelow p <= zerosBelow q.
Proof.
  intros Hpq.
  assert (H : forall d, 0 <= d -> zerosBelow p <= zerosBelow (p + d)).
  { intros d Hd. pattern d. apply natlike_ind; [| |exact Hd].
    - rewrite Z.add_0_r. lia.
    - intros d' Hd' IH.
      replace (p + Z.succ d') with (p + d' + 1) by lia.
      rewrite zerosBelow_succ by lia.
      destruct (ptr (p + d' + 1) =? ptr (p + d')); lia. }
  replace q with (p + (q - p)) by lia. apply H; lia.
Qed.

Lemma zerosBelow_nonneg (q : Z) : 0 <= zerosBelow q.
Proof. unfold zerosBelow. lia. Qed.

(** Between two slots there are at most as many slots as edges and
    edgeless slots. *)
Lemma slots_between (p q : Z) :
  0 <= p <= q -> q <= N ->
  q - p <= ptr q - ptr p + (zerosBelow q - zerosBelow p).
Proof.
  intros Hpq HqN.
  assert (H : forall d, 0 <= d -> p + d <= N ->
                d <= ptr (p + d) - ptr p + (zerosBelow (p + d) - zerosBelow p)).
  { intros d Hd. pattern d. apply natlike_ind; [| |exact Hd].
    - intros _. rewrite Z.add_0_r. lia.
    - intros d' Hd' IH Hle.
      replace (p + Z.succ d') with (p + d' + 1) by lia.
      rewrite zerosBelow_succ by lia.
      pose proof (mono (p := p + d') ltac:(lia)).
      specialize (IH ltac:(lia)).
      destruct (Z.eqb_spec (ptr (p + d' + 1)) (ptr (p + d'))); lia. }
  specialize (H (q - p) ltac:(lia) ltac:(lia)).
  replace (p + (q - p)) with q in H by lia. exact H.
Qed.

End Csr.

(** The count of edgeless slots depends on the degrees only. *)
Lemma zerosBelow_perm (ptr ptr' : Z -> Z) (src : Z -> Z) (N : Z) :
  Permutation (map src (range N)) (range N) ->
  (forall i, 0 <= i < N ->
     ptr' (i + 1) - ptr' i = ptr (src i + 1) - ptr (src i)) ->
  zerosBelow ptr' N = zerosBelow ptr N.
Proof.
  intros Hperm Hdeg. unfold zerosBelow. f_equal.
  rewrite <- (filter_length_perm (fun p => ptr (p + 1) =? ptr p) Hperm).
  rewrite filter_of_map_length. f_equal.
  apply filter_ext_in. intros i Hi. apply in_range in Hi.
  specialize (Hdeg i Hi).
  destruct (Z.eqb_spec (ptr' (i + 1)) (ptr' i)),
           (Z.eqb_spec (ptr (src i + 1)) (ptr (src i))); lia || reflexivity.
Qed.

End CsrFacts.

Module EdgeFacts.
Import Gl GlFacts Particle GraphLayout RunFacts CsrFacts.
Local Open Scope Z_scope.

Definition ptrOf {F} (g : engine F) (p : Z) : Z :=
  nth (Z.to_nat p) (texEdgePtr g) 0.

Definition storeOf {F} (g : engine F) (e : Z) : Z :=
  nth (Z.to_nat e) (texEdgeStore g) 0.

(** What the coarse map and the relocation need of the sizes: at most
    [2^17] particles for the 17 rounds of the bisection, room for the
    edges and for one coarse texel per [stride] edges. *)
Definition edgeSized {F} (g : engine F) : Prop :=
  0 < particleCount g <= 131072
  /\ 0 < edgeStoreWidth g
  /\ edgeCount g <= edgeStoreWidth g * edgeStoreHeight g
  /\ edgeStoreWidth g * edgeStoreHeight g < 4294967296
  /\ 0 < coarseWidth g
  /\ 0 < edgeCoarseMapStride g
  /\ (forall e, 0 <= e < edgeCount g ->
        e / edgeCoarseMapStride g < coarseWidth g * coarseHeight g).

(** Every edge entry is a slot. *)
Definition validTargets {F} (g : engine F) : Prop :=
  forall e, 0 <= e < edgeCount g -> 0 <= storeOf g e < particleCount g.

(** Slot indices, PIDs and edge indices are below [2^23], where the
    float textures hold them exactly and [floor(x + 0.5)] reads them
    back. *)
Definition inFloatRange {F} (g : engine F) : Prop :=
  particleDataWidth g * particleDataHeight g <= 8388608
  /\ edgeCount g < 8388608.

(** The number of slots that own no edge. *)
Definition isolated {F} (g : engine F) : Z :=
  zerosBelow (ptrOf g) (particleCount g).

(** The 256 rounds of the relocation's refinement reach the owner from
    the coarse map's guess. *)
Definition fewIsolated {F} (g : engine F) : Prop :=
  isolated g + edgeCoarseMapStride g <= 256.

(** The pair an edge index stands for. *)
Definition edgeAt {F} (zeroId : idMassTint F) (g : engine F) (e : Z)
  : list (Z * Z) :=
  let t := nth (Z.to_nat e) (texEdgeStore g) 0 in
  if t <? 0 then [] else [(pidAt zeroId g (ownerOf g e), pidAt zeroId g t)].

Lemma logicalEdges_edgeAt {F} (zeroId : idMassTint F) (g : engine F) :
  logicalEdges zeroId g = flat_map (edgeAt zeroId g) (range (edgeCount g)).
Proof. reflexivity. Qed.

Section Relayout.
Variable F : Type.
Variable gt : F -> F -> bool.
Variable sentinelKey : F.
Variable zeroPos : positionAndSFC F.
Variable zeroVel : velocity F.
Variable zeroId : idMassTint F.
Variable undefinedUint : Z -> Z.
Variable g : engine F.

Let g' : engine F :=
  relayout gt sentinelKey zeroPos zeroVel zeroId undefinedUint g.
Let src : Z -> Z := sourceOf gt sentinelKey zeroPos g.

Hypothesis g_sized : sized g.
Hypothesis g_csr : validCSR g.
Hypothesis g_edges : edgeSized g.
Hypothesis g_float : inFloatRange g.

Lemma relayout_coarse :
  texCoarseMap g'
  = KEdgeCoarseMap.run (coarseWidth g) (coarseHeight g) (particleDataWidth g)
      (edgeCoarseMapStride g) (particleCount g) (texEdgePtr g').
Proof. reflexivity. Qed.

Lemma relayout_store :
  texEdgeStore g'
  = KEdgeRelocation.run zeroId undefinedUint (edgeStoreWidth g)
      (edgeStoreHeight g)
      (coarseWidth g) (particleDataWidth g) (encodedSortOrderWidth g)
      (edgeCoarseMapStride g) (edgeCount g) (particleCount g)
      (texEdgeStore g) (texCoarseMap g') (texEdgePtr g') (texEdgePtr g)
      (texScratchIdMassTint g) (texIdentity g') (particleDataWidth g)
      (atlasNow gt sentinelKey zeroPos g) (sortOffsetOf g).
Proof. reflexivity. Qed.

Lemma relayout_edge_constants :
  particleCount g' = particleCount g /\ edgeCount g' = edgeCount g
  /\ edgeCoarseMapStride g' = edgeCoarseMapStride g
  /\ edgeStoreWidth g' = edgeStoreWidth g
  /\ edgeStoreHeight g' = edgeStoreHeight g
  /\ coarseWidth g' = coarseWidth g /\ coarseHeight g' = coarseHeight g.
Proof. repeat split. Qed.

Lemma old_is_src (i : Z) :
  0 <= i < particleCount g ->
  Atlas.getOldID (encodedSortOrderWidth g) (particleCount g)
    (atlasNow gt sentinelKey zeroPos g) (sortOffsetOf g) i
  = src i.
Proof.
  intros Hi.
  destruct g_sized as (H1 & H2 & H3 & H4 & H5 & H6 & H7 & H8).
  unfold atlasNow, src, sourceOf.
  apply ReshuffleFacts.getOldID_gather;
    first [assumption | exact (sortOffset_nonneg g_sized) | lia].
Qed.

Lemma src_range (i : Z) :
  0 <= i < particleCount g -> 0 <= src i < particleCount g.
Proof. apply sourceOf_range. exact g_sized. Qed.

Lemma old_mono (p : Z) :
  0 <= p < particleCount g -> ptrOf g p <= ptrOf g (p + 1).
Proof. apply g_csr. Qed.

Lemma new_csr :
  ptrOf g' 0 = 0
  /\ (forall p, 0 <= p < particleCount g -> ptrOf g' p <= ptrOf g' (p + 1))
  /\ ptrOf g' (particleCount g) = edgeCount g.
Proof.
  destruct (@relayout_csr F gt sentinelKey zeroPos zeroVel zeroId
              undefinedUint g g_sized g_csr (proj2 g_float))
    as (_ & C0 & C1 & C2).
  repeat split; assumption.
Qed.

(** Every new slot owns as many edges as the slot it was filled from. *)
Lemma new_degrees (i : Z) :
  0 <= i < particleCount g ->
  ptrOf g' (i + 1) - ptrOf g' i = ptrOf g (src i + 1) - ptrOf g (src i).
Proof.
  intros Hi.
  pose proof (old_perm gt sentinelKey zeroPos g_sized) as Hperm.
  destruct g_sized as (H1 & H2 & H3 & H4 & H5 & H6 & H7 & H8).
  destruct g_csr as (P0 & P1 & P2). cbv zeta in P0, P2.
  destruct g_float as (_ & HE).
  destruct (PrefixSumFacts.new_ranges (encodedSortOrderWidth g)
              (particleDataHeight g) (texEdgePtr g)
              (atlasNow gt sentinelKey zeroPos g) (sortOffsetOf g)
              H4 (conj H5 H6) H3 Hperm P1 ltac:(lia) ltac:(lia)) as (D & _).
  specialize (D i Hi). cbv beta in D. rewrite old_is_src in D by exact Hi.
  exact D.
Qed.

Lemma isolated_kept : isolated g' = isolated g.
Proof.
  unfold isolated. change (particleCount g') with (particleCount g).
  apply zerosBelow_perm with (src := src).
  - apply sourceOf_perm. exact g_sized.
  - exact new_degrees.
Qed.

Hypothesis g_few : fewIsolated g.

(** The coarse map's guess for an edge index is at or before its owner
    and fewer than 256 slots before it. *)
Lemma guess_close (e own : Z) :
  0 <= e < edgeCount g ->
  owner (ptrOf g') (particleCount g) own e ->
  let guess :=
    nth (Z.to_nat (e / edgeCoarseMapStride g)) (texCoarseMap g') 0 in
  0 <= guess <= own /\ own - guess < 256.
Proof.
  intros He [Hown Hoe].
  destruct g_edges as (E1 & E2 & E3 & E4 & E5 & E6 & E7).
  destruct new_csr as (C0 & C1 & C2).
  assert (HW : 0 < particleDataWidth g) by apply g_sized.
  set (stride := edgeCoarseMapStride g) in *.
  set (i := e / stride).
  assert (Hi0 : 0 <= i) by (apply Z.div_pos; lia).
  assert (Hi1 : i < coarseWidth g * coarseHeight g) by (apply E7; exact He).
  pose proof (Z.div_mod e stride ltac:(lia)) as Hdm.
  pose proof (Z.mod_pos_bound e stride ltac:(lia)) as Hmb.
  fold i in Hdm.
  cbv zeta. rewrite relayout_coarse. unfold KEdgeCoarseMap.run.
  rewrite nth_drawQuad by lia.
  pose proof (@CoarseMapFacts.main_spec (texEdgePtr g') (particleDataWidth g)
                stride (particleCount g) (coarseWidth g)
                HW (i mod coarseWidth g, i / coarseWidth g)) as M.
  cbv zeta beta in M. cbn [fst snd] in M.
  rewrite frag_linear in M by exact E5.
  fold stride.
  set (p0 := KEdgeCoarseMap.main (texEdgePtr g') (particleDataWidth g) stride
               (particleCount g) (coarseWidth g)
               (i mod coarseWidth g, i / coarseWidth g)) in *.
  assert (Hit : 0 <= i * stride) by nia.
  assert (Hile : i * stride <= e) by lia.
  destruct g_float as (_ & HEf).
  destruct M as (M1 & M2 & M3);
    [exact E1 | exact Hi0 | lia | lia | fold (ptrOf g' 0); lia |].
  rewrite (CoarseMapFacts.start_in_range (texEdgePtr g') HW M1) in M2.
  cbv beta in M2. fold (ptrOf g' p0) in M2.
  assert (Hle : p0 <= own).
  { destruct (Z_lt_ge_dec own p0) as [Hlt|Hge]; [|lia].
    pose proof (@ptr_le (ptrOf g') (particleCount g) C1 (own + 1) p0
                  ltac:(lia) ltac:(lia)).
    lia. }
  split; [lia|].
  destruct (Z.eq_dec p0 own) as [->|Hne]; [lia|].
  assert (Hn : p0 + 1 < particleCount g) by lia.
  specialize (M3 Hn).
  rewrite (@CoarseMapFacts.start_in_range (texEdgePtr g')
             (particleDataWidth g) (particleCount g) HW (p0 + 1)
             ltac:(lia)) in M3.
  cbv beta in M3. fold (ptrOf g' (p0 + 1)) in M3.
  pose proof (@slots_between (ptrOf g') (particleCount g) C1 (p0 + 1) own
                ltac:(lia) ltac:(lia)) as Hb.
  pose proof (@zerosBelow_le (ptrOf g') own (particleCount g) ltac:(lia)) as Hz1.
  pose proof (zerosBelow_nonneg (ptrOf g') (p0 + 1)) as Hz2.
  pose proof isolated_kept as Hk. unfold isolated in Hk.
  change (particleCount g') with (particleCount g) in Hk.
  unfold fewIsolated, isolated in g_few. fold stride in g_few.
  lia.
Qed.

Hypothesis g_pids :
  pidsValid zeroId (particleCount g)
    (particleDataWidth g * particleDataHeight g) (texScratchIdMassTint g).
Hypothesis g_targets : validTargets g.

Lemma relayout_pid (i : Z) :
  0 <= i < particleCount g ->
  pidOf zeroId (texIdMassTint g') i
  = pidOf zeroId (texScratchIdMassTint g) (src i).
Proof.
  intros Hi.
  pose proof (@relayout_slot F gt sentinelKey zeroPos zeroVel zeroId
                undefinedUint g g_sized i Hi) as Hslot.
  apply (f_equal snd) in Hslot.
  unfold ReshuffleFacts.particleAt in Hslot. cbn [snd] in Hslot.
  unfold pidOf, src, g'. now rewrite Hslot.
Qed.

Lemma src_onto (t : Z) :
  0 <= t < particleCount g ->
  exists t', 0 <= t' < particleCount g /\ src t' = t.
Proof.
  intros Ht.
  assert (Hin : In t (map src (range (particleCount g)))).
  { eapply Permutation_in;
      [apply Permutation_sym; apply sourceOf_perm; exact g_sized|].
    now apply in_range. }
  apply in_map_iff in Hin. destruct Hin as (t' & Heq & Hin).
  exists t'. split; [now apply in_range|exact Heq].
Qed.

(** The relocation's translation of an old slot is the new slot that
    was filled from it. *)
Lemma translate_target (t : Z) :
  0 <= t < particleCount g ->
  exists t', 0 <= t' < particleCount g /\ src t' = t
    /\ RelocationFacts.translate zeroId (texScratchIdMassTint g)
         (texIdentity g') t = t'.
Proof.
  intros Ht. destruct (src_onto Ht) as (t' & Ht' & Hsrc).
  exists t'. split; [exact Ht'|]. split; [exact Hsrc|].
  unfold RelocationFacts.translate.
  destruct (@relayout_identity F gt sentinelKey zeroPos zeroVel zeroId
              undefinedUint g g_sized (proj1 g_float) g_pids)
    as (_ & Hinv & _).
  specialize (Hinv t' Ht'). rewrite relayout_pid in Hinv by exact Ht'.
  rewrite Hsrc in Hinv. exact Hinv.
Qed.

(** The old index of the edge that the new index [e] holds. *)
Definition oldIndex (e : Z) : Z :=
  ptrOf g (src (ownerOf g' e)) + (e - ptrOf g' (ownerOf g' e)).

Lemma new_owner (e : Z) :
  0 <= e < edgeCount g -> owner (ptrOf g') (particleCount g) (ownerOf g' e) e.
Proof.
  intros He. destruct new_csr as (C0 & C1 & C2).
  assert (HN : 0 <= particleCount g) by apply g_sized.
  destruct (@owner_exists (ptrOf g') (particleCount g) HN e ltac:(lia))
    as (own & Hown).
  pose proof (owner_count HN C1 Hown) as Hcount.
  replace (ownerOf g' e) with own by (symmetry; exact Hcount).
  exact Hown.
Qed.

Lemma old_owner (e : Z) :
  0 <= e < edgeCount g ->
  owner (ptrOf g) (particleCount g) (src (ownerOf g' e)) (oldIndex e).
Proof.
  intros He. destruct (new_owner He) as [Hown Hoe].
  pose proof (new_degrees Hown) as Hd.
  split; [now apply src_range|]. unfold oldIndex. lia.
Qed.

Lemma oldIndex_range (e : Z) :
  0 <= e < edgeCount g -> 0 <= oldIndex e < edgeCount g.
Proof.
  intros He. destruct (old_owner He) as [Hs Ho].
  destruct g_csr as (C0 & C1 & C2).
  pose proof (@ptr_le (ptrOf g) (particleCount g) C1 0 (src (ownerOf g' e))
                ltac:(lia) ltac:(lia)).
  pose proof (@ptr_le (ptrOf g) (particleCount g) C1 (src (ownerOf g' e) + 1)
                (particleCount g) ltac:(lia) ltac:(lia)).
  unfold ptrOf in *. lia.
Qed.

Lemma old_ownerOf (e : Z) :
  0 <= e < edgeCount g -> ownerOf g (oldIndex e) = src (ownerOf g' e).
Proof.
  intros He.
  assert (HN : 0 <= particleCount g) by apply g_sized.
  exact (owner_count HN old_mono (old_owner He)).
Qed.

Lemma oldIndex_inj (e1 e2 : Z) :
  0 <= e1 < edgeCount g -> 0 <= e2 < edgeCount g ->
  oldIndex e1 = oldIndex e2 -> e1 = e2.
Proof.
  intros H1 H2 Heq.
  pose proof (old_owner H1) as O1. pose proof (old_owner H2) as O2.
  rewrite Heq in O1.
  pose proof (csr_owner_unique old_mono O1 O2) as Hsrc.
  destruct (new_owner H1) as [N1 _]. destruct (new_owner H2) as [N2 _].
  apply (sourceOf_inj gt sentinelKey zeroPos g_sized N1 N2) in Hsrc.
  unfold oldIndex in Heq. rewrite Hsrc in Heq. lia.
Qed.

Lemma oldIndex_perm :
  Permutation (map oldIndex (range (edgeCount g))) (range (edgeCount g)).
Proof.
  apply Permutation_map_same_l.
  - apply Injective_map_NoDup_in; [|apply NoDup_range].
    intros i j Hi Hj. apply oldIndex_inj; now apply in_range.
  - intros v Hv. apply in_map_iff in Hv. destruct Hv as (i & <- & Hi).
    apply in_range. apply oldIndex_range. now apply in_range.
Qed.

(** The new edge store holds, at [e], the translated entry of the old
    index of [e]. *)
Lemma new_store (e : Z) :
  0 <= e < edgeCount g ->
  storeOf g' e
  = RelocationFacts.translate zeroId (texScratchIdMassTint g)
      (texIdentity g') (storeOf g (oldIndex e)).
Proof.
  intros He.
  destruct g_sized as (H1 & H2 & H3 & H4 & H5 & H6 & H7 & H8).
  destruct g_edges as (E1 & E2 & E3 & E4 & E5 & E6 & E7).
  destruct g_float as (HT & HEf).
  destruct new_csr as (C0 & C1 & C2).
  pose proof (new_owner He) as Hown.
  pose proof (old_owner He) as Hold.
  pose proof (oldIndex_range He) as Hrange.
  assert (HH : 1 <= particleDataHeight g)
    by (destruct (Z_lt_ge_dec (particleDataHeight g) 1); [nia|lia]).
  assert (Hsrc : RelocationFacts.oldEdge (encodedSortOrderWidth g)
                   (particleCount g) (texEdgePtr g') (texEdgePtr g)
                   (atlasNow gt sentinelKey zeroPos g) (sortOffsetOf g)
                   (ownerOf g' e) e
                 = oldIndex e).
  { unfold RelocationFacts.oldEdge. rewrite old_is_src by apply Hown.
    reflexivity. }
  unfold storeOf at 1. rewrite relayout_store.
  destruct (RelocationFacts.relocation_run_spec zeroId undefinedUint
              (edgeStoreHeight g)
              (encodedSortOrderWidth g) (texEdgeStore g) (texCoarseMap g')
              (texEdgePtr g') (texEdgePtr g) (texScratchIdMassTint g)
              (texIdentity g') (atlasNow gt sentinelKey zeroPos g)
              (sortOffsetOf g)
              (esW := edgeStoreWidth g) (cW := coarseWidth g)
              (W := particleDataWidth g) (stride := edgeCoarseMapStride g)
              (E := edgeCount g) (N := particleCount g))
    as (R & _).
  - nia.
  - lia.
  - exact C1.
  - unfold RelocationFacts.ptrNew. unfold ptrOf in C0. lia.
  - unfold RelocationFacts.ptrNew. unfold ptrOf in C2. lia.
  - exact E2.
  - lia.
  - lia.
  - exact E5.
  - exact E6.
  - specialize (R e (ownerOf g' e) He Hown (guess_close He Hown)).
    cbv zeta in R. rewrite Hsrc in R.
    destruct R as [R _].
    + lia.
    + rewrite old_is_src by apply Hown.
      destruct Hold as [Hs Ho]. destruct g_csr as (D0 & D1 & D2).
      pose proof (@ptr_le (ptrOf g) (particleCount g) D1 0
                    (src (ownerOf g' e)) ltac:(lia) ltac:(lia)).
      unfold RelocationFacts.ptrOld. fold (ptrOf g (src (ownerOf g' e))).
      cbv zeta in D0. fold (ptrOf g 0) in D0. lia.
    + pose proof (g_targets Hrange) as Ht.
      apply R.
      * change (RelocationFacts.storeOld (texEdgeStore g) (oldIndex e))
          with (storeOf g (oldIndex e)). lia.
      * change (RelocationFacts.storeOld (texEdgeStore g) (oldIndex e))
          with (storeOf g (oldIndex e)).
        destruct g_pids as [Hr _]. specialize (Hr _ Ht). unfold pidOf in Hr.
        lia.
Qed.

Hypothesis g_ids :
  forall i, 0 <= i < particleCount g ->
    nth (Z.to_nat i) (texScratchIdMassTint g) zeroId
    = nth (Z.to_nat i) (texIdMassTint g) zeroId.

Lemma new_pid (i : Z) :
  0 <= i < particleCount g -> pidAt zeroId g' i = pidAt zeroId g (src i).
Proof.
  intros Hi. pose proof (relayout_pid Hi) as H.
  unfold pidOf in H. unfold pidAt. rewrite H.
  now rewrite g_ids by (now apply src_range).
Qed.

(** Every new edge index stands for the pair its old index stood
    for. *)
Lemma edge_moved (e : Z) :
  0 <= e < edgeCount g -> edgeAt zeroId g' e = edgeAt zeroId g (oldIndex e).
Proof.
  intros He. unfold edgeAt.
  fold (storeOf g' e). fold (storeOf g (oldIndex e)).
  rewrite (new_store He), (old_ownerOf He).
  destruct (new_owner He) as [Hown _].
  pose proof (g_targets (oldIndex_range He)) as Ht.
  destruct (translate_target Ht) as (t' & Ht' & Hsrc & ->).
  destruct (Z.ltb_spec t' 0); [lia|].
  destruct (Z.ltb_spec (storeOf g (oldIndex e)) 0); [lia|].
  rewrite (new_pid Hown), (new_pid Ht'), Hsrc. reflexivity.
Qed.

(** One relayout keeps the logical edges. *)
Lemma relayout_edges :
  Permutation (logicalEdges zeroId g') (logicalEdges zeroId g).
Proof.
  rewrite !logicalEdges_edgeAt.
  change (edgeCount g') with (edgeCount g).
  rewrite (flat_map_ext_range (edgeAt zeroId g')
             (fun e => edgeAt zeroId g (oldIndex e)) edge_moved).
  rewrite <- flat_map_of_map.
  apply Permutation_flat_map. exact oldIndex_perm.
Qed.

Lemma relayout_targets : validTargets g'.
Proof.
  intros e He. change (edgeCount g') with (edgeCount g) in He.
  change (particleCount g') with (particleCount g).
  rewrite (new_store He).
  pose proof (g_targets (oldIndex_range He)) as Ht.
  destruct (translate_target Ht) as (t' & Ht' & _ & ->). exact Ht'.
Qed.

Lemma relayout_inFloatRange : inFloatRange g'.
Proof. exact g_float. Qed.

Lemma relayout_edgeSized : edgeSized g'.
Proof. exact g_edges. Qed.

Lemma relayout_few : fewIsolated g'.
Proof.
  unfold fewIsolated. rewrite isolated_kept.
  change (edgeCoarseMapStride g') with (edgeCoarseMapStride g). exact g_few.
Qed.

End Relayout.
End EdgeFacts.

Module TickEdgeFacts.
Import Gl GlFacts Particle GraphLayout RunFacts CsrFacts EdgeFacts TickFacts Tick.
Import KPhysicsSimulation.
Local Open Scope Z_scope.

(** One tick keeps the logical edges, and what it needs to keep them
    again. *)
Lemma run_edges (u : Z -> Z) (q : parameters) (g : engine R) :
  sized g -> validCSR g -> validPIDs g ->
  edgeSized g -> inFloatRange g -> validTargets g -> fewIsolated g ->
  Permutation (logicalEdges zeroId (Tick.run u q g)) (logicalEdges zeroId g)
  /\ edgeSized (Tick.run u q g) /\ validTargets (Tick.run u q g)
  /\ fewIsolated (Tick.run u q g).
Proof.
  intros Hs Hc Hp He Hfl Ht Hf.
  pose proof (integrated_sized q Hs) as Hs'.
  pose proof (integrated_csr q Hc) as Hc'.
  assert (Hids : forall i, 0 <= i < particleCount (integrated q g) ->
            nth (Z.to_nat i) (texScratchIdMassTint (integrated q g)) zeroId
            = nth (Z.to_nat i) (texIdMassTint (integrated q g)) zeroId).
  { intros i Hi. exact (integrated_id q Hs Hi). }
  assert (Hp' : pidsValid zeroId (particleCount (integrated q g))
                  (particleDataWidth (integrated q g)
                   * particleDataHeight (integrated q g))
                  (texScratchIdMassTint (integrated q g))).
  { destruct Hp as [P1 P2]. split.
    - intros i Hi. unfold pidOf. rewrite Hids by exact Hi. exact (P1 i Hi).
    - intros i j Hi Hj. unfold pidOf. rewrite !Hids by assumption.
      exact (P2 i j Hi Hj). }
  assert (He' : edgeSized (integrated q g)) by exact He.
  assert (Ht' : validTargets (integrated q g)) by exact Ht.
  assert (Hf' : fewIsolated (integrated q g)) by exact Hf.
  assert (Hfl' : inFloatRange (integrated q g)) by exact Hfl.
  rewrite run_relayout.
  split; [|split; [|split]].
  - change (logicalEdges zeroId g)
      with (logicalEdges zeroId (integrated q g)).
    now apply relayout_edges.
  - now apply relayout_edgeSized.
  - now apply relayout_targets.
  - now apply relayout_few.
Qed.

Lemma demo_edgeSized : edgeSized demoEngine.
Proof.
  unfold edgeSized.
  change (0 < 3 <= 131072 /\ 0 < 2 /\ 2 <= 2 * 1 /\ 2 * 1 < 4294967296
          /\ 0 < 1 /\ 0 < 128 /\ (forall e, 0 <= e < 2 -> e / 128 < 1 * 1)).
  repeat split; try lia.
  intros e He. assert (Hc : e = 0 \/ e = 1) by lia.
  destruct Hc as [->| ->]; reflexivity.
Qed.

Lemma demo_targets : validTargets demoEngine.
Proof.
  intros e He. change (0 <= e < 2) in He.
  assert (Hc : e = 0 \/ e = 1) by lia.
  destruct Hc as [->| ->]; unfold storeOf; simpl; lia.
Qed.

Lemma demo_few : fewIsolated demoEngine.
Proof.
  unfold fewIsolated. change (isolated demoEngine + 128 <= 256).
  replace (isolated demoEngine) with 1 by reflexivity. lia.
Qed.

(** [X20]  The graph survives any number of ticks, on every
    platform: the list of logical edges of the engine (for every edge
    index, the PID of the slot owning it and the PID of the target
    slot) is after [n] calls of [run()] a permutation of the list
    before, and every entry of the edge store is still a slot.  The
    engine is sized, its pointers are valid CSR, the PIDs of its slots
    are distinct texel indices, every edge entry is a slot (no sentinel
    [-1], whose conversion the relocation shader leaves to the
    platform), the particle textures have at most [2^23] texels and
    there are fewer than [2^23] edges (indices pass through floats), at
    most [2^17] particles, and the edgeless slots together with the
    coarse stride are at most 256 (the relocation's refinement walks at
    most 256 slots on from the coarse map's guess). *)
Theorem run_keeps_edges (u : Z -> Z) (q : parameters) (g : engine R) (n : nat) :
  sized g -> validCSR g -> validPIDs g ->
  edgeSized g -> inFloatRange g -> validTargets g -> fewIsolated g ->
  let g' := Nat.iter n (Tick.run u q) g in
  Permutation (logicalEdges zeroId g') (logicalEdges zeroId g)
  /\ validTargets g'.
Proof.
  intros Hs Hc Hp He Hfl Ht Hf g'. subst g'.
  assert (H : let g' := Nat.iter n (Tick.run u q) g in
              (sized g' /\ validCSR g' /\ validPIDs g')
              /\ (edgeSized g' /\ validTargets g' /\ fewIsolated g')
              /\ inFloatRange g'
              /\ Permutation (logicalEdges zeroId g') (logicalEdges zeroId g)).
  { induction n as [|n IH]; cbn [Nat.iter].
    - split; [split; [exact Hs|split; [exact Hc|exact Hp]]|].
      split; [split; [exact He|split; [exact Ht|exact Hf]]|].
      split; [exact Hfl|].
      apply Permutation_refl.
    - destruct IH as ((I1 & I2 & I3) & (I4 & I5 & I6) & I8 & I7).
      set (h := Nat.iter n (Tick.run u q) g) in *.
      change (Nat.iter (S n) (Tick.run u q) g) with (Tick.run u q h).
      destruct (run_csr u q I1 I2 (proj2 I8)) as [J1 J2].
      pose proof (run_valid_pids u q I1 I3) as J3.
      destruct (run_edges u q I1 I2 I3 I4 I8 I5 I6) as (K1 & K2 & K3 & K4).
      split; [split; [exact J1|split; [exact J2|exact J3]]|].
      split; [split; [exact K2|split; [exact K3|exact K4]]|].
      split; [exact I8|].
      eapply Permutation_trans; [exact K1|exact I7]. }
  cbv zeta in H. destruct H as (_ & (_ & H2 & _) & _ & H3).
  split; [exact H3|exact H2].
Qed.

Lemma demo_inFloatRange : inFloatRange demoEngine.
Proof. split; [exact demo_texels|exact demo_edges]. Qed.

Lemma run_keeps_edges_witness :
  Permutation
    (logicalEdges zeroId
       (Nat.iter 2 (Tick.run demoPlatform demoParameters) demoEngine))
    [(2, 0); (3, 3)].
Proof.
  exact (proj1 (@run_keeps_edges demoPlatform demoParameters demoEngine 2
                  demo_sized demo_csr demo_pids demo_edgeSized
                  demo_inFloatRange demo_targets demo_few)).
Defined.

End TickEdgeFacts.

